(** * youtube-feels-meter: the scoring pipeline, embedded and verified

    A shallow embedding of the backend's pure core
    ([utils/titleParser.js], [utils/stringMatcher.js],
    [services/genre-audio-analyzer.service.js],
    [services/feels.calculator.js]), of the in-memory side of
    [services/cache.service.js], of the two functions of
    [services/music-analysis.service.js] that tie them together (the
    MusicBrainz search being a parameter), and of the selection loop of
    the frontend hook [hooks/useFeelsSelection.js].

    Conventions of the embedding.
    - A JavaScript string is a [string]; the text functions are exact on
      ASCII text (case mapping and the regular-expression classes [\s],
      [\w] are the ASCII ones).
    - A JavaScript number is an exact rational [Q]; an integer result
      ([Math.round], [length]) is a [Z] or a [nat].  Rounding of IEEE
      doubles is not part of this model; the scoring formula is embedded
      a second time on binary64 numbers ([FeelsCalculator64]) to replay
      the numeric examples as the engine computes them.
    - [null]/[undefined] arguments are [None]; a field that may be absent
      is an [option] or a dedicated variant.
    - [Date.now()] is an explicit argument [now], in milliseconds. *)

From Stdlib Require Import Ascii QArith Qabs Qround Lqa Floats.
From stdpp Require Import gmap strings list sorting pretty.

Local Open Scope string_scope.

(** ** JavaScript primitives on strings *)

Module JS.

Definition code (c : ascii) : nat := nat_of_ascii c.

(** [\s] restricted to ASCII: TAB, LF, VT, FF, CR and SPACE. *)
Definition is_space (c : ascii) : bool :=
  let n := code c in
  ((9 <=? n)%nat && (n <=? 13)%nat) || (n =? 32)%nat.

(** The line terminators that [.] refuses: LF and CR. *)
Definition is_line_terminator (c : ascii) : bool :=
  let n := code c in (n =? 10)%nat || (n =? 13)%nat.

(** [\w]: letters, digits and underscore. *)
Definition is_word_char (c : ascii) : bool :=
  let n := code c in
  ((48 <=? n)%nat && (n <=? 57)%nat) || ((65 <=? n)%nat && (n <=? 90)%nat)
  || ((97 <=? n)%nat && (n <=? 122)%nat) || (n =? 95)%nat.

Definition lower_char (c : ascii) : ascii :=
  let n := code c in
  if ((65 <=? n)%nat && (n <=? 90)%nat)%bool then ascii_of_nat (n + 32) else c.

(** [s.toLowerCase()] *)
Fixpoint toLowerCase (s : string) : string :=
  match s with
  | EmptyString => EmptyString
  | String c s' => String (lower_char c) (toLowerCase s')
  end.

(** Equality of two characters under the [i] flag. *)
Definition char_eq_ci (a b : ascii) : bool :=
  Ascii.eqb (lower_char a) (lower_char b).

Fixpoint all_space (s : string) : bool :=
  match s with
  | EmptyString => true
  | String c s' => is_space c && all_space s'
  end.

(** [s.trimStart()] *)
Fixpoint trimStart (s : string) : string :=
  match s with
  | EmptyString => EmptyString
  | String c s' => if is_space c then trimStart s' else s
  end.

(** [s.trimEnd()] *)
Fixpoint trimEnd (s : string) : string :=
  match s with
  | EmptyString => EmptyString
  | String c s' =>
      match trimEnd s' with
      | EmptyString => if is_space c then EmptyString else String c EmptyString
      | r => String c r
      end
  end.

(** [s.trim()] *)
Definition trim (s : string) : string := trimStart (trimEnd s).

(** [s.replace(/\s+/g, ' ')]: every maximal run of white space becomes one
    space.  [in_run] tells that the previous character was white space. *)
Fixpoint collapse_from (in_run : bool) (s : string) : string :=
  match s with
  | EmptyString => EmptyString
  | String c s' =>
      if is_space c
      then if in_run then collapse_from true s'
           else String " "%char (collapse_from true s')
      else String c (collapse_from false s')
  end.

Definition collapse_spaces (s : string) : string := collapse_from false s.

Fixpoint starts_with (p s : string) : bool :=
  match p, s with
  | EmptyString, _ => true
  | String a p', String b s' => Ascii.eqb a b && starts_with p' s'
  | String _ _, EmptyString => false
  end.

(** [s.includes(p)] *)
Fixpoint includes (s p : string) : bool :=
  starts_with p s ||
  match s with
  | EmptyString => false
  | String _ s' => includes s' p
  end.

(** [parts.join(sep)] *)
Fixpoint join (sep : string) (parts : list string) : string :=
  match parts with
  | [] => EmptyString
  | [p] => p
  | p :: rest => p +:+ sep +:+ join sep rest
  end.

(** Truthiness of a string: only the empty string is falsy. *)
Definition truthy_string (s : string) : bool :=
  match s with EmptyString => false | _ => true end.

(** [Math.round]: the nearest integer, halves rounded up. *)
Definition Math_round (q : Q) : Z := Qfloor (q + (1 # 2))%Q.

Definition Math_min (a b : Q) : Q := if Qle_bool a b then a else b.
Definition Math_max (a b : Q) : Q := if Qle_bool a b then b else a.

(** *** Notions used to state and prove the properties *)

(** Every character of [s] passes [test]. *)
Fixpoint all_chars (test : ascii -> bool) (s : string) : bool :=
  match s with
  | EmptyString => true
  | String c s' => test c && all_chars test s'
  end.

(** A character that [toLowerCase] leaves as it is. *)
Definition is_lower (c : ascii) : bool := Ascii.eqb (lower_char c) c.

End JS.

(** ** utils/stringMatcher.js *)

Module StringMatcher.
Import JS.

(** One row of the dynamic-programming matrix: [matrix[i][j]] for
    [j = 1 .. str1.length], from the row above ([prev], starting at column
    [j - 1]) and the cell to the left. *)
Fixpoint fill_row (c2 : ascii) (str1 : string) (prev : list nat) (left : nat)
  : list nat :=
  match str1, prev with
  | String c1 rest, diag :: ((up :: _) as prev') =>
      let cell :=
        if Ascii.eqb c2 c1 then diag
        else Nat.min (diag + 1) (Nat.min (left + 1) (up + 1)) in
      cell :: fill_row c2 rest prev' cell
  | _, _ => []
  end.

(** The rows [matrix[1] .. matrix[str2.length]], each started by its own
    index ([matrix[i] = [i]]); the result is the last row. *)
Fixpoint fill_rows (str1 str2 : string) (i : nat) (prev : list nat) : list nat :=
  match str2 with
  | EmptyString => prev
  | String c2 rest => fill_rows str1 rest (S i) (i :: fill_row c2 str1 prev i)
  end.

(** [levenshteinDistance(str1, str2)]: [matrix[str2.length][str1.length]]. *)
Definition levenshteinDistance (str1 str2 : string) : nat :=
  List.last (fill_rows str1 str2 1 (seq 0 (S (String.length str1)))) 0%nat.

(** [similarityRatio(str1, str2)].  An absent argument behaves as the empty
    string does: [!str] holds for both. *)
Definition similarityRatio (str1 str2 : string) : Q :=
  if negb (truthy_string str1) || negb (truthy_string str2) then 0%Q
  else
    let s1 := trim (toLowerCase str1) in
    let s2 := trim (toLowerCase str2) in
    if String.eqb s1 s2 then 1%Q
    else
      let maxLength := Nat.max (String.length s1) (String.length s2) in
      if (maxLength =? 0)%nat then 1%Q
      else (1 - inject_Z (Z.of_nat (levenshteinDistance s1 s2))
                / inject_Z (Z.of_nat maxLength))%Q.

(** [fuzzyMatch(str1, str2, threshold = 0.8)] *)
Definition fuzzyMatch (str1 str2 : string) (threshold : option Q) : bool :=
  Qle_bool (default (0.8)%Q threshold) (similarityRatio str1 str2).

(** The result object of [findBestMatch].  [matched] is the property
    [match]; it is [null], with [index] -1, only when no candidate was ever
    taken. *)
Record BestMatch := {
  matched : option string;
  score : Q;
  index : Z
}.

(** One turn of the loop of [findBestMatch], at index [i]. *)
Definition consider (query : string) (best : BestMatch) (i : nat)
    (candidate : string) : BestMatch :=
  if negb (truthy_string candidate) then best
  else
    let score_i := similarityRatio query candidate in
    if negb (Qle_bool score_i (score best))
    then {| matched := Some candidate; score := score_i; index := Z.of_nat i |}
    else best.

Fixpoint scan_candidates (query : string) (best : BestMatch) (i : nat)
    (candidates : list string) : BestMatch :=
  match candidates with
  | [] => best
  | candidate :: rest =>
      scan_candidates query (consider query best i candidate) (S i) rest
  end.

(** [findBestMatch(query, candidates, threshold = 0.6)].  A candidate that
    is [null] or [undefined] is skipped as the empty string is, and an
    absent [candidates] returns as the empty array does. *)
Definition findBestMatch (query : string) (candidates : list string)
    (threshold : option Q) : option BestMatch :=
  if negb (truthy_string query) || (length candidates =? 0)%nat then None
  else
    let best :=
      scan_candidates query
        {| matched := None; score := 0%Q; index := (-1)%Z |} 0 candidates in
    if Qle_bool (default (0.6)%Q threshold) (score best) then Some best
    else None.

(** The argument objects of [calculateMatchScore]; an absent property
    behaves as the empty string does. *)
Record Identity := {
  artist : string;
  song : string
}.

(** [a && b ? similarityRatio(a, b) : 0] *)
Definition ratio_if_both (a b : string) : Q :=
  if truthy_string a && truthy_string b then similarityRatio a b else 0%Q.

(** [calculateMatchScore(query, candidate)] *)
Definition calculateMatchScore (query candidate : Identity) : Q :=
  let qArtist := artist query in
  let qSong := song query in
  let cArtist := artist candidate in
  let cSong := song candidate in
  if negb (truthy_string qArtist) && negb (truthy_string cArtist) then
    ratio_if_both qSong cSong
  else if negb (truthy_string qSong) && negb (truthy_string cSong) then
    ratio_if_both qArtist cArtist
  else
    let artistScore := ratio_if_both qArtist cArtist in
    let songScore := ratio_if_both qSong cSong in
    ((artistScore + songScore) / 2)%Q.

(** [str.replace(/[^\w\s]/g, ' ')] *)
Fixpoint blank_specials (s : string) : string :=
  match s with
  | EmptyString => EmptyString
  | String c s' =>
      String (if is_word_char c || is_space c then c else " "%char)
             (blank_specials s')
  end.

(** [normalizeString(str)] *)
Definition normalizeString (str : string) : string :=
  if negb (truthy_string str) then EmptyString
  else trim (collapse_spaces (blank_specials (toLowerCase str))).

(** *** Notions used to state and prove the properties *)

(** The recurrence the matrix of [levenshteinDistance] follows, on the
    prefixes read so far, each given back to front: [edit u v] is the cell
    of the row of [u] (a prefix of [str2]) in the column of [v] (a prefix
    of [str1]). *)
Fixpoint edit (u : string) : string -> nat :=
  match u with
  | EmptyString => fun v => String.length v
  | String a u' =>
      fix edit_row (v : string) : nat :=
        match v with
        | EmptyString => S (String.length u')
        | String b v' =>
            if Ascii.eqb a b then edit u' v'
            else Nat.min (edit u' v' + 1)
                         (Nat.min (edit_row v' + 1) (edit u' v + 1))
        end
  end.

(** The cells of the row of [u] from the column of [v] on, [rest] being the
    characters of [str1] still to come. *)
Fixpoint row_from (u v rest : string) : list nat :=
  edit u v ::
  match rest with
  | EmptyString => []
  | String c rest' => row_from u (String c v) rest'
  end.

(** [s] back to front, put before [acc]. *)
Fixpoint rev_onto (s acc : string) : string :=
  match s with
  | EmptyString => acc
  | String c s' => rev_onto s' (String c acc)
  end.

(** What the loop of [findBestMatch] holds in [best] once the candidates
    [seen] have been gone through: nothing, no candidate having scored
    above 0; or the first of the candidates with the highest score. *)
Definition best_of (query : string) (seen : list string) (best : BestMatch)
  : Prop :=
  (matched best = None /\ score best = 0%Q /\ index best = (-1)%Z
   /\ forall j c, seen !! j = Some c -> (similarityRatio query c <= 0)%Q)
  \/ (exists i c,
        seen !! i = Some c /\ matched best = Some c
        /\ index best = Z.of_nat i
        /\ score best = similarityRatio query c
        /\ (0 < score best)%Q
        /\ (forall j c', seen !! j = Some c' ->
              (similarityRatio query c' <= score best)%Q)
        /\ (forall j c', (j < i)%nat -> seen !! j = Some c' ->
              (similarityRatio query c' < score best)%Q)).

(** The characters [normalizeString] lets through as they are. *)
Definition kept (c : ascii) : bool := is_word_char c || is_space c.

(** The characters of a normalised text: lower-case letters, digits,
    the underscore and the space. *)
Definition is_plain (c : ascii) : bool :=
  (is_word_char c && is_lower c) || Ascii.eqb c " ".

End StringMatcher.

(** ** utils/titleParser.js *)

Module TitleParser.
Import JS.

Local Open Scope Q_scope.

Definition COMMON_SUFFIXES : list string :=
  [ "(official video)";
    "(official music video)";
    "(official audio)";
    "(lyric video)";
    "(lyrics)";
    "[official video]";
    "[official music video]";
    "[official audio]";
    "(music video)";
    "(audio)";
    "(hd)";
    "(4k)";
    "(explicit)";
    "(clean)";
    "(radio edit)";
    "(extended)";
    "(remix)";
    "(remastered)" ].

(** A literal pattern matched at the start of [s] under the [i] flag; gives
    what follows the match. *)
Fixpoint match_ci (pattern s : string) : option string :=
  match pattern, s with
  | EmptyString, _ => Some s
  | String a pattern', String b s' =>
      if char_eq_ci a b then match_ci pattern' s' else None
  | String _ _, EmptyString => None
  end.

(** Does [literal\s*$] (with [spaces]) or [literal$] (without) match at the
    start of [s]? *)
Definition ends_here (spaces : bool) (literal s : string) : bool :=
  match match_ci literal s with
  | Some rest =>
      if spaces then all_space rest
      else match rest with EmptyString => true | _ => false end
  | None => false
  end.

(** [s.replace(new RegExp(literal + '\\s*$', 'gi'), '')], or the same with
    [literal + '$']: the leftmost place from which the literal and then
    only white space (or nothing) run to the end is cut off.  The literal
    being non-empty, the pattern matches once at most. *)
Fixpoint remove_at_end (spaces : bool) (literal s : string) : string :=
  if ends_here spaces literal s then EmptyString
  else match s with
       | EmptyString => EmptyString
       | String c s' => String c (remove_at_end spaces literal s')
       end.

(** The loop of [cleanTitle]: every suffix of the table is tried once, in
    order, on what the previous ones left. *)
Definition remove_suffixes (suffixes : list string) (cleaned : string) : string :=
  fold_left (fun cleaned suffix => remove_at_end true suffix cleaned)
            suffixes cleaned.

(** [cleanTitle(title)] *)
Definition cleanTitle (title : string) : string :=
  let cleaned := toLowerCase title in
  let cleaned := remove_suffixes COMMON_SUFFIXES cleaned in
  collapse_spaces (trim cleaned).

(** [calculateConfidence(artist, song, channelTitle)] *)
Definition calculateConfidence (artist song channelTitle : string) : Q :=
  let confidence := 0.5 in
  let confidence :=
    if truthy_string artist && truthy_string song
       && negb (String.eqb (toLowerCase artist) (toLowerCase song))
    then confidence + 0.2 else confidence in
  let confidence :=
    if truthy_string artist && truthy_string channelTitle then
      let artistLower := toLowerCase artist in
      let channelLower := toLowerCase channelTitle in
      if includes channelLower artistLower || includes artistLower channelLower
      then confidence + 0.2 else confidence
    else confidence in
  let confidence :=
    if truthy_string artist && truthy_string song
       && (2 <? String.length artist)%nat && (2 <? String.length song)%nat
    then confidence + 0.1 else confidence in
  Math_min confidence 1.0.

Fixpoint no_line_terminator (s : string) : bool :=
  match s with
  | EmptyString => true
  | String c s' => negb (is_line_terminator c) && no_line_terminator s'
  end.

Fixpoint last_char (s : string) : option ascii :=
  match s with
  | EmptyString => None
  | String c EmptyString => Some c
  | String _ s' => last_char s'
  end.

(** [(.+)$] after a greedy run of white space [run], [rest] being what
    follows the run.  The group is [rest] when there is one and no line
    terminator is in it.  When the white space ran to the end, the run
    gives its last character back to the group, provided more than [keep]
    characters were in the run ([keep] is 0 after [\s*] and 1 after
    [\s+]). *)
Definition group_to_end (keep : nat) (run rest : string) : option string :=
  match rest with
  | String _ _ => if no_line_terminator rest then Some rest else None
  | EmptyString =>
      match last_char run with
      | Some c =>
          if (keep <? String.length run)%nat && negb (is_line_terminator c)
          then Some (String c EmptyString) else None
      | None => None
      end
  end.

(** The white space [s] starts with. *)
Fixpoint leading_spaces (s : string) : string :=
  match s with
  | String c s' => if is_space c then String c (leading_spaces s') else EmptyString
  | EmptyString => EmptyString
  end.

(** [\s*(.+)$] at the start of [s] *)
Definition spaces_then_group (s : string) : option string :=
  group_to_end 0 (leading_spaces s) (trimStart s).

(** [\s+(.+)$] at the start of [s] *)
Definition spaces1_then_group (s : string) : option string :=
  match leading_spaces s with
  | EmptyString => None
  | run => group_to_end 1 run (trimStart s)
  end.

(** [^([^c]+)\s*c\s*(.+)$] and [^([^c]+)c\s*(.+)$] for a separator
    character [c]: the first group runs to the first [c], which has to
    exist and not to come first. *)
Fixpoint split_at (sep : ascii) (s : string) : option (string * string) :=
  match s with
  | EmptyString => None
  | String c s' =>
      if Ascii.eqb c sep then
        match spaces_then_group s' with
        | Some g => Some (EmptyString, g)
        | None => None
        end
      else
        match split_at sep s' with
        | Some (g1, g2) => Some (String c g1, g2)
        | None => None
        end
  end.

Definition separator_pattern (sep : ascii) (s : string) : option (string * string) :=
  match split_at sep s with
  | Some (String c g1, g2) => Some (String c g1, g2)
  | _ => None
  end.

(** [\s+by\s+(.+)$] at the start of [s], under the [i] flag *)
Definition by_tail (s : string) : option string :=
  match leading_spaces s with
  | EmptyString => None
  | _ =>
      match match_ci "by" (trimStart s) with
      | Some rest => spaces1_then_group rest
      | None => None
      end
  end.

(** [^(.+)\s+by\s+(.+)$]: the first group is greedy, so the split is the
    rightmost one that works; the group cannot run over a line
    terminator. *)
Fixpoint by_scan (s : string) : option (string * string) :=
  match s with
  | EmptyString => None
  | String c s' =>
      match (if is_line_terminator c then None else by_scan s') with
      | Some (g1, g2) => Some (String c g1, g2)
      | None =>
          match by_tail s with
          | Some g2 => Some (EmptyString, g2)
          | None => None
          end
      end
  end.

Definition by_pattern (s : string) : option (string * string) :=
  match by_scan s with
  | Some (String c g1, g2) => Some (String c g1, g2)
  | _ => None
  end.

Record Parsed := {
  artist : option string;
  song : option string;
  confidence : Q
}.

Definition parsed (artist song channelTitle : string) : Parsed :=
  {| artist := Some artist; song := Some song;
     confidence := calculateConfidence artist song channelTitle |}.

(** [parseVideoTitle(title, channelTitle = '')]; an absent title behaves as
    the empty one. *)
Definition parseVideoTitle (title channelTitle : string) : Parsed :=
  if negb (truthy_string title) then
    {| artist := None; song := None; confidence := 0 |}
  else
    let cleaned := cleanTitle title in
    match separator_pattern "-" cleaned with
    | Some (g1, g2) => parsed (trim g1) (trim g2) channelTitle
    | None =>
    match by_pattern cleaned with
    | Some (g1, g2) => parsed (trim g2) (trim g1) channelTitle
    | None =>
    match separator_pattern ":" cleaned with
    | Some (g1, g2) => parsed (trim g1) (trim g2) channelTitle
    | None =>
    match separator_pattern "|" cleaned with
    | Some (g1, g2) => parsed (trim g1) (trim g2) channelTitle
    | None =>
        if truthy_string channelTitle then
          let artist :=
            trim (remove_at_end false "music"
                    (remove_at_end false "official"
                       (remove_at_end false "vevo" channelTitle))) in
          {| artist := Some artist; song := Some cleaned; confidence := 0.4 |}
        else
          {| artist := None; song := Some cleaned; confidence := 0.3 |}
    end end end end.

(** [[a-zA-Z0-9_-]] *)
Definition is_id_char (c : ascii) : bool := is_word_char c || Ascii.eqb c "-".

(** [([a-zA-Z0-9_-]+)] is greedy: the longest run of such characters [s]
    starts with. *)
Fixpoint id_run (s : string) : string :=
  match s with
  | String c s' => if is_id_char c then String c (id_run s') else EmptyString
  | EmptyString => EmptyString
  end.

(** A literal at the start of [s], case-sensitively; gives what follows. *)
Fixpoint strip_prefix (literal s : string) : option string :=
  match literal, s with
  | EmptyString, _ => Some s
  | String a literal', String b s' =>
      if Ascii.eqb a b then strip_prefix literal' s' else None
  | String _ _, EmptyString => None
  end.

(** [literal([a-zA-Z0-9_-]+)] at the start of [s]: the group. *)
Definition id_after (literal s : string) : option string :=
  match strip_prefix literal s with
  | Some rest =>
      match id_run rest with
      | EmptyString => None
      | group => Some group
      end
  | None => None
  end.

(** [[?&]name=([a-zA-Z0-9_-]+)] at the start of [s] *)
Definition query_param (name s : string) : option string :=
  match s with
  | String c s' =>
      if Ascii.eqb c "?" || Ascii.eqb c "&" then id_after (name +:+ "=") s'
      else None
  | EmptyString => None
  end.

(** [url.match(pattern)]: the leftmost place where the pattern matches;
    [here] is the pattern tried at the start of a text. *)
Fixpoint first_match (here : string -> option string) (s : string)
  : option string :=
  match here s with
  | Some group => Some group
  | None =>
      match s with
      | EmptyString => None
      | String _ s' => first_match here s'
      end
  end.

(** [extractPlaylistId(url)]; an absent url behaves as the empty one. *)
Definition extractPlaylistId (url : string) : option string :=
  if negb (truthy_string url) then None
  else first_match (query_param "list") url.

(** [extractVideoId(url)] *)
Definition extractVideoId (url : string) : option string :=
  if negb (truthy_string url) then None
  else
    match first_match (query_param "v") url with
    | Some group => Some group
    | None =>
    match first_match (id_after "youtu.be/") url with
    | Some group => Some group
    | None => first_match (id_after "youtube.com/embed/") url
    end end.

(** *** Notions used to state and prove the properties *)

(** [p] occurs in [s] up to case. *)
Fixpoint includes_ci (s p : string) : bool :=
  match match_ci p s with
  | Some _ => true
  | None =>
      match s with
      | EmptyString => false
      | String _ s' => includes_ci s' p
      end
  end.

(** [p] occurs in [s] up to case, elsewhere than at its start. *)
Definition occurs_later (p s : string) : bool :=
  match s with
  | EmptyString => false
  | String _ s' => includes_ci s' p
  end.

(** The part [t] of a text that is known: it has a character that is not
    white space, and what [trimEnd] keeps of it occurs in [literal]
    nowhere but, at most, at its start. *)
Definition clear_of (literal t : string) : bool :=
  truthy_string (trimEnd t) && negb (occurs_later (trimEnd t) literal).

(** The loop of [cleanTitle] run on the known part alone, as long as every
    suffix tried is [clear_of] it. *)
Fixpoint remove_suffixes_tail (suffixes : list string) (t : string)
  : option string :=
  match suffixes with
  | [] => Some t
  | suffix :: rest =>
      if clear_of suffix t
      then remove_suffixes_tail rest (remove_at_end true suffix t)
      else None
  end.

(** The run of the loop on [dj ++ " " ++ dk], for the table entries [j] and
    [k]: when [j <= k] the whole table takes the outer decoration only;
    when [k < j] the entries up to [j] take both. *)
Definition check_pair (j k : nat) : bool :=
  match COMMON_SUFFIXES !! j, COMMON_SUFFIXES !! k with
  | Some dj, Some dk =>
      let t := dj +:+ " " +:+ dk in
      if (j <=? k)%nat then
        bool_decide (remove_suffixes_tail COMMON_SUFFIXES t = Some (dj +:+ " "))
      else
        bool_decide (remove_suffixes_tail (take (S j) COMMON_SUFFIXES) t
                     = Some ""%string)
  | _, _ => true
  end.

(** A character other than the two that open a query parameter. *)
Definition no_separator (c : ascii) : bool :=
  negb (Ascii.eqb c "?" || Ascii.eqb c "&").

(** A text at which a run of id characters stops: the empty one, or one
    that starts with another character. *)
Definition stops (rest : string) : bool :=
  match rest with
  | EmptyString => true
  | String c _ => negb (is_id_char c)
  end.

(** An id: a non-empty text of id characters. *)
Definition is_id (s : string) : bool := truthy_string s && all_chars is_id_char s.

(** The artist group and the song group of the first of the four patterns
    of [parseVideoTitle] that matches the cleaned title, in the order the
    source tries them: "Artist - Song", "Song by Artist", "Artist: Song",
    "Artist | Song". *)
Definition first_pattern (cleaned : string) : option (string * string) :=
  match separator_pattern "-" cleaned with
  | Some (g1, g2) => Some (g1, g2)
  | None =>
  match by_pattern cleaned with
  | Some (g1, g2) => Some (g2, g1)
  | None =>
  match separator_pattern ":" cleaned with
  | Some (g1, g2) => Some (g1, g2)
  | None => separator_pattern "|" cleaned
  end end end.

End TitleParser.

(** ** services/genre-audio-analyzer.service.js *)

Module GenreAudioAnalyzer.
Import JS.

Local Open Scope Q_scope.

(** An entry of the genre table, and the result of [analyzeGenres] and
    [inferFromNames]: the six audio dimensions. *)
Record Profile := profile {
  p_energy : Q;
  p_tempo : Q;
  p_danceability : Q;
  p_loudness : Q;
  p_valence : Q;
  p_acousticness : Q
}.

(** The object [inferAudioFeatures] returns.  [source] is absent on the
    path that goes through [inferFromNames]. *)
Record Features := {
  energy : Q;
  tempo : Q;
  danceability : Q;
  loudness : Q;
  valence : Q;
  acousticness : Q;
  confidence : Q;
  source : option string
}.

(** [buildGenreMap()], in the order [Object.entries] lists it. *)
Definition genreMap : list (string * Profile) :=
  [
    ("metal", profile 0.95 160 0.5 (-5) 0.5 0.1);
    ("heavy metal", profile 0.98 170 0.45 (-4) 0.4 0.05);
    ("death metal", profile 1.0 180 0.4 (-3) 0.3 0.02);
    ("punk", profile 0.9 170 0.6 (-5) 0.5 0.15);
    ("hardcore", profile 0.95 180 0.55 (-4) 0.4 0.1);
    ("rock", profile 0.75 130 0.55 (-6) 0.6 0.2);
    ("hard rock", profile 0.85 140 0.6 (-5) 0.55 0.15);
    ("alternative", profile 0.65 120 0.55 (-7) 0.5 0.25);
    ("electronic", profile 0.8 128 0.85 (-6) 0.7 0.05);
    ("techno", profile 0.85 130 0.9 (-5) 0.6 0.02);
    ("house", profile 0.8 125 0.9 (-6) 0.75 0.05);
    ("trance", profile 0.85 138 0.85 (-5) 0.7 0.03);
    ("dubstep", profile 0.9 140 0.8 (-4) 0.6 0.02);
    ("drum and bass", profile 0.92 170 0.85 (-5) 0.65 0.03);
    ("edm", profile 0.88 128 0.9 (-4) 0.8 0.02);
    ("dance", profile 0.8 125 0.92 (-6) 0.8 0.05);
    ("hip hop", profile 0.7 95 0.8 (-6) 0.6 0.1);
    ("rap", profile 0.7 95 0.75 (-6) 0.6 0.1);
    ("trap", profile 0.75 140 0.8 (-5) 0.55 0.05);
    ("pop", profile 0.65 118 0.7 (-6) 0.7 0.15);
    ("indie pop", profile 0.6 115 0.65 (-7) 0.65 0.3);
    ("synth pop", profile 0.7 120 0.75 (-6) 0.75 0.1);
    ("r&b", profile 0.55 90 0.65 (-8) 0.6 0.25);
    ("soul", profile 0.6 95 0.6 (-8) 0.65 0.4);
    ("funk", profile 0.75 110 0.85 (-7) 0.75 0.2);
    ("jazz", profile 0.45 105 0.5 (-12) 0.55 0.7);
    ("blues", profile 0.5 90 0.45 (-10) 0.4 0.6);
    ("classical", profile 0.4 100 0.2 (-15) 0.5 0.95);
    ("orchestral", profile 0.45 105 0.2 (-13) 0.55 0.95);
    ("country", profile 0.55 110 0.6 (-8) 0.65 0.6);
    ("folk", profile 0.45 100 0.45 (-10) 0.55 0.8);
    ("acoustic", profile 0.4 95 0.4 (-12) 0.6 0.9);
    ("ambient", profile 0.2 70 0.3 (-18) 0.5 0.4);
    ("chillout", profile 0.25 80 0.35 (-15) 0.6 0.35);
    ("downtempo", profile 0.3 85 0.4 (-14) 0.55 0.3);
    ("lounge", profile 0.35 90 0.45 (-13) 0.6 0.4);
    ("reggae", profile 0.55 80 0.75 (-8) 0.7 0.3);
    ("latin", profile 0.7 115 0.85 (-7) 0.75 0.25);
    ("salsa", profile 0.75 120 0.9 (-6) 0.8 0.3);
    ("indie", profile 0.55 110 0.55 (-8) 0.55 0.35);
    ("indie rock", profile 0.65 120 0.6 (-7) 0.6 0.25);
    ("experimental", profile 0.5 110 0.4 (-10) 0.45 0.3);
    ("noise", profile 0.85 120 0.3 (-4) 0.3 0.1)
  ].

(** [this.genreMap[key]] *)
Definition genreMap_get (key : string) : option Profile :=
  snd <$> List.find (fun kv => String.eqb kv.1 key) genreMap.

(** The profiles [analyzeGenres] collects: those whose key occurs in the
    lower-cased, space-joined tags. *)
Definition matchedFeatures (genres : list string) : list Profile :=
  let genreStr := toLowerCase (join " " genres) in
  map snd (List.filter (fun kv => includes genreStr kv.1) genreMap).

(** [avg.x += features.x] over the matched profiles, from 0. *)
Definition total (f : Profile -> Q) (matched : list Profile) : Q :=
  fold_left (fun acc features => acc + f features) matched 0.

(** [analyzeGenres(genres)].  The table has the key "pop", so the default
    of the first branch is never used. *)
Definition analyzeGenres (genres : list string) : Profile :=
  let matched := matchedFeatures genres in
  match matched with
  | [] => default (profile 0 0 0 0 0 0) (genreMap_get "pop")
  | _ =>
      let count := inject_Z (Z.of_nat (length matched)) in
      {| p_energy := total p_energy matched / count;
         p_tempo := inject_Z (Math_round (total p_tempo matched / count));
         p_danceability := total p_danceability matched / count;
         p_loudness := total p_loudness matched / count;
         p_valence := total p_valence matched / count;
         p_acousticness := total p_acousticness matched / count |}
  end.

(** Does [w] start [s]?  Gives what follows it. *)
Fixpoint word_at (w s : string) : option string :=
  match w, s with
  | EmptyString, _ => Some s
  | String a w', String b s' => if Ascii.eqb a b then word_at w' s' else None
  | String _ _, EmptyString => None
  end.

(** The closing [\b] after a word: the end of the text or a character that
    is not a word character. *)
Definition boundary_after (rest : string) : bool :=
  match rest with
  | EmptyString => true
  | String c _ => negb (is_word_char c)
  end.

Definition alternative_here (words : list string) (s : string) : bool :=
  existsb (fun w => match word_at w s with
                    | Some rest => boundary_after rest
                    | None => false
                    end) words.

(** A search for [/\b(w1|...|wn)\b/], every [wi] made of letters: a match
    starts where the previous character is no word character.
    [prev_is_word] tells whether the previous character is one. *)
Fixpoint search_from (prev_is_word : bool) (words : list string) (s : string)
  : bool :=
  (negb prev_is_word && alternative_here words s) ||
  match s with
  | EmptyString => false
  | String c s' => search_from (is_word_char c) words s'
  end.

(** [text.match(/\b(w1|...|wn)\b/)] as a condition. *)
Definition matches_words (words : list string) (text : string) : bool :=
  search_from false words text.

Definition set_energy (x : Q) (f : Features) : Features :=
  {| energy := x; tempo := tempo f; danceability := danceability f;
     loudness := loudness f; valence := valence f;
     acousticness := acousticness f; confidence := confidence f;
     source := source f |}.

Definition set_tempo (x : Q) (f : Features) : Features :=
  {| energy := energy f; tempo := x; danceability := danceability f;
     loudness := loudness f; valence := valence f;
     acousticness := acousticness f; confidence := confidence f;
     source := source f |}.

Definition set_loudness (x : Q) (f : Features) : Features :=
  {| energy := energy f; tempo := tempo f; danceability := danceability f;
     loudness := x; valence := valence f;
     acousticness := acousticness f; confidence := confidence f;
     source := source f |}.

Definition set_valence (x : Q) (f : Features) : Features :=
  {| energy := energy f; tempo := tempo f; danceability := danceability f;
     loudness := loudness f; valence := x;
     acousticness := acousticness f; confidence := confidence f;
     source := source f |}.

Definition set_acousticness (x : Q) (f : Features) : Features :=
  {| energy := energy f; tempo := tempo f; danceability := danceability f;
     loudness := loudness f; valence := valence f;
     acousticness := x; confidence := confidence f;
     source := source f |}.

Definition set_confidence (x : Q) (f : Features) : Features :=
  {| energy := energy f; tempo := tempo f; danceability := danceability f;
     loudness := loudness f; valence := valence f;
     acousticness := acousticness f; confidence := x;
     source := source f |}.

Definition energetic_words : list string :=
  ["rage"; "aggressive"; "intense"; "power"; "extreme"; "brutal"].
Definition chill_words : list string :=
  ["chill"; "calm"; "relax"; "peaceful"; "ambient"; "slow"; "soft"].
Definition happy_words : list string :=
  ["happy"; "joy"; "sunshine"; "bright"; "upbeat"; "party"].
Definition sad_words : list string :=
  ["sad"; "blue"; "tears"; "lonely"; "heartbreak"; "melancholy"].
Definition acoustic_words : list string :=
  ["acoustic"; "unplugged"; "stripped"; "piano"; "guitar"].

(** The five keyword blocks of [adjustForTitleKeywords], each as the
    assignments it makes, in order. *)
Definition energetic_step (features : Features) : Features :=
  let features := set_energy (Math_min 1.0 (energy features + 0.2)) features in
  set_loudness (Math_min (-5) (loudness features + 2)) features.

Definition chill_step (features : Features) : Features :=
  let features := set_energy (Math_max 0.1 (energy features - 0.2)) features in
  set_tempo (Math_max 60 (tempo features - 20)) features.

Definition happy_step (features : Features) : Features :=
  set_valence (Math_min 1.0 (valence features + 0.2)) features.

Definition sad_step (features : Features) : Features :=
  let features := set_valence (Math_max 0.1 (valence features - 0.3)) features in
  set_energy (Math_max 0.2 (energy features - 0.1)) features.

Definition acoustic_step (features : Features) : Features :=
  set_acousticness (Math_min 1.0 (acousticness features + 0.3)) features.

(** [if (cond) { step }] *)
Definition when (cond : bool) (step : Features -> Features)
    (features : Features) : Features :=
  if cond then step features else features.

(** [adjustForTitleKeywords(song, features)]; [!song] holds for [null],
    [undefined] and the empty string. *)
Definition adjustForTitleKeywords (song : option string) (features : Features)
  : Features :=
  match song with
  | None | Some EmptyString => features
  | Some song =>
      let title := toLowerCase song in
      let features := when (matches_words energetic_words title) energetic_step features in
      let features := when (matches_words chill_words title) chill_step features in
      let features := when (matches_words happy_words title) happy_step features in
      let features := when (matches_words sad_words title) sad_step features in
      when (matches_words acoustic_words title) acoustic_step features
  end.

(** A template literal prints [null] as the text "null". *)
Definition template_text (s : option string) : string := default "null" s.

Definition classical_words : list string :=
  ["symphony"; "concerto"; "sonata"; "mozart"; "beethoven"; "bach"].
Definition electronic_words : list string :=
  ["dj"; "remix"; "mix"; "dubstep"; "techno"; "edm"; "electronic"].

(** [inferFromNames(artist, song)] *)
Definition inferFromNames (artist song : option string) : Profile :=
  let combined :=
    toLowerCase (template_text artist +:+ " " +:+ template_text song) in
  if matches_words classical_words combined then
    profile 0.4 100 0.2 (-12) 0.5 0.95
  else if matches_words electronic_words combined then
    profile 0.8 128 0.85 (-6) 0.7 0.05
  else
    profile 0.5 120 0.5 (-10) 0.5 0.5.

(** [calculateConfidence(genres)] *)
Definition calculateConfidence (genres : list string) : Q :=
  if (length genres =? 0)%nat then 0.3
  else if (length genres =? 1)%nat then 0.6
  else if (3 <=? length genres)%nat then 0.8
  else 0.7.

(** [{ ...features, ...genreFeatures }]: the six dimensions come from the
    right operand, [confidence] and [source] stay.  The result is a new
    object: the assignments of [adjustForTitleKeywords] never reach the
    table entry that [analyzeGenres] may have handed out. *)
Definition spread (features : Features) (genreFeatures : Profile) : Features :=
  {| energy := p_energy genreFeatures; tempo := p_tempo genreFeatures;
     danceability := p_danceability genreFeatures;
     loudness := p_loudness genreFeatures; valence := p_valence genreFeatures;
     acousticness := p_acousticness genreFeatures;
     confidence := confidence features; source := source features |}.

(** [inferAudioFeatures({ artist, song, genres = [] })] *)
Definition inferAudioFeatures (artist song : option string)
    (genres : list string) : Features :=
  let features :=
    {| energy := 0.5; tempo := 120; danceability := 0.5; loudness := -10;
       valence := 0.5; acousticness := 0.5; confidence := 0.5;
       source := Some "genre-heuristic" |} in
  if (length genres =? 0)%nat then
    let names := inferFromNames artist song in
    {| energy := p_energy names; tempo := p_tempo names;
       danceability := p_danceability names; loudness := p_loudness names;
       valence := p_valence names; acousticness := p_acousticness names;
       confidence := 0.3; source := None |}
  else
    let genreFeatures := analyzeGenres genres in
    let features := spread features genreFeatures in
    let features := adjustForTitleKeywords song features in
    set_confidence (calculateConfidence genres) features.

(** *** Notions used to state and prove the properties *)

(** The bounds of a feature vector; [top] is the upper bound of the
    loudness. *)
Definition within (top : Q) (f : Features) : Prop :=
  (0 <= energy f <= 1) /\ (60 <= tempo f <= 200)
  /\ (0 <= danceability f <= 1) /\ (-30 <= loudness f <= top)
  /\ (0 <= valence f <= 1) /\ (0 <= acousticness f <= 1).

(** The same bounds on the six dimensions alone. *)
Definition profile_within (top : Q) (p : Profile) : Prop :=
  (0 <= p_energy p <= 1) /\ (60 <= p_tempo p <= 200)
  /\ (0 <= p_danceability p <= 1) /\ (-30 <= p_loudness p <= top)
  /\ (0 <= p_valence p <= 1) /\ (0 <= p_acousticness p <= 1).

(** Modelled on the specification's words, for comparison with
    [calculateConfidence]: the step function of the number of matched
    genre profiles. *)
Definition spec_confidence (matched : nat) : Q :=
  match matched with
  | 0%nat => 0.3
  | 1%nat => 0.6
  | 2%nat => 0.7
  | _ => 0.8
  end.

Definition size_of (l : list Profile) : Q := inject_Z (Z.of_nat (length l)).

(** The range of each dimension over the table, as a test. *)
Definition table_boundsb (p : Profile) : bool :=
  Qle_bool 0.2 (p_energy p) && Qle_bool (p_energy p) 1
  && Qle_bool 70 (p_tempo p) && Qle_bool (p_tempo p) 180
  && Qle_bool 0.2 (p_danceability p) && Qle_bool (p_danceability p) 0.92
  && Qle_bool (-18) (p_loudness p) && Qle_bool (p_loudness p) (-3)
  && Qle_bool 0.3 (p_valence p) && Qle_bool (p_valence p) 0.8
  && Qle_bool 0.02 (p_acousticness p) && Qle_bool (p_acousticness p) 0.95.

Definition table_bounds (p : Profile) : Prop :=
  (0.2 <= p_energy p <= 1) /\ (70 <= p_tempo p <= 180)
  /\ (0.2 <= p_danceability p <= 0.92) /\ (-18 <= p_loudness p <= -3)
  /\ (0.3 <= p_valence p <= 0.8) /\ (0.02 <= p_acousticness p <= 0.95).

(** The table splits into the three keys that end in "metal" and the
    rest; only "death metal" is louder than -4 dB, and its key contains
    the key "metal". *)
Definition metal_entries : list (string * Profile) :=
  Eval cbv in firstn 3 genreMap.
Definition other_entries : list (string * Profile) :=
  Eval cbv in skipn 3 genreMap.

End GenreAudioAnalyzer.

(** ** services/feels.calculator.js *)

Module FeelsCalculator.
Import JS.

Local Open Scope Q_scope.

(** The argument of [calculateFeelsScore]: any of the six properties may be
    missing ([undefined]), in which case the destructuring default applies. *)
Record AudioFeatures := {
  energy : option Q;
  tempo : option Q;
  danceability : option Q;
  loudness : option Q;
  valence : option Q;
  acousticness : option Q
}.

(** [calculateFeelsScore(audioFeatures)]; [None] is [null] or [undefined]. *)
Definition calculateFeelsScore (audioFeatures : option AudioFeatures) : Z :=
  match audioFeatures with
  | None => 50%Z
  | Some f =>
      let energy := default 0.5 (energy f) in
      let tempo := default 120 (tempo f) in
      let danceability := default 0.5 (danceability f) in
      let loudness := default (-10) (loudness f) in
      let valence := default 0.5 (valence f) in
      let acousticness := default 0.5 (acousticness f) in
      let normalizedEnergy := Math_max 0 (Math_min 1 energy) in
      let normalizedTempo := Math_max 0 (Math_min 1 (tempo / 200)) in
      let normalizedDanceability := Math_max 0 (Math_min 1 danceability) in
      let normalizedLoudness := Math_max 0 (Math_min 1 ((loudness + 30) / 25)) in
      let normalizedValence := Math_max 0 (Math_min 1 valence) in
      let normalizedAcousticness := Math_max 0 (Math_min 1 (1 - acousticness)) in
      let score :=
        (normalizedEnergy * 0.40 +
         normalizedTempo * 0.25 +
         normalizedDanceability * 0.15 +
         normalizedLoudness * 0.10 +
         normalizedValence * 0.05 +
         normalizedAcousticness * 0.05) * 100 in
      Math_round (Math_max 0 (Math_min 100 score))
  end.

Definition Qlt_bool (a b : Q) : bool := negb (Qle_bool b a).

(** [getMoodLabel(score)] *)
Definition getMoodLabel (score : Q) : string :=
  if Qlt_bool score 20 then "Very Chill"
  else if Qlt_bool score 40 then "Relaxed"
  else if Qlt_bool score 60 then "Moderate"
  else if Qlt_bool score 80 then "Energetic"
  else "Intense".

(** [getScoreColor(score)] *)
Definition getScoreColor (score : Q) : string :=
  if Qlt_bool score 20 then "#4A90E2"
  else if Qlt_bool score 40 then "#50C878"
  else if Qlt_bool score 60 then "#F5A623"
  else if Qlt_bool score 80 then "#F57C00"
  else "#E74C3C".

(** The [feelsScore] property of a video: a number, or one of the falsy
    values that are not numbers.  (A truthy value that is not a number
    would be coerced by the subtraction; videos do not carry one.) *)
Inductive ScoreField :=
  | SUndefined            (* the property is absent *)
  | SNull
  | SFalse
  | SNaN
  | SEmptyString
  | SNum (q : Q).

Record Video := {
  id : string;
  feelsScore : ScoreField
}.

(** [v.feelsScore || 50]: the left operand when it is truthy, else 50.
    Among numbers only 0 is falsy. *)
Definition score_or_50 (v : Video) : Q :=
  match feelsScore v with
  | SNum q => if Qeq_bool q 0 then 50 else q
  | _ => 50
  end.

(** The comparator handed to [sort]; [order] defaults to ['asc']. *)
Definition compare_videos (order : option string) (a b : Video) : Q :=
  let scoreA := score_or_50 a in
  let scoreB := score_or_50 b in
  if String.eqb (default "asc" order) "asc" then scoreA - scoreB
  else scoreB - scoreA.

(** [Array.prototype.sort(comparefn)] is a stable sort: an element moves
    behind another only when the comparator is positive on the pair. *)
Fixpoint insert_sorted {A : Type} (cmp : A -> A -> Q) (x : A) (l : list A)
  : list A :=
  match l with
  | [] => [x]
  | y :: l' =>
      if Qle_bool (cmp x y) 0 then x :: y :: l'
      else y :: insert_sorted cmp x l'
  end.

Definition Array_sort {A : Type} (cmp : A -> A -> Q) (l : list A) : list A :=
  foldr (insert_sorted cmp) [] l.

(** Arrays live in a store, so that a function can be seen to write, or not
    to write, into the array it was handed. *)
Abbreviation loc := positive.
Abbreviation heap := (gmap loc (list Video)).

Definition alloc (h : heap) (contents : list Video) : heap * loc :=
  let l := fresh (dom h) in (<[l := contents]> h, l).

(** [sortByFeelsScore(videos, order = 'asc')].  [videos] is a reference
    into the store, or [None] for [null]/[undefined].  The spread
    [[...videos]] allocates a copy, and [sort] works in place on the copy. *)
Definition sortByFeelsScore (h : heap) (videos : option loc)
    (order : option string) : heap * loc :=
  match videos ≫= (fun l => h !! l) with
  | None => alloc h []
  | Some [] => alloc h []
  | Some contents =>
      let '(h1, sorted) := alloc h contents in
      (alter (Array_sort (compare_videos order)) sorted h1, sorted)
  end.

Record Ranges := {
  chill : nat;
  relaxed : nat;
  moderate : nat;
  energetic : nat;
  intense : nat
}.

Record Distribution := {
  total : nat;
  average : Z;
  min : Q;
  max : Q;
  ranges : Ranges
}.

Definition sum_scores (scores : list Q) : Q :=
  fold_left (fun acc score => acc + score) scores 0.

(** [Math.min(...scores)] and [Math.max(...scores)] on a non-empty list
    (the empty case is cut off by the guard of the caller). *)
Definition min_of (scores : list Q) : Q :=
  match scores with
  | [] => 0
  | s :: rest => fold_left Math_min rest s
  end.

Definition max_of (scores : list Q) : Q :=
  match scores with
  | [] => 0
  | s :: rest => fold_left Math_max rest s
  end.

Definition count (p : Q -> bool) (scores : list Q) : nat :=
  length (List.filter p scores).

(** [getScoreDistribution(videos)] *)
Definition getScoreDistribution (videos : option (list Video)) : Distribution :=
  match videos with
  | None | Some [] =>
      {| total := 0; average := 0; min := 0; max := 0;
         ranges := {| chill := 0; relaxed := 0; moderate := 0;
                      energetic := 0; intense := 0 |} |}
  | Some vs =>
      let scores := map score_or_50 vs in
      let sum := sum_scores scores in
      {| total := length vs;
         average := Math_round (sum / inject_Z (Z.of_nat (length vs)));
         min := min_of scores;
         max := max_of scores;
         ranges :=
           {| chill := count (fun s => Qlt_bool s 20) scores;
              relaxed := count (fun s => Qle_bool 20 s && Qlt_bool s 40) scores;
              moderate := count (fun s => Qle_bool 40 s && Qlt_bool s 60) scores;
              energetic := count (fun s => Qle_bool 60 s && Qlt_bool s 80) scores;
              intense := count (fun s => Qle_bool 80 s) scores |} |}
  end.

(** [ToNumber] of a [feelsScore], as the subtraction applies it: [None] is
    [NaN]. *)
Definition to_number (s : ScoreField) : option Q :=
  match s with
  | SUndefined | SNaN => None
  | SNull | SFalse | SEmptyString => Some 0
  | SNum q => Some q
  end.

(** [Math.abs(v.feelsScore - targetScore)] *)
Definition distance_to (targetScore : Q) (v : Video) : option Q :=
  (fun q => Qabs (q - targetScore)) <$> to_number (feelsScore v).

(** [a < b] on numbers that may be [NaN]: false as soon as one is. *)
Definition less_than (a b : option Q) : bool :=
  match a, b with
  | Some x, Some y => Qlt_bool x y
  | _, _ => false
  end.

(** One turn of the loop of [findClosestVideo]: the pair is [closest] and
    [minDifference]. *)
Definition closer (targetScore : Q) (state : Video * option Q) (v : Video)
  : Video * option Q :=
  let difference := distance_to targetScore v in
  if less_than difference state.2 then (v, difference) else state.

(** [findClosestVideo(videos, targetScore)]; [None] is [null], returned for
    an absent or empty array. *)
Definition findClosestVideo (videos : option (list Video)) (targetScore : Q)
  : option Video :=
  match videos with
  | None | Some [] => None
  | Some (first :: rest) =>
      Some (fold_left (closer targetScore) rest
              (first, distance_to targetScore first)).1
  end.

(** *** Notions used to state and prove the properties *)

(** The contents of the array a call returned. *)
Definition result_of (r : heap * loc) : list Video := default [] (r.1 !! r.2).

(** The vector of the specification's maximum-intensity example. *)
Definition max_intensity : AudioFeatures :=
  {| energy := Some 1; tempo := Some 180; danceability := Some 1;
     loudness := Some (-5); valence := Some 1; acousticness := Some 0 |}.

Definition min_intensity : AudioFeatures :=
  {| energy := Some 0.1; tempo := Some 60; danceability := Some 0.2;
     loudness := Some (-25); valence := Some 0.2; acousticness := Some 0.9 |}.

Definition falsy (s : ScoreField) : bool :=
  match s with
  | SNum q => Qeq_bool q 0
  | _ => true
  end.

(** The same video with a falsy score replaced by the number 50. *)
Definition with_50 (v : Video) : Video :=
  if falsy (feelsScore v) then {| id := id v; feelsScore := SNum 50 |} else v.

(** [|score - target|] of a video whose score is a number. *)
Definition gap (targetScore : Q) (v : Video) : Q :=
  Qabs (default 0 (to_number (feelsScore v)) - targetScore).

(** What the loop holds once the videos [seen] have been gone through, all
    of them with a number for a score. *)
Definition closest_of (t : Q) (seen : list Video) (state : Video * option Q)
  : Prop :=
  exists i,
    seen !! i = Some state.1 /\ state.2 = Some (gap t state.1)
    /\ (forall j w, seen !! j = Some w -> gap t state.1 <= gap t w)
    /\ (forall j w, (j < i)%nat -> seen !! j = Some w -> gap t state.1 < gap t w).



(** [Math.max(lo, Math.min(hi, x))] *)
Definition clamp_to (lo hi x : Q) : Q := Math_max lo (Math_min hi x).

(** A feature vector with every dimension moved into the range the
    normalisation of [calculateFeelsScore] works on. *)
Definition in_range (f : AudioFeatures) : AudioFeatures :=
  {| energy := Some (clamp_to 0 1 (default 0.5 (energy f)));
     tempo := Some (clamp_to 0 200 (default 120 (tempo f)));
     danceability := Some (clamp_to 0 1 (default 0.5 (danceability f)));
     loudness := Some (clamp_to (-30) (-5) (default (-10) (loudness f)));
     valence := Some (clamp_to 0 1 (default 0.5 (valence f)));
     acousticness := Some (clamp_to 0 1 (default 0.5 (acousticness f))) |}.

(** [f] is at most as intense as [g] in every dimension. *)
Definition calmer (f g : AudioFeatures) : Prop :=
  default 0.5 (energy f) <= default 0.5 (energy g)
  /\ default 120 (tempo f) <= default 120 (tempo g)
  /\ default 0.5 (danceability f) <= default 0.5 (danceability g)
  /\ default (-10) (loudness f) <= default (-10) (loudness g)
  /\ default 0.5 (valence f) <= default 0.5 (valence g)
  /\ default 0.5 (acousticness g) <= default 0.5 (acousticness f).

End FeelsCalculator.

(** ** frontend/src/hooks/useFeelsSelection.js *)

Module FeelsSelection.
Import FeelsCalculator.

(** The [findClosestVideo] of the hook: as the one of the calculator, but
    the loop goes over all the videos, the first one included. *)
Definition findClosestVideo (videos : option (list Video)) (targetScore : Q)
  : option Video :=
  match videos with
  | None | Some [] => None
  | Some (first :: rest) =>
      Some (fold_left (closer targetScore) (first :: rest)
              (first, distance_to targetScore first)).1
  end.

End FeelsSelection.

(** ** services/feels.calculator.js on binary64 numbers *)

Module FeelsCalculator64.

#[local] Set Warnings "-inexact-float".
Local Open Scope float_scope.

(** [Math.min] and [Math.max] on two numbers, neither of them [NaN]. *)
Definition Math_min64 (a b : float) : float := if PrimFloat.ltb b a then b else a.
Definition Math_max64 (a b : float) : float := if PrimFloat.ltb a b then b else a.

(** The rational a finite double stands for. *)
Definition exact (x : float) : Q :=
  match Prim2SF x with
  | SpecFloat.S754_finite s m e =>
      let v := (inject_Z (Zpos m) * Qpower 2 e)%Q in
      if s then Qopp v else v
  | _ => 0%Q
  end.

(** [Math.round] of a finite double: the nearest integer of the number it
    stands for, halves rounded up. *)
Definition Math_round64 (x : float) : Z := JS.Math_round (exact x).

Record AudioFeatures64 := {
  energy : float;
  tempo : float;
  danceability : float;
  loudness : float;
  valence : float;
  acousticness : float
}.

(** [calculateFeelsScore(audioFeatures)] on an object that has the six
    properties, operation by operation in binary64 (the names carry a 64
    to tell them from the exact ones). *)
Definition calculateFeelsScore64 (f : AudioFeatures64) : Z :=
  let normalizedEnergy := Math_max64 0 (Math_min64 1 (energy f)) in
  let normalizedTempo := Math_max64 0 (Math_min64 1 (tempo f / 200)) in
  let normalizedDanceability := Math_max64 0 (Math_min64 1 (danceability f)) in
  let normalizedLoudness := Math_max64 0 (Math_min64 1 ((loudness f + 30) / 25)) in
  let normalizedValence := Math_max64 0 (Math_min64 1 (valence f)) in
  let normalizedAcousticness := Math_max64 0 (Math_min64 1 (1 - acousticness f)) in
  let score :=
    (normalizedEnergy * 0.40 +
     normalizedTempo * 0.25 +
     normalizedDanceability * 0.15 +
     normalizedLoudness * 0.10 +
     normalizedValence * 0.05 +
     normalizedAcousticness * 0.05) * 100 in
  Math_round64 (Math_max64 0 (Math_min64 100 score)).

Definition max_intensity64 : AudioFeatures64 :=
  {| energy := 1; tempo := 180; danceability := 1; loudness := -5;
     valence := 1; acousticness := 0 |}.

End FeelsCalculator64.

(** ** services/cache.service.js *)

Module CacheService.

(** A cached payload: any JavaScript value. *)
#[warnings="-register-all"]
Inductive Value :=
  | VUndefined
  | VNull
  | VBool (b : bool)
  | VNum (q : Q)
  | VStr (s : string)
  | VArr (items : list Value)
  | VObj (fields : list (string * Value)).

(** Truthiness: [undefined], [null], [false], [0] and [''] are falsy;
    arrays and objects, empty ones too, are truthy. *)
Definition truthy (v : Value) : bool :=
  match v with
  | VUndefined | VNull => false
  | VBool b => b
  | VNum q => negb (Qeq_bool q 0)
  | VStr s => JS.truthy_string s
  | VArr _ | VObj _ => true
  end.

(** [a || b] *)
Definition or_else (a b : Value) : Value := if truthy a then a else b.

(** The Redis client is a collaborator; of each call only the outcome
    matters: [None] when the call throws, else the reply. *)
Record RedisClient := {
  redis_get : string -> option (option string);
  redis_exists : string -> option Z;
  redis_mGet : list string -> option (list (option string))
}.

(** The fields of the [CacheService] instance.  [ttlMap] holds the expiry
    instant of each key, in milliseconds. *)
Record State := {
  client : option RedisClient;
  isRedisAvailable : bool;
  memoryCache : gmap string Value;
  ttlMap : gmap string Z
}.

(** The constructor. *)
Definition new : State :=
  {| client := None; isRedisAvailable := false;
     memoryCache := ∅; ttlMap := ∅ |}.

(** [this.isRedisAvailable && this.client] *)
Definition uses_redis (st : State) : option RedisClient :=
  if isRedisAvailable st then client st else None.

Definition delete_key (key : string) (st : State) : State :=
  {| client := client st; isRedisAvailable := isRedisAvailable st;
     memoryCache := delete key (memoryCache st);
     ttlMap := delete key (ttlMap st) |}.

(** [now > expiry] *)
Definition past (now expiry : Z) : bool := (expiry <? now)%Z.

(** [getFromMemory(key)].  [ttlEntry && Date.now() > ttlEntry]: an absent
    entry is [undefined], and the number 0 is falsy as well. *)
Definition getFromMemory (now : Z) (key : string) (st : State) : State * Value :=
  match ttlMap st !! key with
  | Some ttlEntry =>
      if negb (ttlEntry =? 0)%Z && past now ttlEntry
      then (delete_key key st, VNull)
      else (st, or_else (default VUndefined (memoryCache st !! key)) VNull)
  | None => (st, or_else (default VUndefined (memoryCache st !! key)) VNull)
  end.

(** [setInMemory(key, value, ttlSeconds)] *)
Definition setInMemory (now : Z) (key : string) (value : Value) (ttlSeconds : Z)
    (st : State) : State * bool :=
  ({| client := client st; isRedisAvailable := isRedisAvailable st;
      memoryCache := <[key := value]> (memoryCache st);
      ttlMap := <[key := (now + ttlSeconds * 1000)%Z]> (ttlMap st) |}, true).

(** [keys.map(key => this.getFromMemory(key))], left to right. *)
Fixpoint mgetFromMemory (now : Z) (keys : list string) (st : State)
  : State * list Value :=
  match keys with
  | [] => (st, [])
  | key :: rest =>
      let '(st1, v) := getFromMemory now key st in
      let '(st2, vs) := mgetFromMemory now rest st1 in
      (st2, v :: vs)
  end.

(** The interval callback of [startMemoryCacheTTLCleanup]: every key whose
    expiry is past leaves both maps. *)
Definition sweep (now : Z) (st : State) : State :=
  {| client := client st; isRedisAvailable := isRedisAvailable st;
     memoryCache :=
       filter (fun kv => (past now <$> ttlMap st !! kv.1) <> Some true)
              (memoryCache st);
     ttlMap := filter (fun kv => past now kv.2 = false) (ttlMap st) |}.

Section WithJSON.

(** [JSON.parse]; [None] when it throws. *)
Variable JSON_parse : string -> option Value.

(** [value ? JSON.parse(value) : null], [None] when the parse throws. *)
Definition parse_reply (reply : option string) : option Value :=
  match reply with
  | Some value => if JS.truthy_string value then JSON_parse value else Some VNull
  | None => Some VNull
  end.

(** [get(key)] *)
Definition get (now : Z) (key : string) (st : State) : State * Value :=
  match uses_redis st with
  | Some c =>
      match redis_get c key ≫= parse_reply with
      | Some v => (st, v)
      | None => getFromMemory now key st
      end
  | None => getFromMemory now key st
  end.

(** [exists(key)] *)
Definition exists_ (key : string) (st : State) : bool :=
  match uses_redis st with
  | Some c =>
      match redis_exists c key with
      | Some n => (n =? 1)%Z
      | None => bool_decide (is_Some (memoryCache st !! key))
      end
  | None => bool_decide (is_Some (memoryCache st !! key))
  end.

(** [mget(keys)] *)
Definition mget (now : Z) (keys : list string) (st : State) : State * list Value :=
  match uses_redis st with
  | Some c =>
      match redis_mGet c keys ≫= (fun values => mapM parse_reply values) with
      | Some vs => (st, vs)
      | None => mgetFromMemory now keys st
      end
  | None => mgetFromMemory now keys st
  end.

(** [set(key, value, ttlSeconds = null)] in memory mode; [default_ttl] is
    [parseInt(process.env.CACHE_TTL || '2592000')]. *)
Definition set_memory (default_ttl : Z) (now : Z) (key : string) (value : Value)
    (ttlSeconds : option Z) (st : State) : State * bool :=
  let ttl := match ttlSeconds with
             | Some t => if (t =? 0)%Z then default_ttl else t
             | None => default_ttl
             end in
  setInMemory now key value ttl st.

End WithJSON.

(** [del(key)]: the reply of the Redis call is dropped and its error
    swallowed; both maps lose the key in every mode. *)
Definition del (key : string) (st : State) : State := delete_key key st.

(** [clear()]: likewise, both maps are emptied in every mode. *)
Definition clear (st : State) : State :=
  {| client := client st; isRedisAvailable := isRedisAvailable st;
     memoryCache := ∅; ttlMap := ∅ |}.

(** [mset(keyValuePairs, ttlSeconds = null)] in memory mode.  Each turn of
    the loop over [Object.entries(keyValuePairs)] reads the clock afresh:
    a turn is the instant read and the entry. *)
Definition mset_memory (default_ttl : Z) (turns : list (Z * (string * Value)))
    (ttlSeconds : option Z) (st : State) : State * bool :=
  let ttl := match ttlSeconds with
             | Some t => if (t =? 0)%Z then default_ttl else t
             | None => default_ttl
             end in
  (fold_left (fun st turn => (setInMemory turn.1 turn.2.1 turn.2.2 ttl st).1)
             turns st, true).

(** *** Notions used to state and prove the properties *)

(** A key no read can see at instant [now]: its expiry is recorded and
    past, or the value map has nothing under it. *)
Definition hidden (now : Z) (key : string) (st : State) : Prop :=
  (exists e, ttlMap st !! key = Some e /\ e <> 0%Z /\ (e < now)%Z)
  \/ memoryCache st !! key = None.

(** The store after [set('k', 'v', 1)] at instant 0 on a fresh service. *)
Definition one_second_entry : State :=
  (set_memory 2592000 0 "k" (VStr "v") (Some 1%Z) new).1.


(** The TTL [set] and [mset] end up with: [ttlSeconds || default]. *)
Definition effective_ttl (default_ttl : Z) (ttlSeconds : option Z) : Z :=
  match ttlSeconds with
  | Some t => if (t =? 0)%Z then default_ttl else t
  | None => default_ttl
  end.

(** The calls a client makes to a service that was never connected to
    Redis, and the interval callback. *)
Inductive Call :=
  | Get (now : Z) (key : string)
  | Set_ (now : Z) (key : string) (value : Value) (ttlSeconds : option Z)
  | Del (key : string)
  | Exists (key : string)
  | Mget (now : Z) (keys : list string)
  | Mset (turns : list (Z * (string * Value))) (ttlSeconds : option Z)
  | Clear
  | Sweep (now : Z).

Definition call (JSON_parse : string -> option Value) (default_ttl : Z)
    (c : Call) (st : State) : State :=
  match c with
  | Get now key => (get JSON_parse now key st).1
  | Set_ now key value ttlSeconds =>
      (set_memory default_ttl now key value ttlSeconds st).1
  | Del key => del key st
  | Exists key => st
  | Mget now keys => (mget JSON_parse now keys st).1
  | Mset turns ttlSeconds => (mset_memory default_ttl turns ttlSeconds st).1
  | Clear => clear st
  | Sweep now => sweep now st
  end.

Definition run (JSON_parse : string -> option Value) (default_ttl : Z)
    (calls : list Call) (st : State) : State :=
  fold_left (fun st c => call JSON_parse default_ttl c st) calls st.

(** The two maps of the memory cache hold the same keys. *)
Definition in_sync (st : State) : Prop :=
  forall key, is_Some (memoryCache st !! key) <-> is_Some (ttlMap st !! key).

End CacheService.

(** ** services/music-analysis.service.js *)

Module MusicAnalysis.
Import JS CacheService.

Local Open Scope Q_scope.

(** What [musicBrainzService.searchRecording] resolves to when it is not
    [null]: the fields the analysis reads ([recording.id],
    [recording.title], ...). *)
Record Recording := {
  rec_id : string;
  rec_title : string;
  rec_artist : string;
  rec_length : option Q;
  rec_genres : list string
}.

(** The object [searchAndAnalyzeTrack] returns; its [id] is [track_id]
    here. *)
Record Track := {
  track_id : string;
  name : string;
  artist : string;
  duration_ms : option Q;
  genres : list string;
  audioFeatures : GenreAudioAnalyzer.Features;
  feelsScore : Z;
  mood : string;
  color : string;
  matchConfidence : Q;
  source : string;
  genreConfidence : Q
}.

(** The YouTube video handed to [matchVideo]; an absent [title] or
    [channelTitle] is the empty string. *)
Record Video := {
  id : string;
  title : string;
  channelTitle : string
}.

(** The destructuring of [calculateFeelsScore] applied to the object
    [inferAudioFeatures] returns: the six dimensions are there. *)
Definition destructured (f : GenreAudioAnalyzer.Features)
  : FeelsCalculator.AudioFeatures :=
  {| FeelsCalculator.energy := Some (GenreAudioAnalyzer.energy f);
     FeelsCalculator.tempo := Some (GenreAudioAnalyzer.tempo f);
     FeelsCalculator.danceability := Some (GenreAudioAnalyzer.danceability f);
     FeelsCalculator.loudness := Some (GenreAudioAnalyzer.loudness f);
     FeelsCalculator.valence := Some (GenreAudioAnalyzer.valence f);
     FeelsCalculator.acousticness := Some (GenreAudioAnalyzer.acousticness f) |}.

(** Truthiness of a string that may be [null]. *)
Definition truthy_opt (s : option string) : bool :=
  match s with
  | Some s => truthy_string s
  | None => false
  end.

(** The own enumerable properties an object spread copies. *)
Definition own_properties (v : Value) : list (string * Value) :=
  match v with
  | VObj fields => fields
  | VArr items => imap (fun i item => (pretty i, item)) items
  | VStr s =>
      imap (fun i c => (pretty i, VStr (String c EmptyString)))
           (String.list_ascii_of_string s)
  | _ => []
  end.

(** [{ ...v, key: x }] *)
Definition spread_with (v : Value) (key : string) (x : Value) : Value :=
  let properties := own_properties v in
  if existsb (fun p => String.eqb p.1 key) properties
  then VObj (map (fun p => if String.eqb p.1 key then (p.1, x) else p)
                 properties)
  else VObj (properties ++ [(key, x)])%list.

Definition null_or_string (s : option string) : Value :=
  match s with
  | Some s => VStr s
  | None => VNull
  end.

(** The object [inferAudioFeatures] returns, as a payload. *)
Definition features_object (f : GenreAudioAnalyzer.Features) : Value :=
  VObj ([ ("energy", VNum (GenreAudioAnalyzer.energy f));
          ("tempo", VNum (GenreAudioAnalyzer.tempo f));
          ("danceability", VNum (GenreAudioAnalyzer.danceability f));
          ("loudness", VNum (GenreAudioAnalyzer.loudness f));
          ("valence", VNum (GenreAudioAnalyzer.valence f));
          ("acousticness", VNum (GenreAudioAnalyzer.acousticness f));
          ("confidence", VNum (GenreAudioAnalyzer.confidence f)) ]
        ++ match GenreAudioAnalyzer.source f with
           | Some s => [("source", VStr s)]
           | None => []
           end)%list.

(** [{ artist: parsed.artist, song: parsed.song }] *)
Definition parsed_object (parsed : TitleParser.Parsed) : Value :=
  VObj [ ("artist", null_or_string (TitleParser.artist parsed));
         ("song", null_or_string (TitleParser.song parsed)) ].

Section WithCollaborators.

(** [JSON.parse], and [parseInt(process.env.CACHE_TTL || '2592000')]. *)
Variable JSON_parse : string -> option Value.
Variable default_ttl : Z.

(** [musicBrainzService.searchRecording(artist, song)]: a collaborator that
    goes to the network and to the cache; [None] is [null]. *)
Variable searchRecording : string -> string -> State -> State * option Recording.

(** [searchAndAnalyzeTrack(artist, song)]; a search that throws is a
    search that found nothing. *)
Definition searchAndAnalyzeTrack (artist song : option string) (st : State)
  : State * option Track :=
  if negb (truthy_opt artist) || negb (truthy_opt song) then (st, None)
  else
    let artist := default EmptyString artist in
    let song := default EmptyString song in
    match searchRecording artist song st with
    | (st, None) => (st, None)
    | (st, Some recording) =>
        let audioFeatures :=
          GenreAudioAnalyzer.inferAudioFeatures
            (Some (rec_artist recording)) (Some (rec_title recording))
            (rec_genres recording) in
        let feelsScore :=
          FeelsCalculator.calculateFeelsScore (Some (destructured audioFeatures)) in
        let mood := FeelsCalculator.getMoodLabel (inject_Z feelsScore) in
        let color := FeelsCalculator.getScoreColor (inject_Z feelsScore) in
        let matchConfidence :=
          StringMatcher.calculateMatchScore
            {| StringMatcher.artist := artist; StringMatcher.song := song |}
            {| StringMatcher.artist := rec_artist recording;
               StringMatcher.song := rec_title recording |} in
        (st, Some {| track_id := rec_id recording;
                     name := rec_title recording;
                     artist := rec_artist recording;
                     duration_ms := rec_length recording;
                     genres := rec_genres recording;
                     audioFeatures := audioFeatures;
                     feelsScore := feelsScore;
                     mood := mood;
                     color := color;
                     matchConfidence := matchConfidence;
                     source := "musicbrainz+genre";
                     genreConfidence := GenreAudioAnalyzer.confidence audioFeatures |})
    end.

(** The three objects [matchVideo] builds. *)
Definition unparsed_result (video : Video) (parsed : TitleParser.Parsed) : Value :=
  VObj [ ("matched", VBool false);
         ("videoId", VStr (id video));
         ("parseConfidence", VNum (TitleParser.confidence parsed));
         ("reason", VStr "Failed to parse video title");
         ("cached", VBool false) ].

Definition unmatched_result (video : Video) (parsed : TitleParser.Parsed) : Value :=
  VObj [ ("matched", VBool false);
         ("videoId", VStr (id video));
         ("parseConfidence", VNum (TitleParser.confidence parsed));
         ("parsed", parsed_object parsed);
         ("reason", VStr "No MusicBrainz match found") ].

Definition matched_result (video : Video) (parsed : TitleParser.Parsed)
    (track : Track) : Value :=
  VObj [ ("matched", VBool true);
         ("videoId", VStr (id video));
         ("parseConfidence", VNum (TitleParser.confidence parsed));
         ("parsed", parsed_object parsed);
         ("spotifyMatch",
           VObj [ ("trackId", VStr (track_id track));
                  ("name", VStr (name track));
                  ("artists", VArr [VStr (artist track)]);
                  ("confidence", VNum (matchConfidence track)) ]);
         ("audioFeatures", features_object (audioFeatures track));
         ("feelsScore", VNum (inject_Z (feelsScore track)));
         ("mood", VStr (mood track));
         ("color", VStr (color track));
         ("genreConfidence", VNum (genreConfidence track));
         ("analysisSource", VStr (source track)) ].

(** [matchVideo(video)], the cache being in memory mode.  The clock is read
    by the cache, once for the look-up ([now_get]) and once for the write
    ([now_set]). *)
Definition matchVideo (now_get now_set : Z) (video : Video) (st : State)
  : State * Value :=
  let cacheKey := "music:match:" +:+ id video in
  let '(st, cached) := get JSON_parse now_get cacheKey st in
  if truthy cached then (st, spread_with cached "cached" (VBool true))
  else
    let parsed := TitleParser.parseVideoTitle (title video) (channelTitle video) in
    if negb (truthy_opt (TitleParser.artist parsed))
       && negb (truthy_opt (TitleParser.song parsed))
    then (st, unparsed_result video parsed)
    else
      match searchAndAnalyzeTrack (TitleParser.artist parsed)
                                  (TitleParser.song parsed) st with
      | (st, None) =>
          let result := unmatched_result video parsed in
          let st := (set_memory default_ttl now_set cacheKey result
                                (Some 86400%Z) st).1 in
          (st, spread_with result "cached" (VBool false))
      | (st, Some track) =>
          let result := matched_result video parsed track in
          let st := (set_memory default_ttl now_set cacheKey result
                                (Some 2592000%Z) st).1 in
          (st, spread_with result "cached" (VBool false))
      end.

End WithCollaborators.

(** *** Notions used to state and prove the properties *)

(** The [matched] property of a result. *)
Definition is_matched (result : Value) : bool :=
  match List.find (fun p => String.eqb p.1 "matched") (own_properties result) with
  | Some (_, VBool b) => b
  | _ => false
  end.

(** How long [matchVideo] keeps a result it has cached, in seconds: thirty
    days for a match, one day for a failure. *)
Definition kept_for (result : Value) : Z :=
  if is_matched result then 2592000%Z else 86400%Z.

(** A search that finds nothing and leaves the cache alone. *)
Definition finds_nothing (artist song : string) (st : State)
  : State * option Recording := (st, None).

(** A search that finds one recording and leaves the cache alone. *)
Definition finds_one (artist song : string) (st : State)
  : State * option Recording :=
  (st, Some {| rec_id := "r1"; rec_title := "Never Gonna Give You Up";
               rec_artist := "Rick Astley"; rec_length := Some 213000;
               rec_genres := ["pop"; "dance"] |}).

Definition rick : Video :=
  {| id := "dQw4w9WgXcQ";
     title := "Rick Astley - Never Gonna Give You Up (Official Video)";
     channelTitle := "Rick Astley" |}.

End MusicAnalysis.

(** * Properties *)

(** ** Facts about the string primitives *)

Module JSFacts.
Import JS.

Lemma append_cons c (a b : string) : String c a +:+ b = String c (a +:+ b).
Proof. reflexivity. Qed.

Lemma append_nil (b : string) : "" +:+ b = b.
Proof. reflexivity. Qed.

Lemma app_assoc_string (a b c : string) : (a +:+ b) +:+ c = a +:+ (b +:+ c).
Proof.
  induction a as [| x a IH]; [reflexivity |].
  now rewrite !append_cons, IH.
Qed.

Lemma starts_with_app p : forall s, starts_with p s = true -> exists b, s = p +:+ b.
Proof.
  induction p as [| a p IH]; intros s H; [now exists s |].
  destruct s as [| c s]; [discriminate |].
  cbn [starts_with] in H.
  apply andb_true_iff in H as [Hc Hs].
  apply Ascii.eqb_eq in Hc as ->.
  destruct (IH s Hs) as [b ->]. now exists b.
Qed.

Lemma starts_with_refl_app p b : starts_with p (p +:+ b) = true.
Proof.
  induction p as [| a p IH]; [reflexivity |].
  rewrite append_cons. cbn [starts_with]. now rewrite Ascii.eqb_refl, IH.
Qed.

Lemma includes_here s p : starts_with p s = true -> includes s p = true.
Proof. intros H. destruct s; cbn [includes]; now rewrite H. Qed.

Lemma includes_split s p :
  includes s p = true <-> exists a b, s = a +:+ p +:+ b.
Proof.
  split.
  - induction s as [| c s IH]; cbn [includes]; intros H.
    + rewrite orb_false_r in H.
      destruct (starts_with_app _ _ H) as [b Hb]. now exists "", b.
    + apply orb_true_iff in H as [H | H].
      * destruct (starts_with_app _ _ H) as [b Hb]. now exists "", b.
      * destruct (IH H) as (a & b & ->). now exists (String c a), b.
  - intros (a & b & ->). induction a as [| c a IH].
    + rewrite append_nil. apply includes_here, starts_with_refl_app.
    + rewrite append_cons. cbn [includes]. rewrite IH. apply orb_true_r.
Qed.

Lemma includes_trans s p q :
  includes s p = true -> includes p q = true -> includes s q = true.
Proof.
  intros Hp Hq.
  apply includes_split in Hp as (a & b & ->).
  apply includes_split in Hq as (a' & b' & ->).
  apply includes_split. exists (a +:+ a'), (b' +:+ b).
  now rewrite !app_assoc_string.
Qed.

Lemma append_nil_r (a : string) : a +:+ "" = a.
Proof.
  induction a as [| c a IH]; [reflexivity |]. now rewrite append_cons, IH.
Qed.

Lemma toLowerCase_app (a b : string) :
  toLowerCase (a +:+ b) = toLowerCase a +:+ toLowerCase b.
Proof.
  induction a as [| c a IH]; [reflexivity |].
  rewrite append_cons. cbn [toLowerCase]. now rewrite IH.
Qed.

Lemma trimEnd_spaces w : all_space w = true -> trimEnd w = "".
Proof.
  induction w as [| c w IH]; cbn [all_space trimEnd]; [reflexivity |].
  intros H. apply andb_true_iff in H as [Hc Hw]. now rewrite (IH Hw), Hc.
Qed.

Lemma trimEnd_app_spaces a w :
  all_space w = true -> trimEnd (a +:+ w) = trimEnd a.
Proof.
  intros Hw. induction a as [| c a IH].
  - rewrite append_nil. now apply trimEnd_spaces.
  - rewrite append_cons. cbn [trimEnd]. now rewrite IH.
Qed.

Lemma trimEnd_app_core x a :
  trimEnd a <> "" -> trimEnd (x +:+ a) = x +:+ trimEnd a.
Proof.
  intros Ha. induction x as [| c x IH]; [reflexivity |].
  rewrite !append_cons. cbn [trimEnd]. rewrite IH.
  destruct (x +:+ trimEnd a) eqn:E; [| reflexivity].
  destruct x; [| discriminate E]. now rewrite append_nil in E.
Qed.

(** A string is what [trimEnd] keeps of it, then white space. *)
Lemma trimEnd_split a : exists w, all_space w = true /\ a = trimEnd a +:+ w.
Proof.
  induction a as [| c a (w & Hw & IH)]; [now exists "" |].
  cbn [trimEnd]. destruct (trimEnd a) as [| c' r] eqn:E.
  - rewrite append_nil in IH. subst a.
    destruct (is_space c) eqn:Ec.
    + exists (String c w). cbn [all_space]. now rewrite Ec, Hw.
    + exists w. now rewrite append_cons, append_nil.
  - exists w. split; [exact Hw |]. rewrite append_cons. now rewrite <- IH.
Qed.

(** *** Case mapping *)

Lemma lower_char_idem c : lower_char (lower_char c) = lower_char c.
Proof. destruct c as [[] [] [] [] [] [] [] []]; reflexivity. Qed.

Lemma is_space_lower c : is_space (lower_char c) = is_space c.
Proof. destruct c as [[] [] [] [] [] [] [] []]; reflexivity. Qed.

Lemma is_word_char_lower c : is_word_char (lower_char c) = is_word_char c.
Proof. destruct c as [[] [] [] [] [] [] [] []]; reflexivity. Qed.

Lemma is_lower_lower_char c : is_lower (lower_char c) = true.
Proof. unfold is_lower. rewrite lower_char_idem. apply Ascii.eqb_refl. Qed.

Lemma all_chars_toLowerCase s : all_chars is_lower (toLowerCase s) = true.
Proof.
  induction s as [| c s IH]; [reflexivity |].
  cbn [toLowerCase all_chars]. now rewrite is_lower_lower_char, IH.
Qed.

Lemma toLowerCase_fixed s : all_chars is_lower s = true -> toLowerCase s = s.
Proof.
  induction s as [| c s IH]; [reflexivity |].
  cbn [all_chars toLowerCase]. intros H.
  apply andb_true_iff in H as [Hc Hs].
  apply Ascii.eqb_eq in Hc. now rewrite Hc, IH.
Qed.

Lemma toLowerCase_idem s : toLowerCase (toLowerCase s) = toLowerCase s.
Proof. apply toLowerCase_fixed, all_chars_toLowerCase. Qed.

Lemma toLowerCase_empty s : toLowerCase s = "" <-> s = "".
Proof. destruct s; cbn; split; intros H; congruence. Qed.

Lemma all_chars_weaken (P R : ascii -> bool) s :
  (forall c, P c = true -> R c = true) ->
  all_chars P s = true -> all_chars R s = true.
Proof.
  intros HPR. induction s as [| c s IH]; [reflexivity |].
  cbn [all_chars]. intros H. apply andb_true_iff in H as [Hc Hs].
  now rewrite (HPR _ Hc), IH.
Qed.

(** *** Trimming *)

Lemma trimEnd_cons_empty c s :
  trimEnd s = "" -> trimEnd (String c s) = if is_space c then "" else String c "".
Proof. intros H. cbn [trimEnd]. now rewrite H. Qed.

Lemma trimEnd_cons_nonempty c s :
  trimEnd s <> "" -> trimEnd (String c s) = String c (trimEnd s).
Proof. intros H. cbn [trimEnd]. now destruct (trimEnd s). Qed.

Lemma trimEnd_single c : is_space c = false -> trimEnd (String c "") = String c "".
Proof. intros H. cbn. now rewrite H. Qed.

(** A string that [trimEnd] leaves as it is has one character that is not
    white space, or a tail that [trimEnd] leaves as it is. *)
Lemma trimEnd_fixed_inv c s :
  trimEnd (String c s) = String c s ->
  (s = "" /\ is_space c = false) \/ (s <> "" /\ trimEnd s = s).
Proof.
  destruct (decide (trimEnd s = "")) as [E | E].
  - rewrite (trimEnd_cons_empty _ _ E).
    destruct (is_space c); [discriminate |].
    intros H. injection H as <-. now left.
  - rewrite (trimEnd_cons_nonempty _ _ E). intros H. injection H as H.
    right. split; [| exact H]. intros ->. now apply E.
Qed.

Lemma trimEnd_idem s : trimEnd (trimEnd s) = trimEnd s.
Proof.
  induction s as [| c s IH]; [reflexivity |].
  destruct (decide (trimEnd s = "")) as [E | E].
  - rewrite (trimEnd_cons_empty _ _ E).
    destruct (is_space c) eqn:Hc; [reflexivity | now apply trimEnd_single].
  - rewrite (trimEnd_cons_nonempty _ _ E).
    rewrite trimEnd_cons_nonempty by now rewrite IH.
    now rewrite IH.
Qed.

Lemma trimStart_idem s : trimStart (trimStart s) = trimStart s.
Proof.
  induction s as [| c s IH]; [reflexivity |].
  cbn [trimStart]. destruct (is_space c) eqn:Hc; [exact IH |].
  cbn [trimStart]. now rewrite Hc.
Qed.

(** What [trimStart] returns is empty or starts with a character that is
    not white space. *)
Lemma trimStart_head s :
  trimStart s = "" \/ exists c r, trimStart s = String c r /\ is_space c = false.
Proof.
  induction s as [| c s IH]; [now left |].
  cbn [trimStart]. destruct (is_space c) eqn:Hc; [exact IH |].
  right. now exists c, s.
Qed.

Lemma trimStart_fixed c r : is_space c = false -> trimStart (String c r) = String c r.
Proof. intros H. cbn [trimStart]. now rewrite H. Qed.

Lemma trimEnd_trimStart w : trimEnd w = w -> trimEnd (trimStart w) = trimStart w.
Proof.
  induction w as [| c w IH]; [reflexivity |].
  intros H. cbn [trimStart]. destruct (is_space c) eqn:Hc; [| exact H].
  destruct (trimEnd_fixed_inv _ _ H) as [[-> _] | [_ Hw]];
    [reflexivity | now apply IH].
Qed.

Lemma trimEnd_trim s : trimEnd (trim s) = trim s.
Proof. unfold trim. apply trimEnd_trimStart, trimEnd_idem. Qed.

Lemma trim_idem s : trim (trim s) = trim s.
Proof.
  unfold trim at 1. rewrite trimEnd_trim. unfold trim. apply trimStart_idem.
Qed.

Lemma all_chars_trimStart P s :
  all_chars P s = true -> all_chars P (trimStart s) = true.
Proof.
  induction s as [| c s IH]; [reflexivity |].
  intros H. cbn [trimStart]. destruct (is_space c); [| exact H].
  cbn [all_chars] in H. apply andb_true_iff in H as [_ Hs]. now apply IH.
Qed.

Lemma all_chars_trimEnd P s :
  all_chars P s = true -> all_chars P (trimEnd s) = true.
Proof.
  induction s as [| c s IH]; [reflexivity |].
  cbn [all_chars]. intros H. apply andb_true_iff in H as [Hc Hs].
  specialize (IH Hs). cbn [trimEnd].
  destruct (trimEnd s) as [| a r].
  - destruct (is_space c); [reflexivity |]. cbn. now rewrite Hc.
  - cbn [all_chars] in *. now rewrite Hc, IH.
Qed.

Lemma all_chars_trim P s : all_chars P s = true -> all_chars P (trim s) = true.
Proof. intros H. now apply all_chars_trimStart, all_chars_trimEnd. Qed.

(** *** Collapsing white space *)

Lemma collapse_from_idem s :
  (forall b, collapse_from false (collapse_from b s) = collapse_from b s)
  /\ collapse_from true (collapse_from true s) = collapse_from true s.
Proof.
  induction s as [| c s [IH1 IH2]]; [split; [intros b |]; reflexivity |].
  split; [intros b |]; cbn [collapse_from]; destruct (is_space c) eqn:Hc.
  - destruct b; [apply IH1 |].
    cbn [collapse_from]. change (is_space " ") with true. cbn iota.
    now rewrite IH2.
  - cbn [collapse_from]. now rewrite Hc, IH1.
  - exact IH2.
  - cbn [collapse_from]. now rewrite Hc, IH1.
Qed.

Lemma collapse_spaces_idem s :
  collapse_spaces (collapse_spaces s) = collapse_spaces s.
Proof. apply collapse_from_idem. Qed.

Lemma collapse_from_length b s :
  (String.length (collapse_from b s) <= String.length s)%nat.
Proof.
  revert b. induction s as [| c s IH]; intros b; [reflexivity |].
  cbn [collapse_from]. destruct (is_space c).
  - destruct b; cbn [String.length].
    + specialize (IH true). lia.
    + specialize (IH true). lia.
  - cbn [String.length]. specialize (IH false). lia.
Qed.

Lemma collapse_from_empty b s : collapse_from b s = "" -> trimEnd s = "".
Proof.
  revert b. induction s as [| c s IH]; intros b; [reflexivity |].
  cbn [collapse_from]. destruct (is_space c) eqn:Hc; [| discriminate].
  destruct b; [| discriminate].
  intros H. rewrite (trimEnd_cons_empty _ _ (IH _ H)). now rewrite Hc.
Qed.

Lemma all_chars_collapse_from P b s :
  P " "%char = true ->
  all_chars P s = true -> all_chars P (collapse_from b s) = true.
Proof.
  intros Hsp. revert b. induction s as [| c s IH]; intros b; [reflexivity |].
  cbn [all_chars]. intros H. apply andb_true_iff in H as [Hc Hs].
  cbn [collapse_from]. destruct (is_space c).
  - destruct b; [now apply IH |]. cbn [all_chars]. now rewrite Hsp, IH.
  - cbn [all_chars]. now rewrite Hc, IH.
Qed.

(** Collapsing keeps a string without white space at its end that way. *)
Lemma trimEnd_collapse_from s : forall b,
  trimEnd s = s -> trimEnd (collapse_from b s) = collapse_from b s.
Proof.
  induction s as [| c s IH]; intros b H; [reflexivity |].
  destruct (trimEnd_fixed_inv _ _ H) as [[-> Hc] | [Hne Hs]].
  - cbn [collapse_from]. rewrite Hc. now apply trimEnd_single.
  - assert (Hout : forall b', trimEnd (collapse_from b' s) <> "").
    { intros b' E. rewrite (IH b' Hs) in E.
      apply collapse_from_empty in E. rewrite Hs in E. now apply Hne. }
    cbn [collapse_from]. destruct (is_space c).
    + destruct b; [now apply IH |].
      rewrite trimEnd_cons_nonempty by apply Hout. now rewrite IH.
    + rewrite trimEnd_cons_nonempty by apply Hout. now rewrite IH.
Qed.

(** What [s.trim().replace(/\s+/g, ' ')] returns has no white space at
    either end. *)
Lemma trim_collapse_trim s :
  trim (collapse_spaces (trim s)) = collapse_spaces (trim s).
Proof.
  unfold trim at 1, collapse_spaces.
  rewrite (trimEnd_collapse_from _ _ (trimEnd_trim s)).
  unfold trim. destruct (trimStart_head (trimEnd s)) as [-> | (c & r & -> & Hc)];
    [reflexivity |].
  cbn [collapse_from]. rewrite Hc. now apply trimStart_fixed.
Qed.

(** Trimming keeps a string in which white space comes as single spaces
    that way. *)
Lemma collapse_trimStart s : forall b,
  collapse_from b s = s -> collapse_spaces (trimStart s) = trimStart s.
Proof.
  induction s as [| c s IH]; intros b H; [reflexivity |].
  cbn [collapse_from] in H. cbn [trimStart].
  destruct (is_space c) eqn:Hc.
  - destruct b.
    + pose proof (collapse_from_length true s) as Hlen.
      rewrite H in Hlen. cbn [String.length] in Hlen. lia.
    + injection H as _ H. now apply (IH true).
  - injection H as H. unfold collapse_spaces. cbn [collapse_from].
    now rewrite Hc, H.
Qed.

Lemma collapse_trimEnd s : forall b,
  collapse_from b s = s -> collapse_from b (trimEnd s) = trimEnd s.
Proof.
  induction s as [| c s IH]; intros b H; [reflexivity |].
  cbn [collapse_from] in H.
  destruct (is_space c) eqn:Hc.
  - destruct b.
    + pose proof (collapse_from_length true s) as Hlen.
      rewrite H in Hlen. cbn [String.length] in Hlen. lia.
    + injection H as Hsp H.
      destruct (decide (trimEnd s = "")) as [E | E].
      * rewrite (trimEnd_cons_empty _ _ E). now rewrite Hc.
      * rewrite (trimEnd_cons_nonempty _ _ E). cbn [collapse_from].
        rewrite Hc. now rewrite (IH true H), Hsp.
  - injection H as H.
    destruct (decide (trimEnd s = "")) as [E | E].
    + rewrite (trimEnd_cons_empty _ _ E). rewrite Hc.
      cbn [collapse_from]. now rewrite Hc.
    + rewrite (trimEnd_cons_nonempty _ _ E). cbn [collapse_from].
      now rewrite Hc, (IH false H).
Qed.

Lemma collapse_trim s :
  collapse_spaces s = s -> collapse_spaces (trim s) = trim s.
Proof.
  intros H. unfold trim.
  apply (collapse_trimStart _ false). now apply collapse_trimEnd.
Qed.

End JSFacts.

(** ** Facts about utils/stringMatcher.js *)

Module StringMatcherFacts.
Import JS StringMatcher.

Example levenshtein_kitten_sitting : levenshteinDistance "kitten" "sitting" = 3%nat.
Proof. reflexivity. Qed.

Example similarityRatio_kitten_sitting :
  (similarityRatio "kitten" "sitting" == 4 # 7)%Q.
Proof. reflexivity. Qed.

Example similarityRatio_case_and_blanks :
  similarityRatio "  Hello " "hello" = 1%Q.
Proof. reflexivity. Qed.

(** C5, as stated, fails at the empty string: the guard [!str1 || !str2]
    answers 0 before any comparison is made. *)
Lemma similarityRatio_empty_not_one :
  similarityRatio "" "" = 0%Q /\ ~ (similarityRatio "" "" == 1)%Q.
Proof. split; [reflexivity | vm_compute; discriminate]. Qed.

(** C5 (amended): for every non-empty string [s], white-space-only strings
    included, [similarityRatio(s, s)] is 1; for the empty string it is 0. *)
Theorem similarityRatio_self (s : string) :
  (s <> "" -> similarityRatio s s = 1%Q) /\ similarityRatio "" "" = 0%Q.
Proof.
  split; [| reflexivity].
  intros Hs. unfold similarityRatio.
  destruct s as [| c s']; [congruence |].
  cbn [truthy_string negb orb].
  now rewrite String.eqb_refl.
Qed.

Lemma similarityRatio_self_witness :
  "  " <> "" /\ similarityRatio "  " "  " = 1%Q.
Proof.
  split; [discriminate |].
  apply (proj1 (similarityRatio_self "  ")). discriminate.
Defined.

(** *** The matrix of [levenshteinDistance] *)

Lemma edit_nil_r u : edit u "" = String.length u.
Proof. destruct u; reflexivity. Qed.

Lemma edit_cons_cons a u b v :
  edit (String a u) (String b v)
  = if Ascii.eqb a b then edit u v
    else Nat.min (edit u v + 1)
                 (Nat.min (edit (String a u) v + 1) (edit u (String b v) + 1)).
Proof. reflexivity. Qed.

Lemma row_from_unfold u v rest :
  row_from u v rest
  = edit u v :: match rest with
                | EmptyString => []
                | String c rest' => row_from u (String c v) rest'
                end.
Proof. destruct rest; reflexivity. Qed.

(** A row is filled from the row above as the recurrence says. *)
Lemma fill_row_spec c2 u rest : forall v,
  fill_row c2 rest (row_from u v rest) (edit (String c2 u) v)
  = tail (row_from (String c2 u) v rest).
Proof.
  induction rest as [| c1 rest IH]; intros v; [reflexivity |].
  change (row_from u v (String c1 rest))
    with (edit u v :: row_from u (String c1 v) rest).
  change (row_from (String c2 u) v (String c1 rest))
    with (edit (String c2 u) v :: row_from (String c2 u) (String c1 v) rest).
  rewrite (row_from_unfold u (String c1 v) rest).
  cbn [fill_row tail]. cbv zeta.
  rewrite <- (row_from_unfold u (String c1 v) rest).
  rewrite <- edit_cons_cons, IH.
  rewrite (row_from_unfold (String c2 u) (String c1 v) rest). reflexivity.
Qed.

Lemma row_from_first v rest :
  row_from "" v rest = seq (String.length v) (S (String.length rest)).
Proof.
  revert v. induction rest as [| c rest IH]; intros v; [reflexivity |].
  cbn [row_from String.length seq]. f_equal. rewrite IH. reflexivity.
Qed.

Lemma fill_rows_spec str1 str2 : forall u,
  fill_rows str1 str2 (S (String.length u)) (row_from u "" str1)
  = row_from (rev_onto str2 u) "" str1.
Proof.
  induction str2 as [| c2 str2 IH]; intros u; [reflexivity |].
  cbn [fill_rows rev_onto].
  assert (Hrow : S (String.length u)
                 :: fill_row c2 str1 (row_from u "" str1) (S (String.length u))
                 = row_from (String c2 u) "" str1).
  { change (S (String.length u)) with (edit (String c2 u) "").
    rewrite fill_row_spec.
    now rewrite (row_from_unfold (String c2 u) "" str1). }
  rewrite Hrow. apply (IH (String c2 u)).
Qed.

Lemma last_row_from u rest : forall v,
  List.last (row_from u v rest) 0%nat = edit u (rev_onto rest v).
Proof.
  induction rest as [| c rest IH]; intros v; [reflexivity |].
  cbn [rev_onto]. rewrite <- IH. cbn [row_from].
  rewrite (row_from_unfold u (String c v) rest). reflexivity.
Qed.

(** The distance is the cell of the two whole strings. *)
Lemma levenshteinDistance_edit str1 str2 :
  levenshteinDistance str1 str2 = edit (rev_onto str2 "") (rev_onto str1 "").
Proof.
  unfold levenshteinDistance.
  change (seq 0 (S (String.length str1)))
    with (seq (String.length "") (S (String.length str1))).
  rewrite <- (row_from_first "" str1).
  change 1%nat with (S (String.length "")).
  rewrite (fill_rows_spec str1 str2 "").
  apply last_row_from.
Qed.

Lemma edit_sym u : forall v, edit u v = edit v u.
Proof.
  induction u as [| a u IHu]; intros v.
  - now rewrite edit_nil_r.
  - induction v as [| b v IHv]; [reflexivity |].
    rewrite !edit_cons_cons, (Ascii.eqb_sym b a).
    rewrite (IHu v), (IHu (String b v)), IHv.
    destruct (Ascii.eqb a b); lia.
Qed.

Lemma edit_le_max u : forall v,
  (edit u v <= Nat.max (String.length u) (String.length v))%nat.
Proof.
  induction u as [| a u IHu]; intros v; [cbn; lia |].
  induction v as [| b v IHv]; [cbn; lia |].
  rewrite edit_cons_cons. specialize (IHu v). cbn [String.length].
  destruct (Ascii.eqb a b); lia.
Qed.

Lemma edit_zero u : forall v, edit u v = 0%nat -> u = v.
Proof.
  induction u as [| a u IHu]; intros v.
  - destruct v; [reflexivity | discriminate].
  - induction v as [| b v IHv]; [discriminate |].
    rewrite edit_cons_cons.
    destruct (Ascii.eqb_spec a b) as [-> | Hab]; [| lia].
    intros H. now rewrite (IHu v H).
Qed.

Lemma edit_same u : edit u u = 0%nat.
Proof.
  induction u as [| a u IH]; [reflexivity |].
  now rewrite edit_cons_cons, Ascii.eqb_refl.
Qed.

Lemma length_rev_onto s : forall acc,
  String.length (rev_onto s acc) = (String.length s + String.length acc)%nat.
Proof.
  induction s as [| c s IH]; intros acc; [reflexivity |].
  cbn [rev_onto String.length]. rewrite IH. cbn [String.length]. lia.
Qed.

Lemma rev_onto_involutive s : forall acc,
  rev_onto (rev_onto s acc) "" = rev_onto acc s.
Proof.
  induction s as [| c s IH]; intros acc; cbn [rev_onto]; [reflexivity |].
  now rewrite IH.
Qed.

Lemma rev_onto_inj s t : rev_onto s "" = rev_onto t "" -> s = t.
Proof.
  intros H. apply (f_equal (fun x => rev_onto x "")) in H.
  now rewrite !rev_onto_involutive in H.
Qed.

Lemma levenshteinDistance_sym str1 str2 :
  levenshteinDistance str1 str2 = levenshteinDistance str2 str1.
Proof. rewrite !levenshteinDistance_edit. apply edit_sym. Qed.

Lemma levenshteinDistance_le_max str1 str2 :
  (levenshteinDistance str1 str2
   <= Nat.max (String.length str1) (String.length str2))%nat.
Proof.
  rewrite levenshteinDistance_edit.
  pose proof (edit_le_max (rev_onto str2 "") (rev_onto str1 "")) as H.
  rewrite !length_rev_onto in H. cbn [String.length] in H. lia.
Qed.

Lemma levenshteinDistance_zero str1 str2 :
  levenshteinDistance str1 str2 = 0%nat <-> str1 = str2.
Proof.
  rewrite levenshteinDistance_edit. split.
  - intros H. apply edit_zero in H. symmetry. now apply rev_onto_inj.
  - intros ->. apply edit_same.
Qed.

Lemma truthy_string_true s : truthy_string s = true <-> s <> "".
Proof. destruct s; cbn; split; intros H; congruence. Qed.

Lemma inject_nat_le (a b : nat) :
  (a <= b)%nat -> (inject_Z (Z.of_nat a) <= inject_Z (Z.of_nat b))%Q.
Proof. intros H. rewrite <- Zle_Qle. lia. Qed.

Lemma similarityRatio_comm (str1 str2 : string) :
  similarityRatio str1 str2 = similarityRatio str2 str1.
Proof.
  unfold similarityRatio.
  rewrite (orb_comm (negb (truthy_string str1))).
  destruct (negb (truthy_string str2) || negb (truthy_string str1));
    [reflexivity |].
  rewrite (String.eqb_sym (trim (toLowerCase str1))).
  rewrite (Nat.max_comm (String.length (trim (toLowerCase str1)))).
  now rewrite (levenshteinDistance_sym (trim (toLowerCase str1))).
Qed.

(** X1: the similarity of two strings does not depend on their order. *)
Theorem similarityRatio_sym (str1 str2 : string) :
  similarityRatio str1 str2 = similarityRatio str2 str1.
Proof.
  unfold similarityRatio.
  rewrite (orb_comm (negb (truthy_string str1))).
  destruct (negb (truthy_string str2) || negb (truthy_string str1));
    [reflexivity |].
  rewrite (String.eqb_sym (trim (toLowerCase str1))).
  rewrite (Nat.max_comm (String.length (trim (toLowerCase str1)))).
  now rewrite (levenshteinDistance_sym (trim (toLowerCase str1))).
Qed.

Lemma similarityRatio_bounds (str1 str2 : string) :
  (0 <= similarityRatio str1 str2 <= 1)%Q.
Proof.
  unfold similarityRatio.
  destruct (negb (truthy_string str1) || negb (truthy_string str2)); [lra |].
  set (s1 := trim (toLowerCase str1)). set (s2 := trim (toLowerCase str2)).
  destruct (String.eqb s1 s2); [lra |].
  destruct (Nat.eqb_spec (Nat.max (String.length s1) (String.length s2)) 0)
    as [| Hpos]; [lra |].
  pose proof (inject_nat_le _ _ (levenshteinDistance_le_max s1 s2)) as Hle.
  set (d := inject_Z (Z.of_nat (levenshteinDistance s1 s2))) in *.
  set (m := inject_Z (Z.of_nat (Nat.max (String.length s1) (String.length s2)))) in *.
  assert (Hd : (0 <= d)%Q).
  { unfold d. change 0%Q with (inject_Z 0). rewrite <- Zle_Qle. lia. }
  assert (Hm : (0 < m)%Q).
  { unfold m. change 0%Q with (inject_Z 0). rewrite <- Zlt_Qlt. lia. }
  assert (H0 : (0 <= d / m)%Q) by (apply Qle_shift_div_l; lra).
  assert (H1 : (d / m <= 1)%Q) by (apply Qle_shift_div_r; lra).
  lra.
Qed.

(** X2: the similarity is a number between 0 and 1, whatever the two
    strings. *)
Theorem similarityRatio_range (str1 str2 : string) :
  (0 <= similarityRatio str1 str2 <= 1)%Q.
Proof.
  unfold similarityRatio.
  destruct (negb (truthy_string str1) || negb (truthy_string str2)); [lra |].
  set (s1 := trim (toLowerCase str1)). set (s2 := trim (toLowerCase str2)).
  destruct (String.eqb s1 s2); [lra |].
  destruct (Nat.eqb_spec (Nat.max (String.length s1) (String.length s2)) 0)
    as [| Hpos]; [lra |].
  pose proof (inject_nat_le _ _ (levenshteinDistance_le_max s1 s2)) as Hle.
  set (d := inject_Z (Z.of_nat (levenshteinDistance s1 s2))) in *.
  set (m := inject_Z (Z.of_nat (Nat.max (String.length s1) (String.length s2)))) in *.
  assert (Hd : (0 <= d)%Q).
  { unfold d. change 0%Q with (inject_Z 0). rewrite <- Zle_Qle. lia. }
  assert (Hm : (0 < m)%Q).
  { unfold m. change 0%Q with (inject_Z 0). rewrite <- Zlt_Qlt. lia. }
  assert (H0 : (0 <= d / m)%Q) by (apply Qle_shift_div_l; lra).
  assert (H1 : (d / m <= 1)%Q) by (apply Qle_shift_div_r; lra).
  lra.
Qed.

Lemma similarityRatio_is_one (str1 str2 : string) :
  (similarityRatio str1 str2 == 1)%Q
  <-> str1 <> "" /\ str2 <> ""
      /\ trim (toLowerCase str1) = trim (toLowerCase str2).
Proof.
  unfold similarityRatio.
  destruct str1 as [| a1 r1]; [cbn; split; [discriminate | tauto] |].
  destruct str2 as [| a2 r2]; [cbn; split; [discriminate | tauto] |].
  cbn [truthy_string negb orb].
  set (s1 := trim (toLowerCase (String a1 r1))).
  set (s2 := trim (toLowerCase (String a2 r2))).
  destruct (String.eqb_spec s1 s2) as [E | E].
  - split; [intros _; repeat split; [discriminate | discriminate | exact E] | reflexivity].
  - destruct (Nat.eqb_spec (Nat.max (String.length s1) (String.length s2)) 0)
      as [H0 | Hpos].
    + exfalso. apply E.
      destruct s1, s2; cbn [String.length] in H0; (reflexivity || lia).
    + split; [| intros (_ & _ & H); contradiction].
      intros H. exfalso. apply E. apply levenshteinDistance_zero.
      set (d := levenshteinDistance s1 s2) in *.
      set (m := Nat.max (String.length s1) (String.length s2)) in *.
      assert (Hm : (0 < inject_Z (Z.of_nat m))%Q).
      { change 0%Q with (inject_Z 0). rewrite <- Zlt_Qlt. lia. }
      assert (Hd : (inject_Z (Z.of_nat d) == 0)%Q).
      { set (qd := inject_Z (Z.of_nat d)) in *.
        set (qm := inject_Z (Z.of_nat m)) in *.
        clearbody qd qm.
        assert (Hq : (qd / qm == 0)%Q) by (apply Qle_antisym; lra).
        rewrite <- (Qmult_div_r qd qm) by lra.
        rewrite Hq. lra. }
      change 0%Q with (inject_Z 0) in Hd. rewrite inject_Z_injective in Hd. lia.
Qed.

(** X3: the similarity of two strings is 1 exactly when neither is empty
    and they are the same once lower-cased and trimmed. *)
Theorem similarityRatio_one_iff (str1 str2 : string) :
  (similarityRatio str1 str2 == 1)%Q
  <-> str1 <> "" /\ str2 <> ""
      /\ trim (toLowerCase str1) = trim (toLowerCase str2).
Proof.
  unfold similarityRatio.
  destruct str1 as [| a1 r1]; [cbn; split; [discriminate | tauto] |].
  destruct str2 as [| a2 r2]; [cbn; split; [discriminate | tauto] |].
  cbn [truthy_string negb orb].
  set (s1 := trim (toLowerCase (String a1 r1))).
  set (s2 := trim (toLowerCase (String a2 r2))).
  destruct (String.eqb_spec s1 s2) as [E | E].
  - split; [intros _; repeat split; [discriminate | discriminate | exact E] | reflexivity].
  - destruct (Nat.eqb_spec (Nat.max (String.length s1) (String.length s2)) 0)
      as [H0 | Hpos].
    + exfalso. apply E.
      destruct s1, s2; cbn [String.length] in H0; (reflexivity || lia).
    + split; [| intros (_ & _ & H); contradiction].
      intros H. exfalso. apply E. apply levenshteinDistance_zero.
      set (d := levenshteinDistance s1 s2) in *.
      set (m := Nat.max (String.length s1) (String.length s2)) in *.
      assert (Hm : (0 < inject_Z (Z.of_nat m))%Q).
      { change 0%Q with (inject_Z 0). rewrite <- Zlt_Qlt. lia. }
      assert (Hd : (inject_Z (Z.of_nat d) == 0)%Q).
      { set (qd := inject_Z (Z.of_nat d)) in *.
        set (qm := inject_Z (Z.of_nat m)) in *.
        clearbody qd qm.
        assert (Hq : (qd / qm == 0)%Q) by (apply Qle_antisym; lra).
        rewrite <- (Qmult_div_r qd qm) by lra.
        rewrite Hq. lra. }
      change 0%Q with (inject_Z 0) in Hd. rewrite inject_Z_injective in Hd. lia.
Qed.

(** *** [findBestMatch] *)

Lemma lookup_snoc {A} (l : list A) (x y : A) (j : nat) :
  (l ++ [x])%list !! j = Some y ->
  ((j < length l)%nat /\ l !! j = Some y) \/ (j = length l /\ y = x).
Proof.
  intros H. destruct (Nat.lt_ge_cases j (length l)) as [Hlt | Hge].
  - left. split; [exact Hlt |]. now rewrite lookup_app_l in H.
  - right. rewrite lookup_app_r in H by exact Hge.
    destruct (j - length l)%nat as [| n] eqn:E; cbn in H; [| discriminate].
    injection H as <-. split; [lia | reflexivity].
Qed.

Lemma similarityRatio_empty_r query : similarityRatio query "" = 0%Q.
Proof. unfold similarityRatio. cbn. now rewrite orb_true_r. Qed.

Lemma consider_keeps query seen best c :
  best_of query seen best ->
  best_of query (seen ++ [c])%list (consider query best (length seen) c).
Proof.
  intros Hbest. unfold consider.
  destruct (truthy_string c) eqn:Hc; cbn [negb].
  - destruct (Qle_bool (similarityRatio query c) (score best)) eqn:Hle;
      cbn [negb].
    + apply Qle_bool_iff in Hle.
      destruct Hbest as [(Hm & Hs & Hi & Hall) | (i & c0 & Hl & Hm & Hi & Hs & Hpos & Hmax & Hfirst)].
      * left. repeat split; try assumption.
        intros j c' Hj. apply lookup_snoc in Hj as [[_ Hj] | [_ ->]];
          [now apply (Hall j) | now rewrite <- Hs].
      * right. exists i, c0. split; [now apply lookup_app_l_Some |].
        repeat split; try assumption.
        -- intros j c' Hj. apply lookup_snoc in Hj as [[_ Hj] | [_ ->]];
             [now apply (Hmax j) | exact Hle].
        -- intros j c' Hji Hj. apply lookup_snoc in Hj as [[_ Hj] | [-> _]].
           ++ now apply (Hfirst j).
           ++ apply lookup_lt_Some in Hl. lia.
    + assert (Hlt : (score best < similarityRatio query c)%Q).
      { apply Qnot_le_lt. intros H. apply Qle_bool_iff in H. congruence. }
      right. exists (length seen), c. cbn [matched score index].
      split; [apply list_lookup_middle; reflexivity |].
      assert (Hold : forall j c', seen !! j = Some c' ->
                (similarityRatio query c' <= score best)%Q
                /\ (0 <= score best)%Q).
      { destruct Hbest as [(_ & Hs & _ & Hall) | (_ & _ & _ & _ & _ & _ & Hpos & Hmax & _)].
        - intros j c' Hj. rewrite Hs. split; [now apply (Hall j) | lra].
        - intros j c' Hj. split; [now apply (Hmax j) | lra]. }
      assert (H0 : (0 <= score best)%Q).
      { destruct Hbest as [(_ & Hs & _) | (_ & _ & _ & _ & _ & _ & Hpos & _)];
          [rewrite Hs |]; lra. }
      repeat split; try reflexivity; [lra | |].
      * intros j c' Hj. apply lookup_snoc in Hj as [[_ Hj] | [_ ->]]; [| lra].
        destruct (Hold j c' Hj). lra.
      * intros j c' Hlen Hj. apply lookup_snoc in Hj as [[_ Hj] | [-> _]];
          [| lia].
        destruct (Hold j c' Hj). lra.
  - assert (Hc0 : c = "") by (destruct c; [reflexivity | discriminate]).
    subst c.
    destruct Hbest as [(Hm & Hs & Hi & Hall) | (i & c0 & Hl & Hm & Hi & Hs & Hpos & Hmax & Hfirst)].
    + left. repeat split; try assumption.
      intros j c' Hj. apply lookup_snoc in Hj as [[_ Hj] | [_ ->]];
        [now apply (Hall j) | rewrite similarityRatio_empty_r; lra].
    + right. exists i, c0. split; [now apply lookup_app_l_Some |].
      repeat split; try assumption.
      * intros j c' Hj. apply lookup_snoc in Hj as [[_ Hj] | [_ ->]];
          [now apply (Hmax j) | rewrite similarityRatio_empty_r; lra].
      * intros j c' Hji Hj. apply lookup_snoc in Hj as [[_ Hj] | [-> _]].
        -- now apply (Hfirst j).
        -- apply lookup_lt_Some in Hl. lia.
Qed.

Lemma scan_candidates_keeps query rest : forall seen best,
  best_of query seen best ->
  best_of query (seen ++ rest)%list
    (scan_candidates query best (length seen) rest).
Proof.
  induction rest as [| c rest IH]; intros seen best Hbest;
    cbn [scan_candidates].
  - now rewrite app_nil_r.
  - pose proof (IH (seen ++ [c])%list _ (consider_keeps _ _ _ c Hbest)) as H.
    rewrite length_app, Nat.add_1_r, <- app_assoc in H. exact H.
Qed.

Lemma scan_candidates_best query candidates :
  best_of query candidates
    (scan_candidates query
       {| matched := None; score := 0%Q; index := (-1)%Z |} 0 candidates).
Proof.
  apply (scan_candidates_keeps query candidates []).
  left. repeat split. intros j c Hj. discriminate Hj.
Qed.

(** X4: with a positive threshold, a result of [findBestMatch] names a
    candidate of the list: [match] is the candidate at [index], [score] is
    its similarity to the query and reaches the threshold, no candidate
    scores higher, and every candidate before it scores strictly lower. *)
Theorem findBestMatch_sound
    (query : string) (candidates : list string) (threshold : option Q)
    (r : BestMatch) :
  (0 < default (0.6)%Q threshold)%Q ->
  findBestMatch query candidates threshold = Some r ->
  exists i c,
    candidates !! i = Some c /\ matched r = Some c /\ index r = Z.of_nat i
    /\ score r = similarityRatio query c
    /\ (default (0.6)%Q threshold <= score r)%Q
    /\ (forall j c', candidates !! j = Some c' ->
          (similarityRatio query c' <= score r)%Q)
    /\ (forall j c', (j < i)%nat -> candidates !! j = Some c' ->
          (similarityRatio query c' < score r)%Q).
Proof.
  intros Hth. unfold findBestMatch.
  destruct (negb (truthy_string query) || (length candidates =? 0)%nat);
    [discriminate |].
  pose proof (scan_candidates_best query candidates) as Hbest.
  set (best := scan_candidates _ _ _ _) in *.
  destruct (Qle_bool (default (0.6)%Q threshold) (score best)) eqn:Hle;
    [| discriminate].
  intros H. injection H as <-. apply Qle_bool_iff in Hle.
  destruct Hbest as [(_ & Hs & _) | (i & c & Hl & Hm & Hi & Hs & _ & Hmax & Hfirst)].
  - rewrite Hs in Hle. lra.
  - exists i, c. repeat split; assumption.
Qed.

Lemma findBestMatch_sound_witness :
  exists i c,
    ["Hello"; "help"; "HELP "] !! i = Some c /\ i = 1%nat /\ c = "help".
Proof.
  destruct (findBestMatch_sound "help" ["Hello"; "help"; "HELP "] None
              {| matched := Some "help"; score := 1%Q; index := 1%Z |}
              ltac:(reflexivity) ltac:(reflexivity))
    as (i & c & Hl & Hm & Hi & _).
  exists i, c. cbn in Hm, Hi. injection Hm as <-.
  split; [exact Hl |]. split; [lia | reflexivity].
Defined.

(** X5: with a positive threshold, [findBestMatch] returns [null] exactly
    when every candidate scores below the threshold (an empty query, an
    empty list and empty candidates included). *)
Theorem findBestMatch_none_iff
    (query : string) (candidates : list string) (threshold : option Q) :
  (0 < default (0.6)%Q threshold)%Q ->
  (findBestMatch query candidates threshold = None
   <-> forall j c, candidates !! j = Some c ->
         (similarityRatio query c < default (0.6)%Q threshold)%Q).
Proof.
  intros Hth. unfold findBestMatch.
  destruct (truthy_string query) eqn:Hq; cbn [negb orb].
  - destruct candidates as [| c0 rest]; [cbn; split; [discriminate | reflexivity] |].
    cbn [length Nat.eqb].
    pose proof (scan_candidates_best query (c0 :: rest)) as Hbest.
    set (best := scan_candidates _ _ _ _) in *.
    destruct (Qle_bool (default (0.6)%Q threshold) (score best)) eqn:Hle.
    + apply Qle_bool_iff in Hle. split; [discriminate |].
      intros Hall. exfalso.
      destruct Hbest as [(_ & Hs & _) | (i & c & Hl & _ & _ & Hs & _)].
      * rewrite Hs in Hle. lra.
      * specialize (Hall i c Hl). rewrite <- Hs in Hall. lra.
    + split; [intros _ | reflexivity].
      assert (Hlt : (score best < default (0.6)%Q threshold)%Q).
      { apply Qnot_le_lt. intros H. apply Qle_bool_iff in H. congruence. }
      intros j c Hj.
      destruct Hbest as [(_ & Hs & _ & Hall) | (_ & _ & _ & _ & _ & _ & _ & Hmax & _)].
      * specialize (Hall j c Hj). rewrite Hs in Hlt. lra.
      * specialize (Hmax j c Hj). lra.
  - split; [intros _ | reflexivity].
    intros j c _. unfold similarityRatio. rewrite Hq. cbn. exact Hth.
Qed.

Lemma findBestMatch_none_iff_witness :
  findBestMatch "metallica" ["abba"; ""; "queen"] None = None.
Proof.
  apply (findBestMatch_none_iff "metallica" ["abba"; ""; "queen"] None);
    [reflexivity |].
  intros [| [| [| j]]] c H; cbn in H; try discriminate;
    injection H as <-; vm_compute; reflexivity.
Defined.

(** *** [calculateMatchScore] *)

Lemma ratio_if_both_range a b : (0 <= ratio_if_both a b <= 1)%Q.
Proof.
  unfold ratio_if_both.
  destruct (truthy_string a && truthy_string b);
    [apply similarityRatio_bounds | lra].
Qed.

Lemma ratio_if_both_sym a b : ratio_if_both a b = ratio_if_both b a.
Proof.
  unfold ratio_if_both. rewrite andb_comm, similarityRatio_comm. reflexivity.
Qed.

Lemma calculateMatchScore_bounds_comm (query candidate : Identity) :
  (0 <= calculateMatchScore query candidate <= 1)%Q
  /\ calculateMatchScore query candidate = calculateMatchScore candidate query.
Proof.
  unfold calculateMatchScore. split.
  - pose proof (ratio_if_both_range (artist query) (artist candidate)).
    pose proof (ratio_if_both_range (song query) (song candidate)).
    destruct (negb (truthy_string (artist query))
              && negb (truthy_string (artist candidate))); [assumption |].
    destruct (negb (truthy_string (song query))
              && negb (truthy_string (song candidate))); [assumption |].
    set (a := ratio_if_both (artist query) (artist candidate)) in *.
    set (b := ratio_if_both (song query) (song candidate)) in *.
    clearbody a b. split.
    + apply Qle_shift_div_l; lra.
    + apply Qle_shift_div_r; lra.
  - rewrite (andb_comm (negb (truthy_string (artist query)))).
    rewrite (andb_comm (negb (truthy_string (song query)))).
    rewrite (ratio_if_both_sym (artist query)).
    rewrite (ratio_if_both_sym (song query)). reflexivity.
Qed.

(** X6: the combined artist and song score lies between 0 and 1 and does
    not depend on which of the two identities is the query. *)
Theorem calculateMatchScore_range_sym (query candidate : Identity) :
  (0 <= calculateMatchScore query candidate <= 1)%Q
  /\ calculateMatchScore query candidate = calculateMatchScore candidate query.
Proof.
  unfold calculateMatchScore. split.
  - pose proof (ratio_if_both_range (artist query) (artist candidate)).
    pose proof (ratio_if_both_range (song query) (song candidate)).
    destruct (negb (truthy_string (artist query))
              && negb (truthy_string (artist candidate))); [assumption |].
    destruct (negb (truthy_string (song query))
              && negb (truthy_string (song candidate))); [assumption |].
    set (a := ratio_if_both (artist query) (artist candidate)) in *.
    set (b := ratio_if_both (song query) (song candidate)) in *.
    clearbody a b. split.
    + apply Qle_shift_div_l; lra.
    + apply Qle_shift_div_r; lra.
  - rewrite (andb_comm (negb (truthy_string (artist query)))).
    rewrite (andb_comm (negb (truthy_string (song query)))).
    rewrite (ratio_if_both_sym (artist query)).
    rewrite (ratio_if_both_sym (song query)). reflexivity.
Qed.

(** X7: an identity that has an artist and a song scores 1 against itself,
    and against the same identity in another letter case. *)
Theorem calculateMatchScore_same (query candidate : Identity) :
  artist query <> "" -> song query <> "" ->
  toLowerCase (artist candidate) = toLowerCase (artist query) ->
  toLowerCase (song candidate) = toLowerCase (song query) ->
  (calculateMatchScore query candidate == 1)%Q.
Proof.
  intros Ha Hs Hca Hcs.
  assert (Hne : forall a b, a <> "" -> toLowerCase b = toLowerCase a -> b <> "").
  { intros a b Hne H ->. destruct a; [congruence | discriminate H]. }
  pose proof (Hne _ _ Ha Hca) as Hca'. pose proof (Hne _ _ Hs Hcs) as Hcs'.
  assert (Hone : forall a b, a <> "" -> b <> "" ->
            toLowerCase b = toLowerCase a -> (ratio_if_both a b == 1)%Q).
  { intros a b Hae Hbe H. unfold ratio_if_both.
    rewrite (proj2 (truthy_string_true a) Hae), (proj2 (truthy_string_true b) Hbe).
    cbn [andb]. apply similarityRatio_is_one. now rewrite H. }
  unfold calculateMatchScore.
  rewrite (proj2 (truthy_string_true _) Ha), (proj2 (truthy_string_true _) Hs).
  cbn [negb andb].
  rewrite (Hone _ _ Ha Hca' Hca), (Hone _ _ Hs Hcs' Hcs). reflexivity.
Qed.

Lemma calculateMatchScore_same_witness :
  (calculateMatchScore {| artist := "Queen"; song := "Bohemian Rhapsody" |}
                       {| artist := "QUEEN"; song := "bohemian rhapsody" |}
   == 1)%Q.
Proof.
  apply calculateMatchScore_same; (discriminate || reflexivity).
Defined.

(** *** Normalisation *)

Lemma all_chars_kept_blank s : all_chars kept (blank_specials s) = true.
Proof.
  induction s as [| c s IH]; [reflexivity |].
  cbn [blank_specials all_chars]. rewrite IH, andb_true_r.
  unfold kept at 1. destruct (is_word_char c || is_space c) eqn:E;
    [exact E | reflexivity].
Qed.

Lemma all_chars_lower_blank s :
  all_chars is_lower s = true -> all_chars is_lower (blank_specials s) = true.
Proof.
  induction s as [| c s IH]; [reflexivity |].
  cbn [blank_specials all_chars]. intros H.
  apply andb_true_iff in H as [Hc Hs]. rewrite (IH Hs), andb_true_r.
  now destruct (is_word_char c || is_space c).
Qed.

Lemma blank_specials_fixed s : all_chars kept s = true -> blank_specials s = s.
Proof.
  induction s as [| c s IH]; [reflexivity |].
  cbn [blank_specials all_chars]. intros H.
  apply andb_true_iff in H as [Hc Hs]. unfold kept in Hc.
  now rewrite Hc, IH.
Qed.

Lemma all_chars_plain_collapse s : forall b,
  all_chars kept s = true -> all_chars is_lower s = true ->
  all_chars is_plain (collapse_from b s) = true.
Proof.
  induction s as [| c s IH]; intros b Hk Hl; [reflexivity |].
  cbn [all_chars] in Hk, Hl.
  apply andb_true_iff in Hk as [Hkc Hk]. apply andb_true_iff in Hl as [Hlc Hl].
  cbn [collapse_from]. destruct (is_space c) eqn:Hc.
  - destruct b; [now apply IH |]. cbn [all_chars]. now rewrite IH.
  - cbn [all_chars]. rewrite IH by assumption. rewrite andb_true_r.
    unfold kept in Hkc. rewrite Hc, orb_false_r in Hkc.
    unfold is_plain. now rewrite Hkc, Hlc.
Qed.

(** X8: [normalizeString] is idempotent, and what it returns is made of
    lower-case letters, digits, underscores and spaces only. *)
Theorem normalizeString_idempotent (str : string) :
  normalizeString (normalizeString str) = normalizeString str
  /\ all_chars is_plain (normalizeString str) = true.
Proof.
  unfold normalizeString at 2 3 4.
  destruct (negb (truthy_string str)); [split; reflexivity |].
  set (t := blank_specials (toLowerCase str)).
  assert (Hk : all_chars kept t = true) by apply all_chars_kept_blank.
  assert (Hl : all_chars is_lower t = true)
    by apply all_chars_lower_blank, JSFacts.all_chars_toLowerCase.
  set (y := trim (collapse_spaces t)).
  assert (Hky : all_chars kept y = true).
  { apply JSFacts.all_chars_trim, JSFacts.all_chars_collapse_from;
      [reflexivity | exact Hk]. }
  assert (Hly : all_chars is_lower y = true).
  { apply JSFacts.all_chars_trim, JSFacts.all_chars_collapse_from;
      [reflexivity | exact Hl]. }
  split.
  - unfold normalizeString. destruct (negb (truthy_string y)) eqn:Hy.
    + destruct y; [reflexivity | discriminate Hy].
    + rewrite (JSFacts.toLowerCase_fixed _ Hly), (blank_specials_fixed _ Hky).
      subst y. rewrite JSFacts.collapse_trim by apply JSFacts.collapse_spaces_idem.
      apply JSFacts.trim_idem.
  - apply JSFacts.all_chars_trim. now apply all_chars_plain_collapse.
Qed.

End StringMatcherFacts.

(** ** Facts about utils/titleParser.js *)

Module TitleParserFacts.
Import JS JSFacts TitleParser.

Local Open Scope Q_scope.

Example parse_rick_astley :
  let r := parseVideoTitle
             "Rick Astley - Never Gonna Give You Up (Official Video)" "" in
  artist r = Some "rick astley"%string
  /\ song r = Some "never gonna give you up"%string
  /\ 0.5 < confidence r.
Proof. vm_compute. repeat split. Qed.

Example parse_by : 
  let r := parseVideoTitle "Song BY Artist" "" in
  artist r = Some "artist"%string /\ song r = Some "song"%string.
Proof. vm_compute. repeat split. Qed.

Example parse_channel_fallback :
  let r := parseVideoTitle "Some Random Title" "QueenVEVO" in
  artist r = Some "Queen"%string /\ song r = Some "some random title"%string
  /\ confidence r = 0.4.
Proof. vm_compute. repeat split. Qed.

Example parse_dash_before_colon :
  artist (parseVideoTitle "A: B - C" "") = Some "a: b"%string.
Proof. reflexivity. Qed.

(** *** Matching under the [i] flag *)

Lemma char_eq_ci_sym a b : char_eq_ci a b = char_eq_ci b a.
Proof.
  unfold char_eq_ci.
  destruct (Ascii.eqb_spec (lower_char a) (lower_char b)) as [E | E];
    destruct (Ascii.eqb_spec (lower_char b) (lower_char a)) as [E' | E'];
    congruence.
Qed.

(** A match consumes a prefix [m] of the subject that is the pattern up to
    case. *)
Lemma match_ci_split pattern : forall s rest,
  match_ci pattern s = Some rest ->
  exists m, s = m +:+ rest /\ match_ci pattern m = Some ""%string.
Proof.
  induction pattern as [| a pattern IH]; intros s rest H; cbn [match_ci] in H.
  - injection H as ->. now exists ""%string.
  - destruct s as [| b s]; [discriminate |].
    destruct (char_eq_ci a b) eqn:E; [| discriminate].
    destruct (IH s rest H) as (m & -> & Hm).
    exists (String b m). split; [reflexivity |].
    cbn [match_ci]. now rewrite E.
Qed.

Lemma includes_ci_here s p rest : match_ci p s = Some rest -> includes_ci s p = true.
Proof. intros H. destruct s; cbn [includes_ci]; now rewrite H. Qed.

Lemma includes_ci_later c s p : includes_ci s p = true -> includes_ci (String c s) p = true.
Proof. intros H. cbn [includes_ci]. now destruct (match_ci p (String c s)). Qed.

Lemma match_ci_prefix_back b w : forall pattern,
  match_ci pattern (b +:+ w) = Some ""%string -> exists rest, match_ci b pattern = Some rest.
Proof.
  induction b as [| c b IH]; intros pattern H; [now exists pattern |].
  rewrite append_cons in H.
  destruct pattern as [| a pattern]; cbn [match_ci] in H |- *.
  - injection H as H. discriminate H.
  - destruct (char_eq_ci a c) eqn:E; [| discriminate].
    rewrite char_eq_ci_sym, E. now apply IH.
Qed.

(** When the pattern is, up to case, [a ++ b ++ w], then [b] occurs in
    the pattern. *)
Lemma match_ci_inside a b w : forall pattern,
  match_ci pattern (a +:+ b +:+ w) = Some ""%string -> includes_ci pattern b = true.
Proof.
  induction a as [| c a IH]; intros pattern H.
  - rewrite append_nil in H.
    destruct (match_ci_prefix_back _ _ _ H) as [rest Hrest].
    now apply (includes_ci_here _ _ rest).
  - rewrite append_cons in H.
    destruct pattern as [| x pattern]; cbn [match_ci] in H.
    + injection H as H. discriminate H.
    + destruct (char_eq_ci x c); [| discriminate].
      apply includes_ci_later. now apply IH.
Qed.

(** *** Cutting a decoration off a text with an arbitrary beginning *)

Lemma truthy_string_nonempty s : truthy_string s = true -> s <> ""%string.
Proof. destruct s; [discriminate | discriminate]. Qed.

(** No match starts in the unknown beginning. *)
Lemma ends_here_blocked literal t c x :
  clear_of literal t = true ->
  ends_here true literal (String c x +:+ t) = false.
Proof.
  unfold clear_of. intros H. apply andb_true_iff in H as [Hcore Hfree].
  apply truthy_string_nonempty in Hcore. apply negb_true_iff in Hfree.
  unfold ends_here.
  destruct (match_ci literal (String c x +:+ t)) as [rest |] eqn:Em;
    [| reflexivity].
  destruct (all_space rest) eqn:Hrest; [exfalso | reflexivity].
  destruct (match_ci_split _ _ _ Em) as (m & Hs & Hm).
  assert (Htrim : trimEnd m = String c x +:+ trimEnd t).
  { rewrite <- (trimEnd_app_spaces m rest Hrest), <- Hs.
    now apply trimEnd_app_core. }
  destruct (trimEnd_split m) as (w & _ & Hsplit).
  rewrite Htrim, app_assoc_string in Hsplit. rewrite Hsplit in Hm.
  destruct literal as [| a literal].
  - cbn [match_ci] in Hm. injection Hm as Hm. discriminate Hm.
  - rewrite append_cons in Hm. cbn [match_ci] in Hm.
    destruct (char_eq_ci a c); [| discriminate].
    apply match_ci_inside in Hm. cbn [occurs_later] in Hfree. congruence.
Qed.

Lemma remove_at_end_tail literal t :
  clear_of literal t = true ->
  forall x, remove_at_end true literal (x +:+ t)
            = x +:+ remove_at_end true literal t.
Proof.
  intros H. induction x as [| c x IH]; [reflexivity |].
  rewrite append_cons at 1. cbn [remove_at_end].
  rewrite <- append_cons, (ends_here_blocked _ _ _ _ H).
  rewrite IH. reflexivity.
Qed.

Lemma remove_suffixes_tail_ok suffixes : forall t t',
  remove_suffixes_tail suffixes t = Some t' ->
  forall x, remove_suffixes suffixes (x +:+ t) = x +:+ t'.
Proof.
  induction suffixes as [| suffix rest IH]; intros t t' H x;
    cbn [remove_suffixes_tail] in H.
  - injection H as ->. reflexivity.
  - destruct (clear_of suffix t) eqn:Hc; [| discriminate].
    unfold remove_suffixes. cbn [fold_left].
    rewrite (remove_at_end_tail _ _ Hc). now apply IH.
Qed.

Lemma remove_suffixes_app s1 s2 text :
  remove_suffixes (s1 ++ s2) text = remove_suffixes s2 (remove_suffixes s1 text).
Proof. unfold remove_suffixes. apply fold_left_app. Qed.

(** *** Two stacked decorations *)

Lemma all_pairs_checked :
  forallb (fun j => forallb (check_pair j) (seq 0 18)) (seq 0 18) = true.
Proof. vm_compute. reflexivity. Qed.

Lemma check_pair_true j k dj dk :
  COMMON_SUFFIXES !! j = Some dj -> COMMON_SUFFIXES !! k = Some dk ->
  check_pair j k = true.
Proof.
  intros Hj Hk.
  assert (Hjlt : (j < 18)%nat) by (apply lookup_lt_Some in Hj; exact Hj).
  assert (Hklt : (k < 18)%nat) by (apply lookup_lt_Some in Hk; exact Hk).
  pose proof all_pairs_checked as H.
  rewrite forallb_forall in H.
  specialize (H j ltac:(apply in_seq; lia)).
  rewrite forallb_forall in H.
  apply H. apply in_seq. lia.
Qed.

(** C4: the code at the failing input.  The loop goes on after a
    decoration has been cut, and a later table entry cuts the next one:
    with three stacked decorations in reverse table order one call removes
    all three, where the claim (and the repository's tests) keep the inner
    two in the song. *)
Theorem three_decorations_all_removed :
  song (parseVideoTitle "Artist - Song (4K) (HD) (Official Video)" "")
    = Some "song"%string
  /\ song (parseVideoTitle "Artist - Song (4K) (HD) (Official Video)" "")
     <> Some "song (4k) (hd)"%string.
Proof. split; [reflexivity | vm_compute; discriminate]. Qed.

(** What the loop does in general: one call tries every table entry once,
    in table order, on the text the earlier entries left.  For a title
    that ends in two decorations, the inner one being entry [j] and the
    outer one entry [k]: when [j <= k] only the outer one is removed,
    whatever stands before them; when [k < j] both are removed, and the
    entries after [j] are then tried on the rest. *)
Theorem cleanTitle_stacked (base Dj Dk : string) (j k : nat) :
  COMMON_SUFFIXES !! j = Some (toLowerCase Dj) ->
  COMMON_SUFFIXES !! k = Some (toLowerCase Dk) ->
  cleanTitle (base +:+ Dj +:+ " " +:+ Dk) =
    if (j <=? k)%nat then
      collapse_spaces (trim (toLowerCase (base +:+ Dj +:+ " ")))
    else
      collapse_spaces
        (trim (remove_suffixes (drop (S j) COMMON_SUFFIXES) (toLowerCase base))).
Proof.
  intros Hj Hk. pose proof (check_pair_true _ _ _ _ Hj Hk) as Hc.
  unfold check_pair in Hc. rewrite Hj, Hk in Hc. cbv zeta in Hc.
  unfold cleanTitle. rewrite !toLowerCase_app.
  change (toLowerCase " ") with " "%string.
  destruct (j <=? k)%nat; apply bool_decide_eq_true in Hc.
  - now rewrite (remove_suffixes_tail_ok _ _ _ Hc).
  - rewrite <- (take_drop (S j) COMMON_SUFFIXES) at 1.
    rewrite remove_suffixes_app, (remove_suffixes_tail_ok _ _ _ Hc).
    now rewrite append_nil_r.
Qed.

Lemma cleanTitle_stacked_witness :
  cleanTitle "Artist - Song (Official Video) (HD) (4K)"
    = "artist - song (official video) (hd)"%string
  /\ cleanTitle "Artist - Song (4K) (Official Video)" = "artist - song"%string.
Proof.
  split.
  - exact (cleanTitle_stacked "Artist - Song (Official Video) " "(HD)" "(4K)"
             10 11 eq_refl eq_refl).
  - exact (cleanTitle_stacked "Artist - Song " "(4K)" "(Official Video)"
             11 0 eq_refl eq_refl).
Defined.

(** *** The shape of what the parser returns *)

Lemma all_chars_remove_at_end P spaces literal s :
  all_chars P s = true -> all_chars P (remove_at_end spaces literal s) = true.
Proof.
  induction s as [| c s IH]; cbn [remove_at_end all_chars].
  - now destruct (ends_here spaces literal "").
  - intros H. apply andb_true_iff in H as [Hc Hs].
    destruct (ends_here spaces literal (String c s)); [reflexivity |].
    cbn [all_chars]. now rewrite Hc, IH.
Qed.

Lemma all_chars_remove_suffixes P suffixes : forall s,
  all_chars P s = true -> all_chars P (remove_suffixes suffixes s) = true.
Proof.
  unfold remove_suffixes.
  induction suffixes as [| suffix suffixes IH]; intros s H; [exact H |].
  cbn [fold_left]. now apply IH, all_chars_remove_at_end.
Qed.

(** X9: what [cleanTitle] returns is in normal form: lower case, without
    white space at either end, and with single spaces for all the white
    space inside; lower-casing, trimming or collapsing it again changes
    nothing. *)
Theorem cleanTitle_normal_form (title : string) :
  toLowerCase (cleanTitle title) = cleanTitle title
  /\ trim (cleanTitle title) = cleanTitle title
  /\ collapse_spaces (cleanTitle title) = cleanTitle title.
Proof.
  unfold cleanTitle. split; [| split].
  - apply JSFacts.toLowerCase_fixed.
    apply JSFacts.all_chars_collapse_from; [reflexivity |].
    apply JSFacts.all_chars_trim, all_chars_remove_suffixes.
    apply JSFacts.all_chars_toLowerCase.
  - apply JSFacts.trim_collapse_trim.
  - apply JSFacts.collapse_spaces_idem.
Qed.

Lemma calculateConfidence_range artist song channelTitle :
  (0.5 <= calculateConfidence artist song channelTitle <= 1)%Q.
Proof.
  unfold calculateConfidence.
  destruct (truthy_string artist && truthy_string song
            && negb (toLowerCase artist =? toLowerCase song)%string);
    destruct (truthy_string artist && truthy_string channelTitle);
    try destruct (includes (toLowerCase channelTitle) (toLowerCase artist)
                  || includes (toLowerCase artist) (toLowerCase channelTitle));
    destruct (truthy_string artist && truthy_string song
              && (2 <? String.length artist)%nat
              && (2 <? String.length song)%nat);
    split; vm_compute; discriminate.
Qed.

Lemma parsed_ladder a s channelTitle :
  is_Some (artist (parsed a s channelTitle))
  /\ is_Some (song (parsed a s channelTitle))
  /\ (0.5 <= confidence (parsed a s channelTitle) <= 1)%Q.
Proof.
  split; [cbn; eauto |]. split; [cbn; eauto |].
  apply calculateConfidence_range.
Qed.

(** X10: the confidence of a parse tells which branch produced it.  An
    empty title gives no artist, no song and 0.  For any other title the
    four patterns are tried on the cleaned title, in the order dash, by,
    colon, pipe: the first one that matches gives its two groups, trimmed,
    for artist and song, and a confidence from 0.5 to 1; when none matches
    the song is the cleaned title, with 0.4 and an artist when there is a
    channel name, and 0.3 and no artist when there is none.  So the
    confidence is 0.5 or more exactly when a pattern matched, and 0.4, 0.3
    or 0 exactly in the three other cases. *)
Theorem parseVideoTitle_ladder (title channelTitle : string) :
  let r := parseVideoTitle title channelTitle in
  let matched := first_pattern (cleanTitle title) in
  (if truthy_string title then
     match matched with
     | Some (a, s) =>
         artist r = Some (trim a) /\ song r = Some (trim s)
         /\ confidence r = calculateConfidence (trim a) (trim s) channelTitle
         /\ (0.5 <= confidence r <= 1)%Q
     | None =>
         song r = Some (cleanTitle title)
         /\ if truthy_string channelTitle
            then is_Some (artist r) /\ confidence r = 0.4%Q
            else artist r = None /\ confidence r = 0.3%Q
     end
   else artist r = None /\ song r = None /\ confidence r = 0%Q)
  /\ ((0.5 <= confidence r)%Q
      <-> truthy_string title = true /\ is_Some matched)
  /\ ((confidence r == 0.4)%Q
      <-> truthy_string title = true /\ matched = None
          /\ truthy_string channelTitle = true)
  /\ ((confidence r == 0.3)%Q
      <-> truthy_string title = true /\ matched = None
          /\ truthy_string channelTitle = false)
  /\ ((confidence r == 0)%Q <-> truthy_string title = false).
Proof.
  cbn zeta. unfold parseVideoTitle, first_pattern.
  destruct title as [| c title].
  { cbn [truthy_string negb artist song confidence].
    split; [auto |].
    split; [split; [intros H; lra | intros [H _]; discriminate H] |].
    split; [split; [intros H; lra | intros [H _]; discriminate H] |].
    split; [split; [intros H; lra | intros [H _]; discriminate H] |].
    split; reflexivity. }
  cbn [truthy_string negb].
  set (cleaned := cleanTitle (String c title)).
  assert (Hmatch : forall a s,
            let r := parsed (trim a) (trim s) channelTitle in
            (artist r = Some (trim a) /\ song r = Some (trim s)
             /\ confidence r = calculateConfidence (trim a) (trim s) channelTitle
             /\ (0.5 <= confidence r <= 1)%Q)
            /\ ((0.5 <= confidence r)%Q
                <-> true = true /\ is_Some (Some (a, s)))
            /\ ((confidence r == 0.4)%Q
                <-> true = true /\ Some (a, s) = None
                    /\ truthy_string channelTitle = true)
            /\ ((confidence r == 0.3)%Q
                <-> true = true /\ Some (a, s) = None
                    /\ truthy_string channelTitle = false)
            /\ ((confidence r == 0)%Q <-> true = false)).
  { intros a s. cbn zeta. cbn [parsed artist song confidence].
    pose proof (calculateConfidence_range (trim a) (trim s) channelTitle) as Hc.
    set (q := calculateConfidence (trim a) (trim s) channelTitle) in *.
    clearbody q.
    split; [auto |].
    split; [split; [intros _; split; eauto | intros _; lra] |].
    split; [split; [intros H; lra | intros (_ & H & _); discriminate H] |].
    split; [split; [intros H; lra | intros (_ & H & _); discriminate H] |].
    split; [intros H; lra | discriminate]. }
  destruct (separator_pattern "-" cleaned) as [[g1 g2] |]; [apply Hmatch |].
  destruct (by_pattern cleaned) as [[g1 g2] |]; [apply Hmatch |].
  destruct (separator_pattern ":" cleaned) as [[g1 g2] |]; [apply Hmatch |].
  destruct (separator_pattern "|" cleaned) as [[g1 g2] |]; [apply Hmatch |].
  destruct channelTitle as [| d channelTitle];
    cbn [truthy_string artist song confidence].
  - split; [auto |].
    split; [split; [intros H; lra | intros [_ [x Hx]]; discriminate Hx] |].
    split; [split; [intros H; lra | intros (_ & _ & H); discriminate H] |].
    split; [split; [auto | reflexivity] |].
    split; [intros H; lra | discriminate].
  - split; [split; [reflexivity | split; [eauto | reflexivity]] |].
    split; [split; [intros H; lra | intros [_ [x Hx]]; discriminate Hx] |].
    split; [split; [auto | reflexivity] |].
    split; [split; [intros H; lra | intros (_ & _ & H); discriminate H] |].
    split; [intros H; lra | discriminate].
Qed.

(** *** Ids in URLs *)

Lemma strip_prefix_app literal rest :
  strip_prefix literal (literal +:+ rest) = Some rest.
Proof.
  induction literal as [| a literal IH]; [reflexivity |].
  rewrite JSFacts.append_cons. cbn [strip_prefix].
  now rewrite Ascii.eqb_refl.
Qed.

Lemma all_chars_id_run s : all_chars is_id_char (id_run s) = true.
Proof.
  induction s as [| c s IH]; [reflexivity |].
  cbn [id_run]. destruct (is_id_char c) eqn:Hc; [| reflexivity].
  cbn [all_chars]. now rewrite Hc, IH.
Qed.

Lemma id_run_app id rest :
  all_chars is_id_char id = true -> stops rest = true ->
  id_run (id +:+ rest) = id.
Proof.
  intros Hid Hrest. induction id as [| c id IH].
  - rewrite JSFacts.append_nil. destruct rest as [| d rest]; [reflexivity |].
    cbn [id_run]. cbn in Hrest. apply negb_true_iff in Hrest. now rewrite Hrest.
  - cbn [all_chars] in Hid. apply andb_true_iff in Hid as [Hc Hid].
    rewrite JSFacts.append_cons. cbn [id_run]. now rewrite Hc, IH.
Qed.

Lemma id_after_app literal id rest :
  is_id id = true -> stops rest = true ->
  id_after literal (literal +:+ id +:+ rest) = Some id.
Proof.
  intros Hid Hrest. apply andb_true_iff in Hid as [Hne Hid].
  unfold id_after. rewrite strip_prefix_app, (id_run_app _ _ Hid Hrest).
  now destruct id.
Qed.

Lemma id_after_id literal s id : id_after literal s = Some id -> is_id id = true.
Proof.
  unfold id_after. destruct (strip_prefix literal s) as [rest |]; [| discriminate].
  pose proof (all_chars_id_run rest) as Hrun.
  destruct (id_run rest) as [| c r]; [discriminate |].
  intros H. injection H as <-. unfold is_id. now rewrite Hrun.
Qed.

Lemma query_param_id name s id : query_param name s = Some id -> is_id id = true.
Proof.
  unfold query_param. destruct s as [| c s]; [discriminate |].
  destruct (Ascii.eqb c "?" || Ascii.eqb c "&"); [| discriminate].
  apply id_after_id.
Qed.

Lemma first_match_sound (here : string -> option string) (P : string -> Prop) :
  (forall s g, here s = Some g -> P g) ->
  forall s g, first_match here s = Some g -> P g.
Proof.
  intros Hhere. induction s as [| c s IH]; intros g; cbn [first_match].
  - destruct (here "") eqn:E; [| discriminate].
    intros H. injection H as <-. eauto.
  - destruct (here (String c s)) eqn:E; [| apply IH].
    intros H. injection H as <-. eauto.
Qed.

Lemma first_match_here (here : string -> option string) s g :
  here s = Some g -> first_match here s = Some g.
Proof. intros H. destruct s; cbn [first_match]; now rewrite H. Qed.

Lemma first_match_query_skip name base rest :
  all_chars no_separator base = true ->
  first_match (query_param name) (base +:+ rest)
  = first_match (query_param name) rest.
Proof.
  induction base as [| c base IH]; [reflexivity |].
  cbn [all_chars]. intros H. apply andb_true_iff in H as [Hc Hbase].
  rewrite JSFacts.append_cons. cbn [first_match query_param].
  unfold no_separator in Hc. apply negb_true_iff in Hc. rewrite Hc.
  now apply IH.
Qed.

Lemma id_char_no_separator c : is_id_char c = true -> no_separator c = true.
Proof.
  destruct c as [[] [] [] [] [] [] [] []]; intros H;
    solve [reflexivity | vm_compute in H; discriminate H].
Qed.

(** X11: the two extractors return ids only: what either of them gives is
    a non-empty text of letters, digits, [_] and [-]. *)
Theorem extracted_ids_are_ids (url : string) :
  (forall id, extractPlaylistId url = Some id -> is_id id = true)
  /\ (forall id, extractVideoId url = Some id -> is_id id = true).
Proof.
  split; intros id.
  - unfold extractPlaylistId. destruct (negb (truthy_string url)); [discriminate |].
    apply (first_match_sound _ (fun g => is_id g = true)).
    intros s g. apply query_param_id.
  - unfold extractVideoId. destruct (negb (truthy_string url)); [discriminate |].
    destruct (first_match (query_param "v") url) as [g |] eqn:E1.
    { intros H. injection H as <-. revert E1.
      apply (first_match_sound _ (fun g => is_id g = true)).
      intros s g'. apply query_param_id. }
    destruct (first_match (id_after "youtu.be/") url) as [g |] eqn:E2.
    { intros H. injection H as <-. revert E2.
      apply (first_match_sound _ (fun g => is_id g = true)).
      intros s g'. apply id_after_id. }
    apply (first_match_sound _ (fun g => is_id g = true)).
    intros s g'. apply id_after_id.
Qed.

Lemma extracted_ids_are_ids_witness :
  extractVideoId "https://youtu.be/dQw4w9WgXcQ?t=42" = Some "dQw4w9WgXcQ"
  /\ is_id "dQw4w9WgXcQ" = true.
Proof.
  split; [reflexivity |].
  exact (proj2 (extracted_ids_are_ids "https://youtu.be/dQw4w9WgXcQ?t=42")
           "dQw4w9WgXcQ" eq_refl).
Defined.

(** X12: round trip on a watch URL that names a playlist.  For a base
    without [?] and [&], a video id and a playlist id, the URL
    [base?v=VIDEO&list=PLAYLIST] followed by anything that does not go on
    with an id character gives both ids back. *)
Theorem watch_url_round_trip (base video playlist rest : string) :
  all_chars no_separator base = true ->
  is_id video = true -> is_id playlist = true -> stops rest = true ->
  let url := base +:+ "?v=" +:+ video +:+ "&list=" +:+ playlist +:+ rest in
  extractVideoId url = Some video /\ extractPlaylistId url = Some playlist.
Proof.
  intros Hbase Hvideo Hplaylist Hrest url.
  assert (Hurl : truthy_string url = true).
  { subst url. destruct base; [reflexivity | reflexivity]. }
  unfold extractVideoId, extractPlaylistId. rewrite Hurl. cbn [negb].
  subst url. rewrite !(first_match_query_skip _ base) by exact Hbase.
  split.
  - rewrite (first_match_here _ _ video); [reflexivity |].
    change ("?v=" +:+ video +:+ "&list=" +:+ playlist +:+ rest)
      with (String "?" ("v=" +:+ video +:+ "&list=" +:+ playlist +:+ rest)).
    cbn [query_param Ascii.eqb orb]. 
    change ("v" +:+ "=") with "v=".
    now apply id_after_app.
  - change ("?v=" +:+ video +:+ "&list=" +:+ playlist +:+ rest)
      with (String "?" (String "v" (String "="
              (video +:+ "&list=" +:+ playlist +:+ rest)))).
    cbn [first_match query_param].
    change (Ascii.eqb "?" "?" || Ascii.eqb "?" "&") with true. cbn iota.
    change (id_after ("list" +:+ "=") (String "v" (String "="
              (video +:+ "&list=" +:+ playlist +:+ rest)))) with (@None string).
    cbn iota.
    change (Ascii.eqb "v" "?" || Ascii.eqb "v" "&") with false. cbn iota.
    change (Ascii.eqb "=" "?" || Ascii.eqb "=" "&") with false. cbn iota.
    apply andb_true_iff in Hvideo as [_ Hvideo].
    rewrite first_match_query_skip
      by (eapply JSFacts.all_chars_weaken;
          [apply id_char_no_separator | exact Hvideo]).
    apply first_match_here.
    change ("&list=" +:+ playlist +:+ rest)
      with (String "&" ("list=" +:+ playlist +:+ rest)).
    cbn [query_param].
    change (Ascii.eqb "&" "?" || Ascii.eqb "&" "&") with true. cbn iota.
    change ("list" +:+ "=") with "list=".
    now apply id_after_app.
Qed.

Lemma watch_url_round_trip_witness :
  let url := "https://www.youtube.com/watch?v=dQw4w9WgXcQ&list=PL_x-1&index=2" in
  extractVideoId url = Some "dQw4w9WgXcQ"
  /\ extractPlaylistId url = Some "PL_x-1".
Proof.
  exact (watch_url_round_trip "https://www.youtube.com/watch" "dQw4w9WgXcQ"
           "PL_x-1" "&index=2" eq_refl eq_refl eq_refl eq_refl).
Defined.

End TitleParserFacts.

(** ** Facts about services/genre-audio-analyzer.service.js *)

Module GenreAudioAnalyzerFacts.
Import JS JSFacts GenreAudioAnalyzer.

Local Open Scope Q_scope.

Example genreMap_size : length genreMap = 43%nat.
Proof. reflexivity. Qed.

Example metal_tags_energy :
  0.9 <= energy (inferAudioFeatures (Some "Metallica") (Some "One")
                   ["metal"; "heavy metal"]).
Proof. vm_compute. discriminate. Qed.

Example keywords_compose :
  let f := inferAudioFeatures (Some "x") (Some "Happy Sad Acoustic Power Chill")
             ["jazz"] in
  energy f == 0.35 /\ tempo f == 85 /\ loudness f == -10
  /\ valence f == 0.45 /\ acousticness f == 1.
Proof. vm_compute. repeat split. Qed.

Example word_boundaries :
  matches_words sad_words "so sad." = true
  /\ matches_words sad_words "sadness" = false
  /\ matches_words sad_words "nomad sadly" = false
  /\ matches_words sad_words "un_sad" = false
  /\ matches_words sad_words "very-blue" = true.
Proof. repeat split. Qed.

Example names_fallback :
  let f := inferAudioFeatures (Some "Mozart") (Some "Requiem") [] in
  acousticness f == 0.95 /\ confidence f == 0.3 /\ source f = None.
Proof. vm_compute. repeat split. Qed.

(** *** Minimum, maximum and rounding *)

Lemma Math_min_cases a b :
  (Math_min a b = a /\ a <= b) \/ (Math_min a b = b /\ b <= a).
Proof.
  unfold Math_min. destruct (Qle_bool a b) eqn:E.
  - left. split; [reflexivity | now apply Qle_bool_iff].
  - right. split; [reflexivity |].
    destruct (Qlt_le_dec b a) as [H | H]; [now apply Qlt_le_weak |].
    apply Qle_bool_iff in H. congruence.
Qed.

Lemma Math_max_cases a b :
  (Math_max a b = b /\ a <= b) \/ (Math_max a b = a /\ b <= a).
Proof.
  unfold Math_max. destruct (Qle_bool a b) eqn:E.
  - left. split; [reflexivity | now apply Qle_bool_iff].
  - right. split; [reflexivity |].
    destruct (Qlt_le_dec b a) as [H | H]; [now apply Qlt_le_weak |].
    apply Qle_bool_iff in H. congruence.
Qed.

Lemma Math_round_bounds (lo hi : Z) (q : Q) :
  inject_Z lo <= q <= inject_Z hi ->
  inject_Z lo <= inject_Z (Math_round q) <= inject_Z hi.
Proof.
  intros [Hlo Hhi]. unfold Math_round.
  rewrite <- !Zle_Qle. split.
  - rewrite <- (Qfloor_Z lo). apply Qfloor_resp_le. lra.
  - assert (H : (Qfloor (q + (1 # 2)) < hi + 1)%Z); [| lia].
    rewrite Zlt_Qlt, inject_Z_plus. change (inject_Z 1) with 1.
    pose proof (Qfloor_le (q + (1 # 2))). lra.
Qed.

(** *** Sums and means over the matched profiles *)

Lemma fold_total f l : forall a,
  fold_left (fun acc features => acc + f features) l a == a + total f l.
Proof.
  unfold total. induction l as [| p l IH]; intros a; cbn [fold_left].
  - lra.
  - rewrite (IH (a + f p)), (IH (0 + f p)). lra.
Qed.

Lemma total_cons f p l : total f (p :: l) == f p + total f l.
Proof. unfold total at 1. cbn [fold_left]. rewrite fold_total. lra. Qed.

Lemma total_app f l1 l2 : total f (l1 ++ l2) == total f l1 + total f l2.
Proof.
  induction l1 as [| p l1 IH]; cbn [app].
  - change (total f []) with 0. lra.
  - rewrite !total_cons, IH. lra.
Qed.

Lemma size_of_cons p l : size_of (p :: l) == 1 + size_of l.
Proof.
  unfold size_of. cbn [length]. rewrite Nat2Z.inj_succ, <- Z.add_1_l.
  rewrite inject_Z_plus. reflexivity.
Qed.

Lemma size_of_app l1 l2 : size_of (l1 ++ l2) == size_of l1 + size_of l2.
Proof.
  induction l1 as [| p l1 IH]; cbn [app].
  - change (size_of []) with 0. lra.
  - rewrite !size_of_cons, IH. lra.
Qed.

Lemma size_of_pos p l : 0 < size_of (p :: l).
Proof.
  unfold size_of. change 0 with (inject_Z 0). rewrite <- Zlt_Qlt.
  cbn [length]. lia.
Qed.

Lemma total_bounds (lo hi : Q) f l :
  Forall (fun p => lo <= f p <= hi) l ->
  lo * size_of l <= total f l <= hi * size_of l.
Proof.
  induction 1 as [| p l [Hlo Hhi] _ [IHlo IHhi]].
  - change (total f []) with 0. change (size_of []) with 0. lra.
  - rewrite total_cons, size_of_cons. lra.
Qed.

Lemma mean_bounds (lo hi : Q) f l :
  l <> [] ->
  Forall (fun p => lo <= f p <= hi) l ->
  lo <= total f l / size_of l <= hi.
Proof.
  intros Hne HF. destruct l as [| p l]; [congruence |].
  destruct (total_bounds lo hi f _ HF) as [Hlo Hhi].
  pose proof (size_of_pos p l) as Hpos. split.
  - now apply Qle_shift_div_l.
  - now apply Qle_shift_div_r.
Qed.

Lemma mean_upper (hi : Q) f l :
  l <> [] -> total f l <= hi * size_of l -> total f l / size_of l <= hi.
Proof.
  intros Hne H. destruct l as [| p l]; [congruence |].
  apply Qle_shift_div_r; [apply size_of_pos | exact H].
Qed.

Lemma Forall_matched (P : Profile -> Prop) (test : string * Profile -> bool) table :
  Forall P (map snd table) -> Forall P (map snd (List.filter test table)).
Proof.
  induction table as [| kv table IH]; cbn [map List.filter]; intros H;
    [constructor |].
  inversion H as [| ? ? Hkv Hrest]; subst.
  destruct (test kv); cbn [map]; [constructor |]; auto.
Qed.

(** *** The genre table *)

Lemma table_boundsb_ok p : table_boundsb p = true -> table_bounds p.
Proof.
  unfold table_boundsb, table_bounds. rewrite !andb_true_iff, !Qle_bool_iff.
  tauto.
Qed.

Lemma Forall_of_forallb {A} (test : A -> bool) (P : A -> Prop) (l : list A) :
  (forall x, test x = true -> P x) -> forallb test l = true -> Forall P l.
Proof.
  intros Hok. induction l as [| x l IH]; cbn [forallb]; intros H;
    [constructor |].
  apply andb_true_iff in H as [Hx Hl]. constructor; auto.
Qed.

Lemma genreMap_bounds : Forall table_bounds (map snd genreMap).
Proof.
  apply (Forall_of_forallb table_boundsb); [apply table_boundsb_ok |].
  vm_compute. reflexivity.
Qed.

Lemma genreMap_split : genreMap = (metal_entries ++ other_entries)%list.
Proof. reflexivity. Qed.

Lemma other_entries_loudness :
  Forall (fun p => -18 <= p_loudness p <= -4) (map snd other_entries).
Proof.
  apply (Forall_of_forallb
           (fun p => Qle_bool (-18) (p_loudness p) && Qle_bool (p_loudness p) (-4))).
  - intros p H. apply andb_true_iff in H as [H1 H2].
    now rewrite <- !Qle_bool_iff.
  - vm_compute. reflexivity.
Qed.

Lemma death_metal_is_metal s :
  includes s "death metal" = true -> includes s "metal" = true.
Proof. intros H. apply (includes_trans _ _ _ H). reflexivity. Qed.

Lemma matched_loudness_total genres :
  total p_loudness (matchedFeatures genres)
    <= -4 * size_of (matchedFeatures genres).
Proof.
  unfold matchedFeatures.
  set (s := toLowerCase (join " " genres)).
  rewrite genreMap_split, List.filter_app, map_app, total_app, size_of_app.
  pose proof (Forall_matched _ (fun kv => includes s kv.1) _
                other_entries_loudness) as Hrest.
  apply total_bounds in Hrest as [_ Hrest].
  set (rest := map snd (List.filter _ other_entries)) in *.
  assert (Hmetal :
    total p_loudness (map snd (List.filter (fun kv => includes s kv.1) metal_entries))
    <= -4 * size_of (map snd (List.filter (fun kv => includes s kv.1) metal_entries))).
  { unfold metal_entries. cbn [List.filter fst].
    pose proof (death_metal_is_metal s) as Hdm.
    destruct (includes s "metal"); destruct (includes s "heavy metal");
      destruct (includes s "death metal"); cbn [map snd];
      try (specialize (Hdm eq_refl); discriminate Hdm);
      vm_compute; discriminate. }
  lra.
Qed.

Lemma matched_bounds genres : Forall table_bounds (matchedFeatures genres).
Proof. unfold matchedFeatures. apply Forall_matched, genreMap_bounds. Qed.

Lemma analyzeGenres_within genres : profile_within (-4) (analyzeGenres genres).
Proof.
  unfold analyzeGenres.
  pose proof (matched_bounds genres) as HF.
  pose proof (matched_loudness_total genres) as Hloud.
  destruct (matchedFeatures genres) as [| p l] eqn:E.
  - vm_compute. intuition discriminate.
  - set (matched := p :: l) in *.
    assert (Hne : matched <> []) by discriminate.
    fold (size_of matched).
    unfold profile_within.
    cbn [p_energy p_tempo p_danceability p_loudness p_valence p_acousticness].
    assert (He : 0.2 <= total p_energy matched / size_of matched <= 1).
    { apply mean_bounds; [exact Hne |].
      eapply Forall_impl; [exact HF |]. unfold table_bounds. tauto. }
    assert (Ht : inject_Z 70 <= total p_tempo matched / size_of matched
                 <= inject_Z 180).
    { apply mean_bounds; [exact Hne |].
      eapply Forall_impl; [exact HF |]. unfold table_bounds. tauto. }
    apply Math_round_bounds in Ht.
    assert (Hd : 0.2 <= total p_danceability matched / size_of matched <= 0.92).
    { apply mean_bounds; [exact Hne |].
      eapply Forall_impl; [exact HF |]. unfold table_bounds. tauto. }
    assert (Hl : -18 <= total p_loudness matched / size_of matched <= -3).
    { apply mean_bounds; [exact Hne |].
      eapply Forall_impl; [exact HF |]. unfold table_bounds. tauto. }
    pose proof (mean_upper (-4) p_loudness matched Hne Hloud) as Hl4.
    assert (Hv : 0.3 <= total p_valence matched / size_of matched <= 0.8).
    { apply mean_bounds; [exact Hne |].
      eapply Forall_impl; [exact HF |]. unfold table_bounds. tauto. }
    assert (Ha : 0.02 <= total p_acousticness matched / size_of matched <= 0.95).
    { apply mean_bounds; [exact Hne |].
      eapply Forall_impl; [exact HF |]. unfold table_bounds. tauto. }
    change (inject_Z 70) with 70 in Ht. change (inject_Z 180) with 180 in Ht.
    repeat split; lra.
Qed.

Lemma inferFromNames_within artist song :
  profile_within (-4) (inferFromNames artist song).
Proof.
  unfold inferFromNames.
  destruct (matches_words classical_words _);
    [| destruct (matches_words electronic_words _)];
    vm_compute; intuition discriminate.
Qed.

(** *** The keyword adjustments keep a vector within its bounds *)

Ltac min_max_cases :=
  repeat match goal with
    | |- context [Math_min ?a ?b] =>
        destruct (Math_min_cases a b) as [[-> ?] | [-> ?]]
    | |- context [Math_max ?a ?b] =>
        destruct (Math_max_cases a b) as [[-> ?] | [-> ?]]
    end.

Lemma energetic_step_within f : within (-4) f -> within (-4) (energetic_step f).
Proof.
  unfold within, energetic_step. cbn. intros H. min_max_cases; lra.
Qed.

Lemma chill_step_within f : within (-4) f -> within (-4) (chill_step f).
Proof.
  unfold within, chill_step. cbn. intros H. min_max_cases; lra.
Qed.

Lemma happy_step_within f : within (-4) f -> within (-4) (happy_step f).
Proof.
  unfold within, happy_step. cbn. intros H. min_max_cases; lra.
Qed.

Lemma sad_step_within f : within (-4) f -> within (-4) (sad_step f).
Proof.
  unfold within, sad_step. cbn. intros H. min_max_cases; lra.
Qed.

Lemma acoustic_step_within f : within (-4) f -> within (-4) (acoustic_step f).
Proof.
  unfold within, acoustic_step. cbn. intros H. min_max_cases; lra.
Qed.

Lemma when_within cond step f :
  (forall g, within (-4) g -> within (-4) (step g)) ->
  within (-4) f -> within (-4) (when cond step f).
Proof. intros Hstep Hf. unfold when. destruct cond; auto. Qed.

Lemma adjustForTitleKeywords_within song f :
  within (-4) f -> within (-4) (adjustForTitleKeywords song f).
Proof.
  intros Hf. unfold adjustForTitleKeywords.
  destruct song as [[| c song] |]; try exact Hf.
  repeat (apply when_within;
          [first [ exact energetic_step_within | exact chill_step_within
                 | exact happy_step_within | exact sad_step_within
                 | exact acoustic_step_within ] |]).
  exact Hf.
Qed.

(** The adjustments never touch [confidence]. *)
Lemma adjustForTitleKeywords_confidence song f :
  confidence (adjustForTitleKeywords song f) = confidence f.
Proof.
  unfold adjustForTitleKeywords.
  destruct song as [[| c song] |]; try reflexivity.
  unfold when.
  repeat match goal with |- context [if ?b then _ else _] => destruct b end;
    reflexivity.
Qed.

Lemma spread_within top f p : profile_within top p -> within top (spread f p).
Proof. intros H. exact H. Qed.

(** C1, as stated, fails on the loudness: six table entries are louder than
    -5 dB, and the mean of the matched profiles is returned as it is. *)
Lemma edm_louder_than_minus_5 :
  let f := inferAudioFeatures (Some "Skrillex") (Some "Bangarang") ["edm"] in
  loudness f == -4 /\ ~ within (-5) f.
Proof.
  split; [reflexivity |].
  unfold within. intros (_ & _ & _ & [_ H] & _). vm_compute in H.
  now apply H.
Qed.

(** C1 (amended): for every artist, song and tag list, the empty list
    included, the vector [inferAudioFeatures] returns has all six
    dimensions (the result is a total record) with energy, danceability,
    valence and acousticness in [0,1], tempo in [60,200] and loudness in
    [-30,-4]. *)
Theorem inferAudioFeatures_within
    (artist song : option string) (genres : list string) :
  within (-4) (inferAudioFeatures artist song genres).
Proof.
  unfold inferAudioFeatures.
  destruct (length genres =? 0)%nat.
  - exact (inferFromNames_within artist song).
  - assert (H : forall c f, within (-4) f -> within (-4) (set_confidence c f))
      by (intros c f Hf; exact Hf).
    apply H, adjustForTitleKeywords_within, spread_within, analyzeGenres_within.
Qed.

(** C2, as stated, fails: the confidence counts the tags given, not the
    profiles matched.  One tag "heavy metal" matches two profiles ("metal"
    and "heavy metal") and gets 0.6; one unknown tag matches none and gets
    0.6 as well. *)
Lemma confidence_not_by_matched_profiles :
  let f := inferAudioFeatures (Some "a") (Some "b") ["heavy metal"] in
  let g := inferAudioFeatures (Some "a") (Some "b") ["zzz"] in
  length (matchedFeatures ["heavy metal"]) = 2%nat
  /\ confidence f == 0.6
  /\ ~ confidence f == spec_confidence (length (matchedFeatures ["heavy metal"]))
  /\ length (matchedFeatures ["zzz"]) = 0%nat
  /\ ~ confidence g == spec_confidence (length (matchedFeatures ["zzz"])).
Proof.
  split; [reflexivity |]. split; [reflexivity |].
  split; [vm_compute; discriminate |].
  split; [reflexivity | vm_compute; discriminate].
Qed.

(** C2 (amended): for a non-empty tag list the confidence is the step
    function of the number of tags given, 1 giving 0.6, 2 giving 0.7 and 3
    or more giving 0.8, whatever the song title and however many profiles
    the tags match. *)
Theorem confidence_by_tag_count
    (artist song : option string) (genres : list string) :
  genres <> [] ->
  confidence (inferAudioFeatures artist song genres)
  = spec_confidence (length genres).
Proof.
  intros Hne. unfold inferAudioFeatures.
  destruct genres as [| g1 [| g2 [| g3 rest]]]; [congruence | | |];
    reflexivity.
Qed.

Lemma confidence_by_tag_count_witness :
  confidence (inferAudioFeatures (Some "a") (Some "Happy Power Song")
                ["heavy metal"; "jazz"])
  = 0.7.
Proof.
  apply (confidence_by_tag_count (Some "a") (Some "Happy Power Song")
           ["heavy metal"; "jazz"]).
  discriminate.
Defined.

Lemma inferAudioFeatures_bounds
    (artist song : option string) (genres : list string) :
  within (-4) (inferAudioFeatures artist song genres).
Proof.
  unfold inferAudioFeatures.
  destruct (length genres =? 0)%nat.
  - exact (inferFromNames_within artist song).
  - assert (H : forall c f, within (-4) f -> within (-4) (set_confidence c f))
      by (intros c f Hf; exact Hf).
    apply H, adjustForTitleKeywords_within, spread_within, analyzeGenres_within.
Qed.

(** *** Case *)

Lemma toLowerCase_join sep parts :
  toLowerCase (join sep parts) = join (toLowerCase sep) (map toLowerCase parts).
Proof.
  induction parts as [| p [| q rest] IH]; [reflexivity | reflexivity |].
  change (join sep (p :: q :: rest)) with (p +:+ sep +:+ join sep (q :: rest)).
  change (map toLowerCase (p :: q :: rest))
    with (toLowerCase p :: map toLowerCase (q :: rest)).
  change (map toLowerCase (q :: rest))
    with (toLowerCase q :: map toLowerCase rest) at 1.
  change (join (toLowerCase sep)
            (toLowerCase p :: toLowerCase q :: map toLowerCase rest))
    with (toLowerCase p +:+ toLowerCase sep
          +:+ join (toLowerCase sep) (toLowerCase q :: map toLowerCase rest)).
  rewrite !toLowerCase_app, IH. reflexivity.
Qed.

Lemma matchedFeatures_case genres :
  matchedFeatures (map toLowerCase genres) = matchedFeatures genres.
Proof.
  unfold matchedFeatures.
  rewrite (toLowerCase_join " " (map toLowerCase genres)).
  rewrite (toLowerCase_join " " genres).
  rewrite map_map.
  rewrite (map_ext (fun x => toLowerCase (toLowerCase x)) toLowerCase)
    by apply toLowerCase_idem.
  reflexivity.
Qed.

Lemma adjustForTitleKeywords_case song f :
  adjustForTitleKeywords (toLowerCase <$> song) f = adjustForTitleKeywords song f.
Proof.
  destruct song as [[| c s] |]; [reflexivity | | reflexivity].
  change (toLowerCase <$> Some (String c s))
    with (Some (String (lower_char c) (toLowerCase s))).
  unfold adjustForTitleKeywords.
  change (String (lower_char c) (toLowerCase s)) with (toLowerCase (String c s)).
  rewrite toLowerCase_idem. reflexivity.
Qed.

Lemma template_text_case s :
  toLowerCase (template_text (toLowerCase <$> s)) = toLowerCase (template_text s).
Proof. destruct s as [s |]; [apply toLowerCase_idem | reflexivity]. Qed.

Lemma inferFromNames_case artist song :
  inferFromNames (toLowerCase <$> artist) (toLowerCase <$> song)
  = inferFromNames artist song.
Proof.
  unfold inferFromNames.
  rewrite !toLowerCase_app, !template_text_case. reflexivity.
Qed.

(** X13: the analyzer reads its three inputs without regard to case: the
    artist, the song and the tags lower-cased give the features of the
    inputs as they were. *)
Theorem inferAudioFeatures_ignores_case
    (artist song : option string) (genres : list string) :
  inferAudioFeatures (toLowerCase <$> artist) (toLowerCase <$> song)
                     (map toLowerCase genres)
  = inferAudioFeatures artist song genres.
Proof.
  unfold inferAudioFeatures, analyzeGenres, calculateConfidence.
  rewrite length_map, matchedFeatures_case, inferFromNames_case.
  now rewrite adjustForTitleKeywords_case.
Qed.

End GenreAudioAnalyzerFacts.

(** ** Facts about services/feels.calculator.js *)

Module FeelsCalculatorFacts.
Import JS FeelsCalculator.

Local Open Scope Q_scope.

Example score_of_defaults :
  calculateFeelsScore
    (Some {| energy := None; tempo := None; danceability := None;
             loudness := None; valence := None; acousticness := None |}) = 56%Z.
Proof. reflexivity. Qed.

Example score_min_intensity : calculateFeelsScore (Some min_intensity) = 18%Z.
Proof. reflexivity. Qed.

Example score_clamped :
  calculateFeelsScore
    (Some {| energy := Some 2; tempo := Some 300; danceability := Some 2;
             loudness := Some 10; valence := Some 2;
             acousticness := Some (-1) |}) = 100%Z.
Proof. reflexivity. Qed.

Example sort_without_scores :
  map id (Array_sort (compare_videos None)
            [ {| id := "1"; feelsScore := SUndefined |};
              {| id := "2"; feelsScore := SNum 80 |};
              {| id := "3"; feelsScore := SUndefined |} ]) = ["1"; "3"; "2"].
Proof. reflexivity. Qed.

Lemma length_insert_sorted {A} (cmp : A -> A -> Q) x l :
  length (insert_sorted cmp x l) = S (length l).
Proof.
  induction l as [| y l IH]; cbn; [reflexivity |].
  destruct (Qle_bool (cmp x y) 0); cbn; [reflexivity | now rewrite IH].
Qed.

Lemma length_Array_sort {A} (cmp : A -> A -> Q) l :
  length (Array_sort cmp l) = length l.
Proof.
  induction l as [| x l IH]; cbn; [reflexivity |].
  rewrite length_insert_sorted. now f_equal.
Qed.

Lemma insert_sorted_map {A B} (f : A -> B) cmpA cmpB x l :
  (forall a b, cmpB (f a) (f b) = cmpA a b) ->
  insert_sorted cmpB (f x) (map f l) = map f (insert_sorted cmpA x l).
Proof.
  intros Hcmp. induction l as [| y l IH]; cbn; [reflexivity |].
  rewrite Hcmp. destruct (Qle_bool (cmpA x y) 0); cbn; [reflexivity |].
  now rewrite IH.
Qed.

Lemma Array_sort_map {A B} (f : A -> B) cmpA cmpB l :
  (forall a b, cmpB (f a) (f b) = cmpA a b) ->
  Array_sort cmpB (map f l) = map f (Array_sort cmpA l).
Proof.
  intros Hcmp. induction l as [| x l IH]; cbn; [reflexivity |].
  fold (Array_sort cmpB (map f l)). fold (Array_sort cmpA l).
  rewrite IH. now apply insert_sorted_map.
Qed.

(** What the call leaves in the store: the array it returns holds the
    sorted copy, and every array that existed before is as it was. *)
Lemma sortByFeelsScore_store (h : heap) (l : loc) (vs : list Video) order :
  h !! l = Some vs ->
  let r := sortByFeelsScore h (Some l) order in
  r.1 !! r.2 = Some (Array_sort (compare_videos order) vs)
  /\ r.2 <> l
  /\ forall l', is_Some (h !! l') -> r.1 !! l' = h !! l'.
Proof.
  intros Hl. unfold sortByFeelsScore. cbn [mbind option_bind]. rewrite Hl.
  assert (Hfresh : forall l', is_Some (h !! l') -> fresh (dom h) <> l').
  { intros l' Hl' Heq. apply (is_fresh (dom h)). rewrite Heq.
    now apply elem_of_dom. }
  destruct vs as [| v vs]; cbn [alloc fst snd].
  - split; [apply lookup_insert_eq |]. split; [apply Hfresh; eauto |].
    intros l' Hl'. apply lookup_insert_ne. now apply Hfresh.
  - split.
    + rewrite lookup_alter_eq, lookup_insert_eq. reflexivity.
    + split; [apply Hfresh; eauto |].
      intros l' Hl'. rewrite lookup_alter_ne by now apply Hfresh.
      apply lookup_insert_ne. now apply Hfresh.
Qed.

Lemma score_or_50_with_50 v : score_or_50 (with_50 v) = score_or_50 v.
Proof.
  unfold with_50, score_or_50.
  destruct v as [i [| | | | | q]]; cbn; try reflexivity.
  destruct (Qeq_bool q 0) eqn:E; cbn; [reflexivity | now rewrite E].
Qed.

Lemma compare_videos_with_50 order a b :
  compare_videos order (with_50 a) (with_50 b) = compare_videos order a b.
Proof. unfold compare_videos. now rewrite !score_or_50_with_50. Qed.

Lemma scores_with_50 vs : map score_or_50 (map with_50 vs) = map score_or_50 vs.
Proof.
  induction vs as [| v vs IH]; cbn; [reflexivity |].
  now rewrite score_or_50_with_50, IH.
Qed.

Lemma falsy_score_is_50 v : falsy (feelsScore v) = true -> score_or_50 v = 50.
Proof.
  unfold score_or_50, falsy. destruct (feelsScore v); try reflexivity.
  now intros ->.
Qed.

(** C6: the maximum-intensity vector scores above 80 and the label of its
    score is 'Intense'; so it is with exact arithmetic and with binary64
    arithmetic. *)
Theorem max_intensity_is_intense :
  (80 < calculateFeelsScore (Some max_intensity))%Z
  /\ getMoodLabel (inject_Z (calculateFeelsScore (Some max_intensity)))
     = "Intense"%string
  /\ (80 < FeelsCalculator64.calculateFeelsScore64
             FeelsCalculator64.max_intensity64)%Z
  /\ getMoodLabel (inject_Z (FeelsCalculator64.calculateFeelsScore64
                               FeelsCalculator64.max_intensity64))
     = "Intense"%string.
Proof. repeat split; vm_compute; reflexivity. Qed.

(** The same evaluation on binary64 numbers: the weighted sum comes out as
    97.500000000000014 and is rounded to 98. *)
Example max_intensity_binary64 :
  FeelsCalculator64.calculateFeelsScore64 FeelsCalculator64.max_intensity64 = 98%Z.
Proof. vm_compute. reflexivity. Qed.

(** C7: a missing feature vector ([null]) scores exactly 50; the function
    is total, so no error is raised. *)
Theorem null_features_score_50 : calculateFeelsScore None = 50%Z.
Proof. reflexivity. Qed.

(** C8: for every array in the store and every order, [sortByFeelsScore]
    returns an array other than its input, of the input's length, and the
    input array holds the same elements in the same order afterwards; the
    empty array is included. *)
Theorem sortByFeelsScore_length_and_frame
    (h : heap) (l : loc) (vs : list Video) (order : option string) :
  h !! l = Some vs ->
  let r := sortByFeelsScore h (Some l) order in
  r.1 !! l = Some vs
  /\ r.2 <> l
  /\ length (result_of r) = length vs.
Proof.
  intros Hl r.
  destruct (sortByFeelsScore_store h l vs order Hl) as (Hres & Hne & Hframe).
  fold r in Hres, Hne, Hframe.
  split; [rewrite Hframe by eauto; exact Hl |].
  split; [exact Hne |].
  unfold result_of. rewrite Hres. cbn. apply length_Array_sort.
Qed.

Lemma sortByFeelsScore_length_and_frame_witness :
  let vs := [ {| id := "a"; feelsScore := SNum 70 |};
              {| id := "b"; feelsScore := SUndefined |};
              {| id := "c"; feelsScore := SNum 20 |} ] in
  let h : heap := {[ 1%positive := vs ]} in
  let r := sortByFeelsScore h (Some 1%positive) (Some "desc"%string) in
  r.1 !! 1%positive = Some vs
  /\ r.2 <> 1%positive
  /\ length (result_of r) = length vs.
Proof.
  intros vs h.
  apply (sortByFeelsScore_length_and_frame h 1%positive vs (Some "desc"%string)).
  reflexivity.
Defined.

(** C9: a video whose [feelsScore] is 0, or any other falsy value, is
    handled exactly as the same video with score 50: [sortByFeelsScore]
    puts it where that video would go, and [getScoreDistribution] returns
    the same total, average, min, max and band counts; alone, such a video
    gives average, min and max 50 and is counted in the moderate band, not
    in the chill band. *)
Theorem falsy_score_counts_as_50
    (h h' : heap) (l l' : loc) (vs : list Video) (order : option string) :
  h !! l = Some vs ->
  h' !! l' = Some (map with_50 vs) ->
  result_of (sortByFeelsScore h' (Some l') order)
    = map with_50 (result_of (sortByFeelsScore h (Some l) order))
  /\ getScoreDistribution (Some (map with_50 vs))
     = getScoreDistribution (Some vs)
  /\ forall v, falsy (feelsScore v) = true ->
       compare_videos order v = compare_videos order (with_50 v)
       /\ getScoreDistribution (Some [v])
          = {| total := 1; average := 50; min := 50; max := 50;
               ranges := {| chill := 0; relaxed := 0; moderate := 1;
                            energetic := 0; intense := 0 |} |}.
Proof.
  intros Hl Hl'.
  destruct (sortByFeelsScore_store h l vs order Hl) as (Hres & _ & _).
  destruct (sortByFeelsScore_store h' l' _ order Hl') as (Hres' & _ & _).
  split; [| split].
  - unfold result_of. rewrite Hres, Hres'. cbn [default].
    apply Array_sort_map. apply compare_videos_with_50.
  - unfold getScoreDistribution.
    destruct vs as [| v vs]; [reflexivity |].
    cbn [map]. rewrite <- !map_cons. rewrite scores_with_50.
    now rewrite !length_map.
  - intros v Hv. split.
    + unfold compare_videos. now rewrite score_or_50_with_50.
    + unfold getScoreDistribution. cbn [map].
      rewrite (falsy_score_is_50 v Hv). reflexivity.
Qed.

Lemma falsy_score_counts_as_50_witness :
  let zero := {| id := "z"; feelsScore := SNum 0 |} in
  let vs := [ {| id := "a"; feelsScore := SNum 30 |}; zero;
              {| id := "c"; feelsScore := SNum 70 |} ] in
  let h : heap := {[ 1%positive := vs ]} in
  let h' : heap := {[ 2%positive := map with_50 vs ]} in
  result_of (sortByFeelsScore h' (Some 2%positive) None)
    = map with_50 (result_of (sortByFeelsScore h (Some 1%positive) None))
  /\ getScoreDistribution (Some (map with_50 vs))
     = getScoreDistribution (Some vs)
  /\ moderate (ranges (getScoreDistribution (Some [zero]))) = 1%nat.
Proof.
  intros zero vs h h'.
  destruct (falsy_score_counts_as_50 h h' 1%positive 2%positive vs None
              eq_refl eq_refl) as (Hsort & Hdist & Hone).
  split; [exact Hsort |]. split; [exact Hdist |].
  destruct (Hone zero eq_refl) as [_ ->]. reflexivity.
Defined.

(** *** Order on numbers *)

Lemma Qlt_bool_iff a b : Qlt_bool a b = true <-> a < b.
Proof.
  unfold Qlt_bool. rewrite negb_true_iff. split.
  - intros H. apply Qnot_le_lt. intros Hle. apply Qle_bool_iff in Hle.
    congruence.
  - intros H. destruct (Qle_bool b a) eqn:E; [| reflexivity].
    apply Qle_bool_iff in E. lra.
Qed.

Lemma Qlt_bool_false a b : Qlt_bool a b = false <-> b <= a.
Proof.
  unfold Qlt_bool. rewrite negb_false_iff. apply Qle_bool_iff.
Qed.

(** *** [findClosestVideo] *)

Lemma distance_to_number t v :
  is_Some (to_number (feelsScore v)) -> distance_to t v = Some (gap t v).
Proof. intros [q Hq]. unfold distance_to, gap. now rewrite Hq. Qed.

Lemma closer_keeps t seen state v :
  is_Some (to_number (feelsScore v)) ->
  closest_of t seen state -> closest_of t (seen ++ [v])%list (closer t state v).
Proof.
  intros Hv (i & Hi & Hd & Hmin & Hfirst). unfold closer.
  rewrite (distance_to_number t v Hv), Hd. cbn [less_than].
  destruct (Qlt_bool (gap t v) (gap t state.1)) eqn:E.
  - apply Qlt_bool_iff in E. exists (length seen). cbn [fst snd].
    split; [apply list_lookup_middle; reflexivity |].
    split; [reflexivity |]. split.
    + intros j w Hj.
      apply StringMatcherFacts.lookup_snoc in Hj as [[_ Hj] | [_ ->]]; [| lra].
      specialize (Hmin j w Hj). lra.
    + intros j w Hlt Hj.
      apply StringMatcherFacts.lookup_snoc in Hj as [[_ Hj] | [-> _]]; [| lia].
      specialize (Hmin j w Hj). lra.
  - apply Qlt_bool_false in E. exists i.
    split; [now apply lookup_app_l_Some |]. split; [exact Hd |]. split.
    + intros j w Hj.
      apply StringMatcherFacts.lookup_snoc in Hj as [[_ Hj] | [_ ->]];
        [now apply (Hmin j) | exact E].
    + intros j w Hlt Hj.
      apply StringMatcherFacts.lookup_snoc in Hj as [[_ Hj] | [-> _]].
      * now apply (Hfirst j).
      * apply lookup_lt_Some in Hi. lia.
Qed.

Lemma closest_loop t rest : forall seen state,
  Forall (fun v => is_Some (to_number (feelsScore v))) rest ->
  closest_of t seen state ->
  closest_of t (seen ++ rest)%list (fold_left (closer t) rest state).
Proof.
  induction rest as [| v rest IH]; intros seen state Hall Hc; cbn [fold_left].
  - now rewrite app_nil_r.
  - inversion Hall as [| ? ? Hv Hrest]; subst.
    pose proof (IH (seen ++ [v])%list _ Hrest (closer_keeps t seen state v Hv Hc)) as H.
    now rewrite <- app_assoc in H.
Qed.

(** X14: on a non-empty array of videos whose scores are numbers,
    [findClosestVideo] returns a video of the array whose score is nearest
    to the target, and the first such one: no video is nearer, and every
    video before it is strictly farther. *)
Theorem findClosestVideo_nearest (videos : list Video) (targetScore : Q) :
  videos <> [] ->
  Forall (fun v => is_Some (to_number (feelsScore v))) videos ->
  exists i v,
    findClosestVideo (Some videos) targetScore = Some v
    /\ videos !! i = Some v
    /\ (forall j w, videos !! j = Some w ->
          gap targetScore v <= gap targetScore w)
    /\ (forall j w, (j < i)%nat -> videos !! j = Some w ->
          gap targetScore v < gap targetScore w).
Proof.
  intros Hne Hall. destruct videos as [| first rest]; [congruence |].
  inversion Hall as [| ? ? Hfirst Hrest]; subst.
  assert (H0 : closest_of targetScore [first]
                 (first, distance_to targetScore first)).
  { exists 0%nat. cbn [fst snd]. split; [reflexivity |].
    split; [now apply distance_to_number |]. split.
    - intros [| j] w Hj; cbn in Hj; [| discriminate].
      injection Hj as <-. lra.
    - intros j w Hlt. lia. }
  destruct (closest_loop targetScore rest [first] _ Hrest H0)
    as (i & Hi & _ & Hmin & Hfst).
  exists i, (fold_left (closer targetScore) rest
               (first, distance_to targetScore first)).1.
  split; [reflexivity |]. split; [exact Hi |]. split; assumption.
Qed.

Lemma findClosestVideo_nearest_witness :
  exists i v,
    findClosestVideo
      (Some [ {| id := "a"; feelsScore := SNum 15 |};
              {| id := "b"; feelsScore := SNum 55 |};
              {| id := "c"; feelsScore := SNum 65 |} ]) 60 = Some v
    /\ i = 1%nat /\ id v = "b"%string.
Proof.
  destruct (findClosestVideo_nearest
              [ {| id := "a"; feelsScore := SNum 15 |};
                {| id := "b"; feelsScore := SNum 55 |};
                {| id := "c"; feelsScore := SNum 65 |} ] 60
              ltac:(discriminate)
              ltac:(repeat constructor; eexists; reflexivity))
    as (i & v & Hv & Hi & _ & Hfirst).
  exists 1%nat, v. split; [exact Hv |]. split; [reflexivity |].
  vm_compute in Hv. injection Hv as <-. reflexivity.
Defined.

(** X15: the hook's own [findClosestVideo] returns what the calculator's
    does, for every array (scores that are no numbers included) and every
    target. *)
Theorem findClosestVideo_frontend_agrees
    (videos : option (list Video)) (targetScore : Q) :
  FeelsSelection.findClosestVideo videos targetScore
  = findClosestVideo videos targetScore.
Proof.
  destruct videos as [[| first rest] |]; try reflexivity.
  unfold FeelsSelection.findClosestVideo, findClosestVideo.
  cbn [fold_left]. unfold closer at 2. cbn [snd].
  destruct (distance_to targetScore first) as [d |]; cbn [less_than];
    [| reflexivity].
  assert (H : Qlt_bool d d = false) by (apply Qlt_bool_false; lra).
  now rewrite H.
Qed.

(** *** [sortByFeelsScore] orders, permutes and is stable *)


Lemma compare_videos_trans order a b c :
  compare_videos order a b <= 0 -> compare_videos order b c <= 0 ->
  compare_videos order a c <= 0.
Proof.
  unfold compare_videos. destruct (String.eqb _ _); lra.
Qed.










(** *** [calculateFeelsScore]: range, order, clamping *)

Ltac split_min_max :=
  repeat match goal with
    | |- context [Math_min ?a ?b] =>
        destruct (GenreAudioAnalyzerFacts.Math_min_cases a b) as [[-> ?] | [-> ?]]
    | |- context [Math_max ?a ?b] =>
        destruct (GenreAudioAnalyzerFacts.Math_max_cases a b) as [[-> ?] | [-> ?]]
    end.

Lemma clamp_to_range lo hi x : lo <= hi -> lo <= clamp_to lo hi x <= hi.
Proof. intros H. unfold clamp_to. split_min_max; lra. Qed.

Lemma clamp_to_mono lo hi x y :
  x <= y -> clamp_to lo hi x <= clamp_to lo hi y.
Proof. intros H. unfold clamp_to. split_min_max; lra. Qed.

Lemma clamp_to_fixed lo hi x : lo <= x <= hi -> clamp_to lo hi x == x.
Proof. intros H. unfold clamp_to. split_min_max; lra. Qed.

Lemma clamp_to_eq lo hi x y : x == y -> clamp_to lo hi x == clamp_to lo hi y.
Proof.
  intros H. apply Qle_antisym; apply clamp_to_mono; lra.
Qed.

Lemma clamp_to_low lo hi x : lo <= hi -> x <= lo -> clamp_to lo hi x == lo.
Proof. intros H1 H2. unfold clamp_to. split_min_max; lra. Qed.

Lemma clamp_to_high lo hi x : lo <= hi -> hi <= x -> clamp_to lo hi x == hi.
Proof. intros H1 H2. unfold clamp_to. split_min_max; lra. Qed.

Lemma Qdiv_le_mono c x y : 0 < c -> x <= y -> x / c <= y / c.
Proof.
  intros Hc H. unfold Qdiv. apply Qmult_le_compat_r; [exact H |].
  now apply Qlt_le_weak, Qinv_lt_0_compat.
Qed.

(** Clamping commutes with the two affine normalisations. *)
Lemma clamp_tempo t : clamp_to 0 200 t / 200 == clamp_to 0 1 (t / 200).
Proof.
  destruct (Qlt_le_dec t 0) as [Hlo | Hlo];
    [| destruct (Qlt_le_dec 200 t) as [Hhi | Hhi]].
  - rewrite (clamp_to_low 0 200 t) by lra.
    rewrite (clamp_to_low 0 1 (t / 200)); [reflexivity | lra |].
    apply Qle_shift_div_r; lra.
  - rewrite (clamp_to_high 0 200 t) by lra.
    rewrite (clamp_to_high 0 1 (t / 200)); [reflexivity | lra |].
    apply Qle_shift_div_l; lra.
  - rewrite (clamp_to_fixed 0 200 t) by lra.
    rewrite (clamp_to_fixed 0 1 (t / 200)); [reflexivity |]. split.
    + apply Qle_shift_div_l; lra.
    + apply Qle_shift_div_r; lra.
Qed.

Lemma clamp_loudness l :
  (clamp_to (-30) (-5) l + 30) / 25 == clamp_to 0 1 ((l + 30) / 25).
Proof.
  destruct (Qlt_le_dec l (-30)) as [Hlo | Hlo];
    [| destruct (Qlt_le_dec (-5) l) as [Hhi | Hhi]].
  - rewrite (clamp_to_low (-30) (-5) l) by lra.
    rewrite (clamp_to_low 0 1 ((l + 30) / 25)); [reflexivity | lra |].
    apply Qle_shift_div_r; lra.
  - rewrite (clamp_to_high (-30) (-5) l) by lra.
    rewrite (clamp_to_high 0 1 ((l + 30) / 25)); [reflexivity | lra |].
    apply Qle_shift_div_l; lra.
  - rewrite (clamp_to_fixed (-30) (-5) l) by lra.
    rewrite (clamp_to_fixed 0 1 ((l + 30) / 25)); [reflexivity |]. split.
    + apply Qle_shift_div_l; lra.
    + apply Qle_shift_div_r; lra.
Qed.

Lemma clamp_flip a :
  clamp_to 0 1 (1 - clamp_to 0 1 a) == clamp_to 0 1 (1 - a).
Proof.
  destruct (Qlt_le_dec a 0) as [Hlo | Hlo];
    [| destruct (Qlt_le_dec 1 a) as [Hhi | Hhi]].
  - pose proof (clamp_to_low 0 1 a) as H.
    rewrite (clamp_to_high 0 1 (1 - a)) by lra.
    rewrite (clamp_to_high 0 1 (1 - clamp_to 0 1 a)); lra.
  - pose proof (clamp_to_high 0 1 a) as H.
    rewrite (clamp_to_low 0 1 (1 - a)) by lra.
    rewrite (clamp_to_low 0 1 (1 - clamp_to 0 1 a)); lra.
  - apply clamp_to_eq. rewrite (clamp_to_fixed 0 1 a); lra.
Qed.

Lemma Math_round_mono x y : x <= y -> (Math_round x <= Math_round y)%Z.
Proof. intros H. unfold Math_round. apply Qfloor_resp_le. lra. Qed.

Lemma Math_round_eq x y : x == y -> Math_round x = Math_round y.
Proof. intros H. unfold Math_round. apply Qfloor_comp. lra. Qed.

(** The score as one expression of the six resolved dimensions. *)
Lemma calculateFeelsScore_formula f :
  calculateFeelsScore (Some f)
  = Math_round
      (clamp_to 0 100
         ((clamp_to 0 1 (default 0.5 (energy f)) * 0.40
           + clamp_to 0 1 (default 120 (tempo f) / 200) * 0.25
           + clamp_to 0 1 (default 0.5 (danceability f)) * 0.15
           + clamp_to 0 1 ((default (-10) (loudness f) + 30) / 25) * 0.10
           + clamp_to 0 1 (default 0.5 (valence f)) * 0.05
           + clamp_to 0 1 (1 - default 0.5 (acousticness f)) * 0.05) * 100)).
Proof. unfold calculateFeelsScore, clamp_to. cbv zeta. reflexivity. Qed.

Lemma calculateFeelsScore_bounds (audioFeatures : option AudioFeatures) :
  (0 <= calculateFeelsScore audioFeatures <= 100)%Z.
Proof.
  destruct audioFeatures as [f |]; [| cbn; lia].
  rewrite calculateFeelsScore_formula.
  rewrite !Zle_Qle.
  apply (GenreAudioAnalyzerFacts.Math_round_bounds 0 100).
  apply (clamp_to_range 0 100). lra.
Qed.

(** X17: the score is an integer from 0 to 100 for every argument: a
    missing vector, missing dimensions, and dimensions far outside their
    ranges. *)
Theorem calculateFeelsScore_range (audioFeatures : option AudioFeatures) :
  (0 <= calculateFeelsScore audioFeatures <= 100)%Z.
Proof.
  destruct audioFeatures as [f |]; [| cbn; lia].
  rewrite calculateFeelsScore_formula.
  rewrite !Zle_Qle.
  apply (GenreAudioAnalyzerFacts.Math_round_bounds 0 100).
  apply (clamp_to_range 0 100). lra.
Qed.

(** X18: a vector that is at most as intense as another in every dimension
    (energy, tempo, danceability, loudness, valence not higher,
    acousticness not lower) never scores higher. *)
Theorem calculateFeelsScore_monotone (f g : AudioFeatures) :
  calmer f g ->
  (calculateFeelsScore (Some f) <= calculateFeelsScore (Some g))%Z.
Proof.
  intros (He & Ht & Hd & Hl & Hv & Ha).
  rewrite !calculateFeelsScore_formula.
  apply Math_round_mono, clamp_to_mono.
  set (e1 := default 0.5 (energy f)) in *. set (e2 := default 0.5 (energy g)) in *.
  set (t1 := default 120 (tempo f)) in *. set (t2 := default 120 (tempo g)) in *.
  set (d1 := default 0.5 (danceability f)) in *.
  set (d2 := default 0.5 (danceability g)) in *.
  set (l1 := default (-10) (loudness f)) in *.
  set (l2 := default (-10) (loudness g)) in *.
  set (v1 := default 0.5 (valence f)) in *. set (v2 := default 0.5 (valence g)) in *.
  set (a1 := default 0.5 (acousticness f)) in *.
  set (a2 := default 0.5 (acousticness g)) in *.
  clearbody e1 e2 t1 t2 d1 d2 l1 l2 v1 v2 a1 a2.
  pose proof (clamp_to_mono 0 1 e1 e2 He).
  assert (Ht' : t1 / 200 <= t2 / 200) by (apply Qdiv_le_mono; lra).
  pose proof (clamp_to_mono 0 1 _ _ Ht').
  pose proof (clamp_to_mono 0 1 d1 d2 Hd).
  assert (Hl' : (l1 + 30) / 25 <= (l2 + 30) / 25)
    by (apply Qdiv_le_mono; lra).
  pose proof (clamp_to_mono 0 1 _ _ Hl').
  pose proof (clamp_to_mono 0 1 v1 v2 Hv).
  assert (Ha' : 1 - a1 <= 1 - a2) by lra.
  pose proof (clamp_to_mono 0 1 _ _ Ha').
  lra.
Qed.

Lemma calculateFeelsScore_monotone_witness :
  (calculateFeelsScore (Some min_intensity)
   <= calculateFeelsScore (Some max_intensity))%Z.
Proof.
  apply calculateFeelsScore_monotone.
  unfold calmer. cbn. repeat split; discriminate.
Defined.

(** X19: a dimension outside the range the formula normalises it to is
    scored as the nearest end of the range: energy, danceability, valence
    and acousticness in [0,1], tempo in [0,200], loudness in [-30,-5]. *)
Theorem calculateFeelsScore_clamps (f : AudioFeatures) :
  calculateFeelsScore (Some (in_range f)) = calculateFeelsScore (Some f).
Proof.
  rewrite !calculateFeelsScore_formula.
  unfold in_range.
  cbn [energy tempo danceability loudness valence acousticness].
  change (default ?d (Some ?x)) with x.
  set (e := default 0.5 (energy f)). set (t := default 120 (tempo f)).
  set (d := default 0.5 (danceability f)).
  set (l := default (-10) (loudness f)). set (v := default 0.5 (valence f)).
  set (a := default 0.5 (acousticness f)).
  assert (He : clamp_to 0 1 (clamp_to 0 1 e) == clamp_to 0 1 e).
  { apply clamp_to_fixed, clamp_to_range. lra. }
  assert (Ht : clamp_to 0 1 (clamp_to 0 200 t / 200) == clamp_to 0 1 (t / 200)).
  { rewrite (clamp_to_eq 0 1 _ _ (clamp_tempo t)).
    apply clamp_to_fixed, clamp_to_range. lra. }
  assert (Hd : clamp_to 0 1 (clamp_to 0 1 d) == clamp_to 0 1 d).
  { apply clamp_to_fixed, clamp_to_range. lra. }
  assert (Hl : clamp_to 0 1 ((clamp_to (-30) (-5) l + 30) / 25)
               == clamp_to 0 1 ((l + 30) / 25)).
  { rewrite (clamp_to_eq 0 1 _ _ (clamp_loudness l)).
    apply clamp_to_fixed, clamp_to_range. lra. }
  assert (Hv : clamp_to 0 1 (clamp_to 0 1 v) == clamp_to 0 1 v).
  { apply clamp_to_fixed, clamp_to_range. lra. }
  assert (Ha : clamp_to 0 1 (1 - clamp_to 0 1 a) == clamp_to 0 1 (1 - a)).
  { apply clamp_flip. }
  apply Math_round_eq, clamp_to_eq.
  rewrite He, Ht, Hd, Hl, Hv, Ha. reflexivity.
Qed.

(** *** Labels and colours *)

(** X20: the label and the colour of a score go by the same five bands:
    two scores have the same label exactly when they have the same
    colour. *)
Theorem label_and_colour_agree (s t : Q) :
  getMoodLabel s = getMoodLabel t <-> getScoreColor s = getScoreColor t.
Proof.
  unfold getMoodLabel, getScoreColor.
  destruct (Qlt_bool s 20), (Qlt_bool s 40), (Qlt_bool s 60), (Qlt_bool s 80),
    (Qlt_bool t 20), (Qlt_bool t 40), (Qlt_bool t 60), (Qlt_bool t 80);
    split; intros H; (reflexivity || discriminate H).
Qed.

(** *** The distribution *)

Lemma band_of_score (s : Q) :
  ((if Qlt_bool s 20 then 1 else 0)
   + (if Qle_bool 20 s && Qlt_bool s 40 then 1 else 0)
   + (if Qle_bool 40 s && Qlt_bool s 60 then 1 else 0)
   + (if Qle_bool 60 s && Qlt_bool s 80 then 1 else 0)
   + (if Qle_bool 80 s then 1 else 0) = 1)%nat.
Proof.
  unfold Qlt_bool.
  destruct (Qle_bool 20 s) eqn:H20; destruct (Qle_bool 40 s) eqn:H40;
    destruct (Qle_bool 60 s) eqn:H60; destruct (Qle_bool 80 s) eqn:H80;
    cbn; try reflexivity; exfalso;
    repeat match goal with
      | H : Qle_bool _ _ = true |- _ => apply Qle_bool_iff in H
      | H : Qle_bool _ _ = false |- _ =>
          apply not_true_iff_false in H; rewrite Qle_bool_iff in H
      end; lra.
Qed.

Lemma count_cons p s scores :
  count p (s :: scores) = ((if p s then 1 else 0) + count p scores)%nat.
Proof. unfold count. cbn. now destruct (p s). Qed.

Lemma bands_partition (scores : list Q) :
  (count (fun s => Qlt_bool s 20) scores
   + count (fun s => Qle_bool 20 s && Qlt_bool s 40) scores
   + count (fun s => Qle_bool 40 s && Qlt_bool s 60) scores
   + count (fun s => Qle_bool 60 s && Qlt_bool s 80) scores
   + count (fun s => Qle_bool 80 s) scores = length scores)%nat.
Proof.
  induction scores as [| s scores IH]; [reflexivity |].
  rewrite !count_cons. cbn [length].
  pose proof (band_of_score s). lia.
Qed.

(** X21: the five band counts of a distribution add up to its [total],
    which is the number of videos: every score, given or replaced by 50,
    falls in exactly one band. *)
Theorem getScoreDistribution_bands (videos : option (list Video)) :
  let d := getScoreDistribution videos in
  total d = length (default [] videos)
  /\ (chill (ranges d) + relaxed (ranges d) + moderate (ranges d)
      + energetic (ranges d) + intense (ranges d))%nat = total d.
Proof.
  destruct videos as [[| v vs] |]; cbn zeta; try (split; reflexivity).
  unfold getScoreDistribution.
  cbn [total ranges chill relaxed moderate energetic intense default].
  split; [reflexivity |].
  rewrite bands_partition. now rewrite length_map.
Qed.

Lemma fold_min_le rest : forall s,
  fold_left Math_min rest s <= s
  /\ forall x, In x rest -> fold_left Math_min rest s <= x.
Proof.
  induction rest as [| y rest IH]; intros s; cbn [fold_left].
  - split; [lra | intros x []].
  - destruct (IH (Math_min s y)) as [H1 H2].
    destruct (GenreAudioAnalyzerFacts.Math_min_cases s y) as [[E ?] | [E ?]];
      rewrite E in *.
    + split; [exact H1 |]. intros x [<- | Hx]; [lra | now apply H2].
    + split; [lra |]. intros x [<- | Hx]; [exact H1 | now apply H2].
Qed.

Lemma fold_max_ge rest : forall s,
  s <= fold_left Math_max rest s
  /\ forall x, In x rest -> x <= fold_left Math_max rest s.
Proof.
  induction rest as [| y rest IH]; intros s; cbn [fold_left].
  - split; [lra | intros x []].
  - destruct (IH (Math_max s y)) as [H1 H2].
    destruct (GenreAudioAnalyzerFacts.Math_max_cases s y) as [[E ?] | [E ?]];
      rewrite E in *.
    + split; [lra |]. intros x [<- | Hx]; [exact H1 | now apply H2].
    + split; [exact H1 |]. intros x [<- | Hx]; [lra | now apply H2].
Qed.

Lemma min_of_le scores x : In x scores -> min_of scores <= x.
Proof.
  destruct scores as [| s rest]; [intros [] |].
  destruct (fold_min_le rest s) as [H1 H2].
  intros [<- | Hx]; cbn [min_of]; [exact H1 | now apply H2].
Qed.

Lemma max_of_ge scores x : In x scores -> x <= max_of scores.
Proof.
  destruct scores as [| s rest]; [intros [] |].
  destruct (fold_max_ge rest s) as [H1 H2].
  intros [<- | Hx]; cbn [max_of]; [exact H1 | now apply H2].
Qed.

Lemma sum_between lo hi scores : forall acc,
  (forall x, In x scores -> lo <= x <= hi) ->
  acc + inject_Z (Z.of_nat (length scores)) * lo
    <= fold_left (fun acc score => acc + score) scores acc
    <= acc + inject_Z (Z.of_nat (length scores)) * hi.
Proof.
  induction scores as [| s scores IH]; intros acc H; cbn [fold_left length].
  - change (inject_Z (Z.of_nat 0)) with 0. lra.
  - destruct (IH (acc + s)) as [H1 H2]; [intros x Hx; apply H; now right |].
    destruct (H s) as [Hlo Hhi]; [now left |].
    rewrite Nat2Z.inj_succ, <- Z.add_1_r, inject_Z_plus.
    set (n := inject_Z (Z.of_nat (length scores))) in *. clearbody n.
    change (inject_Z 1) with 1. lra.
Qed.

(** X22: in the distribution of a non-empty array, every video's score
    (50 for a falsy one) lies between [min] and [max], and [average] lies
    between the rounded [min] and the rounded [max]. *)
Theorem getScoreDistribution_bounds (videos : list Video) (v : Video) :
  In v videos ->
  let d := getScoreDistribution (Some videos) in
  min d <= score_or_50 v <= max d
  /\ (Math_round (min d) <= average d <= Math_round (max d))%Z.
Proof.
  intros Hv. destruct videos as [| v0 vs]; [destruct Hv |].
  set (videos := v0 :: vs) in *.
  assert (Hin : forall x, In x (map score_or_50 videos) ->
                  min_of (map score_or_50 videos) <= x
                  <= max_of (map score_or_50 videos)).
  { intros x Hx. split; [now apply min_of_le | now apply max_of_ge]. }
  cbn zeta. unfold getScoreDistribution. subst videos.
  cbn [min max average].
  set (scores := map score_or_50 (v0 :: vs)) in *.
  split; [apply Hin, in_map, Hv |].
  pose proof (sum_between _ _ scores 0 Hin) as [Hlo Hhi].
  fold (sum_scores scores) in Hlo, Hhi.
  assert (Hlen : length scores = length (v0 :: vs)) by apply length_map.
  rewrite Hlen in Hlo, Hhi.
  assert (Hn : 0 < inject_Z (Z.of_nat (length (v0 :: vs)))).
  { change 0 with (inject_Z 0). rewrite <- Zlt_Qlt. cbn [length]. lia. }
  set (n := inject_Z (Z.of_nat (length (v0 :: vs)))) in *. clearbody n.
  split; apply Math_round_mono.
  - apply Qle_shift_div_l; [exact Hn |]. lra.
  - apply Qle_shift_div_r; [exact Hn |]. lra.
Qed.

Lemma getScoreDistribution_bounds_witness :
  let videos := [ {| id := "a"; feelsScore := SNum 15 |};
                  {| id := "b"; feelsScore := SUndefined |};
                  {| id := "c"; feelsScore := SNum 95 |} ] in
  let d := getScoreDistribution (Some videos) in
  15 <= 50 <= 95 /\ (15 <= average d <= 95)%Z.
Proof.
  exact (getScoreDistribution_bounds
           [ {| id := "a"; feelsScore := SNum 15 |};
             {| id := "b"; feelsScore := SUndefined |};
             {| id := "c"; feelsScore := SNum 95 |} ]
           {| id := "b"; feelsScore := SUndefined |}
           (or_intror (or_introl eq_refl))).
Defined.

End FeelsCalculatorFacts.

(** ** Facts about services/cache.service.js *)

Module CacheServiceFacts.
Import CacheService.

Lemma past_true now e : (e < now)%Z -> past now e = true.
Proof. intros H. unfold past. now apply Z.ltb_lt. Qed.

Lemma past_false now e : (now <= e)%Z -> past now e = false.
Proof. intros H. unfold past. apply Z.ltb_ge. exact H. Qed.


Lemma getFromMemory_expired now key st e :
  ttlMap st !! key = Some e -> e <> 0%Z -> (e < now)%Z ->
  getFromMemory now key st = (delete_key key st, VNull).
Proof.
  intros Httl Hnz Hlt. unfold getFromMemory. rewrite Httl.
  rewrite (past_true _ _ Hlt).
  destruct (Z.eqb_spec e 0); [contradiction | reflexivity].
Qed.

Lemma getFromMemory_hidden now key st :
  hidden now key st -> (getFromMemory now key st).2 = VNull.
Proof.
  intros [(e & Httl & Hnz & Hlt) | Hnone].
  - now rewrite (getFromMemory_expired _ _ _ _ Httl Hnz Hlt).
  - unfold getFromMemory. rewrite Hnone.
    destruct (ttlMap st !! key) as [e |]; [| reflexivity].
    destruct (negb (e =? 0)%Z && past now e); reflexivity.
Qed.

(** Reading [key'] removes at most [key'] itself. *)
Lemma getFromMemory_state now key' st :
  (getFromMemory now key' st).1 = st
  \/ (getFromMemory now key' st).1 = delete_key key' st.
Proof.
  unfold getFromMemory.
  destruct (ttlMap st !! key') as [e |]; [| now left].
  destruct (negb (e =? 0)%Z && past now e); [now right | now left].
Qed.

Lemma getFromMemory_keeps_hidden now key key' st :
  hidden now key st -> hidden now key (getFromMemory now key' st).1.
Proof.
  intros Hh.
  destruct (getFromMemory_state now key' st) as [-> | ->]; [exact Hh |].
  destruct (decide (key' = key)) as [-> | Hne].
  - right. cbn. apply lookup_delete_eq.
  - destruct Hh as [(e & Httl & Hnz & Hlt) | Hnone].
    + left. exists e. cbn. now rewrite lookup_delete_ne.
    + right. cbn. now rewrite lookup_delete_ne.
Qed.

Lemma mgetFromMemory_hidden now key keys :
  forall st i,
    hidden now key st -> keys !! i = Some key ->
    (mgetFromMemory now keys st).2 !! i = Some VNull.
Proof.
  induction keys as [| k rest IH]; intros st i Hh Hi; [discriminate |].
  cbn [mgetFromMemory].
  pose proof (getFromMemory_keeps_hidden now key k st Hh) as Hh1.
  destruct (getFromMemory now k st) as [st1 v] eqn:Eg.
  destruct (mgetFromMemory now rest st1) as [st2 vs] eqn:Em.
  destruct i as [| i]; cbn in *.
  - injection Hi as ->.
    pose proof (getFromMemory_hidden now key st Hh) as Hv.
    rewrite Eg in Hv. cbn in Hv. now subst v.
  - specialize (IH st1 i Hh1 Hi). now rewrite Em in IH.
Qed.

Section WithJSON.

Variable JSON_parse : string -> option Value.

(** C3: what the three reads do, in memory mode, with an entry whose expiry
    is past and that no sweep or read has removed yet.  [get] answers
    [null] and [mget] has [null] at every position of the key; [exists]
    asks the value map only and answers [true]: the entry is not hidden
    from it.  (The guard of [getFromMemory] takes an expiry instant of 0
    for no expiry at all, hence [e <> 0].) *)
Theorem expired_entry_reads
    (st : State) (now : Z) (key : string) (v : Value) (e : Z) :
  uses_redis st = None ->
  memoryCache st !! key = Some v ->
  ttlMap st !! key = Some e ->
  e <> 0%Z -> (e < now)%Z ->
  (get JSON_parse now key st).2 = VNull
  /\ (forall keys i, keys !! i = Some key ->
        (mget JSON_parse now keys st).2 !! i = Some VNull)
  /\ exists_ key st = true.
Proof.
  intros Hmode Hval Httl Hnz Hlt.
  assert (Hh : hidden now key st) by (left; eauto).
  unfold get, mget, exists_. rewrite Hmode.
  split; [now apply getFromMemory_hidden |].
  split; [intros keys i Hi; now apply (mgetFromMemory_hidden now key) |].
  apply bool_decide_eq_true. rewrite Hval. eauto.
Qed.


End WithJSON.

Lemma expired_entry_reads_witness :
  (get (fun _ => None) 5000 "k" one_second_entry).2 = VNull
  /\ (mget (fun _ => None) 5000 ["a"; "k"] one_second_entry).2 !! 1%nat
     = Some VNull
  /\ exists_ "k" one_second_entry = true.
Proof.
  destruct (expired_entry_reads (fun _ => None) one_second_entry 5000 "k"
              (VStr "v") 1000 eq_refl eq_refl eq_refl ltac:(discriminate)
              ltac:(reflexivity))
    as (Hget & Hmget & Hex).
  split; [exact Hget |]. split; [| exact Hex].
  apply Hmget. reflexivity.
Defined.


(** *** Writes followed by reads *)

Lemma getFromMemory_live now key st v e :
  memoryCache st !! key = Some v -> ttlMap st !! key = Some e ->
  (now <= e)%Z -> getFromMemory now key st = (st, or_else v VNull).
Proof.
  intros Hval Httl Hle. unfold getFromMemory.
  rewrite Httl, Hval, (past_false _ _ Hle). now rewrite andb_false_r.
Qed.

(** What a read of [key] returns depends on the two entries of [key]
    only. *)
Lemma getFromMemory_local now key st st' :
  memoryCache st' !! key = memoryCache st !! key ->
  ttlMap st' !! key = ttlMap st !! key ->
  (getFromMemory now key st').2 = (getFromMemory now key st).2.
Proof.
  intros Hval Httl. unfold getFromMemory. rewrite Hval, Httl.
  destruct (ttlMap st !! key) as [e |]; [| reflexivity].
  destruct (negb (e =? 0)%Z && past now e); reflexivity.
Qed.

Lemma getFromMemory_absent now key st :
  memoryCache st !! key = None -> (getFromMemory now key st).2 = VNull.
Proof. intros H. apply getFromMemory_hidden. now right. Qed.

(** Reading [key'] first does not change what a read of [key] returns. *)
Lemma getFromMemory_after_read now key key' st :
  (getFromMemory now key (getFromMemory now key' st).1).2
  = (getFromMemory now key st).2.
Proof.
  unfold getFromMemory at 2.
  destruct (ttlMap st !! key') as [e |] eqn:Httl; [| reflexivity].
  destruct (negb (e =? 0)%Z && past now e) eqn:Hexp; [| reflexivity].
  cbn [fst]. destruct (decide (key' = key)) as [-> | Hne].
  - apply andb_true_iff in Hexp as [Hnz Hpast].
    rewrite getFromMemory_absent by apply lookup_delete_eq.
    symmetry. apply getFromMemory_hidden. left. exists e.
    split; [exact Httl |]. split.
    + intros ->. discriminate.
    + unfold past in Hpast. now apply Z.ltb_lt.
  - apply getFromMemory_local; cbn; now apply lookup_delete_ne.
Qed.

Lemma mgetFromMemory_map now keys : forall st,
  (mgetFromMemory now keys st).2
  = map (fun key => (getFromMemory now key st).2) keys.
Proof.
  induction keys as [| k rest IH]; intros st; [reflexivity |].
  cbn [mgetFromMemory map].
  destruct (getFromMemory now k st) as [st1 v] eqn:Eg.
  specialize (IH st1).
  destruct (mgetFromMemory now rest st1) as [st2 vs] eqn:Em.
  cbn [snd] in *. f_equal. rewrite IH.
  apply map_ext. intros key.
  replace st1 with (getFromMemory now k st).1 by now rewrite Eg.
  apply getFromMemory_after_read.
Qed.

Lemma sweep_lookup_ttl now key st :
  ttlMap (sweep now st) !! key
  = match ttlMap st !! key with
    | Some e => if past now e then None else Some e
    | None => None
    end.
Proof.
  cbn. destruct (ttlMap st !! key) as [e |] eqn:Httl.
  - destruct (past now e) eqn:Hp.
    + apply map_lookup_filter_None. right. intros e' He'. cbn.
      rewrite Httl in He'. injection He' as <-. now rewrite Hp.
    + apply map_lookup_filter_Some. now split.
  - apply map_lookup_filter_None. now left.
Qed.

Lemma sweep_lookup_value now key st :
  memoryCache (sweep now st) !! key
  = match ttlMap st !! key with
    | Some e => if past now e then None else memoryCache st !! key
    | None => memoryCache st !! key
    end.
Proof.
  cbn. destruct (memoryCache st !! key) as [v |] eqn:Hval.
  - destruct (ttlMap st !! key) as [e |] eqn:Httl.
    + destruct (past now e) eqn:Hp.
      * apply map_lookup_filter_None. right. intros v' _. cbn.
        rewrite Httl. cbn. rewrite Hp. intros H. now apply H.
      * apply map_lookup_filter_Some. split; [exact Hval |]. cbn.
        rewrite Httl. cbn. rewrite Hp. discriminate.
    + apply map_lookup_filter_Some. split; [exact Hval |]. cbn.
      rewrite Httl. discriminate.
  - assert (H : filter (fun kv : string * Value =>
                          (past now <$> ttlMap st !! kv.1) <> Some true)
                       (memoryCache st) !! key = None)
      by (apply map_lookup_filter_None; now left).
    rewrite H. destruct (ttlMap st !! key) as [e |]; [| reflexivity].
    now destruct (past now e).
Qed.

Lemma past_later now now' e :
  (now <= now')%Z -> past now e = true -> past now' e = true.
Proof. unfold past. intros H Hp. apply Z.ltb_lt in Hp. apply Z.ltb_lt. lia. Qed.

Lemma in_sync_new : in_sync new.
Proof. intros key. cbn. rewrite !lookup_empty. split; intros [? ?]; discriminate. Qed.

Lemma in_sync_delete_key key st : in_sync st -> in_sync (delete_key key st).
Proof.
  intros H key'. cbn. destruct (decide (key = key')) as [-> | Hne].
  - rewrite !lookup_delete_eq. split; intros [? ?]; discriminate.
  - rewrite !lookup_delete_ne by exact Hne. apply H.
Qed.

Lemma in_sync_setInMemory now key v ttl st :
  in_sync st -> in_sync (setInMemory now key v ttl st).1.
Proof.
  intros H key'. cbn. destruct (decide (key = key')) as [-> | Hne].
  - rewrite !lookup_insert_eq. split; eauto.
  - rewrite !lookup_insert_ne by exact Hne. apply H.
Qed.

Lemma in_sync_getFromMemory now key st :
  in_sync st -> in_sync (getFromMemory now key st).1.
Proof.
  intros H. destruct (getFromMemory_state now key st) as [-> | ->];
    [exact H | now apply in_sync_delete_key].
Qed.

Lemma in_sync_mgetFromMemory now keys : forall st,
  in_sync st -> in_sync (mgetFromMemory now keys st).1.
Proof.
  induction keys as [| k rest IH]; intros st H; [exact H |].
  cbn [mgetFromMemory].
  pose proof (in_sync_getFromMemory now k st H) as H1.
  destruct (getFromMemory now k st) as [st1 v].
  specialize (IH st1 H1).
  now destruct (mgetFromMemory now rest st1) as [st2 vs].
Qed.

Lemma in_sync_sweep now st : in_sync st -> in_sync (sweep now st).
Proof.
  intros H key. rewrite sweep_lookup_value, sweep_lookup_ttl.
  specialize (H key).
  destruct (ttlMap st !! key) as [e |].
  - destruct (past now e); [split; intros [? ?]; discriminate |].
    split; [eauto | intros _; apply H; eauto].
  - exact H.
Qed.

Lemma in_sync_mset default_ttl turns ttlSeconds : forall st,
  in_sync st -> in_sync (mset_memory default_ttl turns ttlSeconds st).1.
Proof.
  unfold mset_memory. cbn [fst].
  induction turns as [| turn turns IH]; intros st H; [exact H |].
  cbn [fold_left]. apply IH. now apply in_sync_setInMemory.
Qed.

Section WritesAndReads.

Variable JSON_parse : string -> option Value.

Lemma get_memory now key st :
  uses_redis st = None -> get JSON_parse now key st = getFromMemory now key st.
Proof. intros H. unfold get. now rewrite H. Qed.

Lemma in_sync_get now key st : in_sync st -> in_sync (get JSON_parse now key st).1.
Proof.
  intros H. unfold get. destruct (uses_redis st) as [c |];
    [| now apply in_sync_getFromMemory].
  destruct (redis_get c key ≫= parse_reply JSON_parse);
    [exact H | now apply in_sync_getFromMemory].
Qed.

Lemma in_sync_mget now keys st :
  in_sync st -> in_sync (mget JSON_parse now keys st).1.
Proof.
  intros H. unfold mget. destruct (uses_redis st) as [c |];
    [| now apply in_sync_mgetFromMemory].
  destruct (redis_mGet c keys ≫= _);
    [exact H | now apply in_sync_mgetFromMemory].
Qed.

(** X23: in memory mode, a value written by [set] is read back by [get]
    until its expiry instant, [now + ttl * 1000], and as [null] after it;
    a falsy value is read back as [null] throughout.  Whatever was stored
    under the key before is replaced, TTL included, and no other key reads
    differently.  (An expiry instant of 0 is taken by the read for no
    expiry at all, hence the hypothesis.) *)
Theorem set_then_get
    (default_ttl : Z) (st : State) (now now' : Z) (key : string) (v : Value)
    (ttlSeconds : option Z) :
  uses_redis st = None ->
  (now + effective_ttl default_ttl ttlSeconds * 1000 <> 0)%Z ->
  let st1 := (set_memory default_ttl now key v ttlSeconds st).1 in
  (get JSON_parse now' key st1).2
  = (if (now' <=? now + effective_ttl default_ttl ttlSeconds * 1000)%Z
     then or_else v VNull else VNull)
  /\ exists_ key st1 = true
  /\ forall key', key' <> key ->
       (get JSON_parse now' key' st1).2 = (get JSON_parse now' key' st).2
       /\ exists_ key' st1 = exists_ key' st.
Proof.
  intros Hmode Hnz st1.
  assert (Hmode1 : uses_redis st1 = None) by exact Hmode.
  assert (Hval : memoryCache st1 !! key = Some v) by apply lookup_insert_eq.
  assert (Httl : ttlMap st1 !! key
                 = Some (now + effective_ttl default_ttl ttlSeconds * 1000)%Z)
    by apply lookup_insert_eq.
  split; [| split].
  - rewrite get_memory by exact Hmode1.
    destruct (Z.leb_spec now' (now + effective_ttl default_ttl ttlSeconds * 1000))
      as [Hle | Hlt].
    + now rewrite (getFromMemory_live _ _ _ _ _ Hval Httl Hle).
    + now rewrite (getFromMemory_expired _ _ _ _ Httl Hnz Hlt).
  - unfold exists_. rewrite Hmode1, Hval. apply bool_decide_eq_true. eauto.
  - intros key' Hne. split.
    + rewrite !get_memory by assumption.
      apply getFromMemory_local; cbn; now apply lookup_insert_ne.
    + unfold exists_. rewrite Hmode1, Hmode.
      replace (memoryCache st1 !! key') with (memoryCache st !! key');
        [reflexivity |].
      symmetry. cbn. now apply lookup_insert_ne.
Qed.

(** X24: after [del(key)], in memory mode, the key reads as [null] and
    [exists] answers [false], whatever was stored; no other key reads
    differently. *)
Theorem del_then_reads (st : State) (now : Z) (key : string) :
  uses_redis st = None ->
  (get JSON_parse now key (del key st)).2 = VNull
  /\ exists_ key (del key st) = false
  /\ forall key', key' <> key ->
       (get JSON_parse now key' (del key st)).2 = (get JSON_parse now key' st).2
       /\ exists_ key' (del key st) = exists_ key' st.
Proof.
  intros Hmode.
  assert (Hmode1 : uses_redis (del key st) = None) by exact Hmode.
  split; [| split].
  - rewrite get_memory by exact Hmode1.
    apply getFromMemory_absent. cbn. apply lookup_delete_eq.
  - unfold exists_. rewrite Hmode1. cbn. rewrite lookup_delete_eq.
    apply bool_decide_eq_false. intros [? ?]. discriminate.
  - intros key' Hne. split.
    + rewrite !get_memory by assumption.
      apply getFromMemory_local; cbn; now apply lookup_delete_ne.
    + unfold exists_. rewrite Hmode1, Hmode. cbn.
      now rewrite lookup_delete_ne.
Qed.

(** X25: in memory mode [mget] returns, position by position, what [get]
    returns for the key on the store before the call, although the reads
    of [mget] follow one another on a store that loses the expired keys
    as they are read. *)
Theorem mget_pointwise (st : State) (now : Z) (keys : list string) :
  uses_redis st = None ->
  (mget JSON_parse now keys st).2
  = map (fun key => (get JSON_parse now key st).2) keys.
Proof.
  intros Hmode. unfold mget. rewrite Hmode, mgetFromMemory_map.
  apply map_ext. intros key. now rewrite get_memory.
Qed.

(** X26: the periodic sweep never changes what a later read returns: for a
    key whose recorded expiry is not 0, [get] at an instant not before the
    sweep returns the same value on the swept store as on the store left
    alone.  (The sweep removes an entry whose expiry is 0, which the read
    takes for an entry without expiry.) *)
Theorem sweep_then_get (st : State) (now now' : Z) (key : string) :
  uses_redis st = None ->
  (now <= now')%Z ->
  ttlMap st !! key <> Some 0%Z ->
  (get JSON_parse now' key (sweep now st)).2 = (get JSON_parse now' key st).2.
Proof.
  intros Hmode Hle Hnz.
  assert (Hmode1 : uses_redis (sweep now st) = None) by exact Hmode.
  rewrite !get_memory by assumption.
  destruct (ttlMap st !! key) as [e |] eqn:Httl.
  - destruct (past now e) eqn:Hp.
    + rewrite getFromMemory_absent
        by (rewrite sweep_lookup_value, Httl, Hp; reflexivity).
      symmetry. apply getFromMemory_hidden. left. exists e.
      split; [exact Httl |]. split; [congruence |].
      unfold past in Hp. apply Z.ltb_lt in Hp. lia.
    + apply getFromMemory_local.
      * now rewrite sweep_lookup_value, Httl, Hp.
      * now rewrite sweep_lookup_ttl, Httl, Hp.
  - apply getFromMemory_local.
    + now rewrite sweep_lookup_value, Httl.
    + now rewrite sweep_lookup_ttl, Httl.
Qed.

(** X27: on a service that was never connected to Redis, after any
    sequence of [get], [set], [del], [exists], [mget], [mset], [clear] and
    sweeps, the value map and the expiry map hold the same keys. *)
Theorem maps_stay_in_sync (default_ttl : Z) (calls : list Call) :
  in_sync (run JSON_parse default_ttl calls new).
Proof.
  unfold run.
  assert (H : forall st, in_sync st ->
            in_sync (fold_left (fun st c => call JSON_parse default_ttl c st)
                               calls st)).
  { induction calls as [| c calls IH]; intros st Hst; [exact Hst |].
    cbn [fold_left]. apply IH.
    destruct c as [now key | now key v ttl | key | key | now keys
                  | turns ttl | | now]; cbn [call].
    - now apply in_sync_get.
    - now apply in_sync_setInMemory.
    - now apply in_sync_delete_key.
    - exact Hst.
    - now apply in_sync_mget.
    - now apply in_sync_mset.
    - intros key. cbn. rewrite !lookup_empty.
      split; intros [? ?]; discriminate.
    - now apply in_sync_sweep. }
  apply H, in_sync_new.
Qed.

End WritesAndReads.

Lemma set_then_get_witness :
  let st1 := (set_memory 2592000 0 "k" (VStr "v") (Some 1%Z) new).1 in
  (get (fun _ => None) 1000 "k" st1).2 = VStr "v"
  /\ (get (fun _ => None) 1001 "k" st1).2 = VNull.
Proof.
  split.
  - exact (proj1 (set_then_get (fun _ => None) 2592000 new 0 1000 "k"
                    (VStr "v") (Some 1%Z) eq_refl ltac:(discriminate))).
  - exact (proj1 (set_then_get (fun _ => None) 2592000 new 0 1001 "k"
                    (VStr "v") (Some 1%Z) eq_refl ltac:(discriminate))).
Defined.

Lemma del_then_reads_witness :
  (get (fun _ => None) 500 "k" (del "k" one_second_entry)).2 = VNull
  /\ exists_ "k" (del "k" one_second_entry) = false.
Proof.
  destruct (del_then_reads (fun _ => None) one_second_entry 500 "k" eq_refl)
    as (Hget & Hex & _).
  split; [exact Hget | exact Hex].
Defined.

Lemma mget_pointwise_witness :
  (mget (fun _ => None) 5000 ["k"; "a"; "k"] one_second_entry).2
  = [VNull; VNull; VNull].
Proof.
  exact (mget_pointwise (fun _ => None) one_second_entry 5000
           ["k"; "a"; "k"] eq_refl).
Defined.

Lemma sweep_then_get_witness :
  (get (fun _ => None) 900 "k" (sweep 500 one_second_entry)).2 = VStr "v".
Proof.
  exact (sweep_then_get (fun _ => None) one_second_entry 500 900 "k" eq_refl
           ltac:(discriminate) ltac:(discriminate)).
Defined.

End CacheServiceFacts.

(** ** Facts about services/music-analysis.service.js *)

Module MusicAnalysisFacts.
Import JS CacheService MusicAnalysis.

Local Open Scope Q_scope.

Lemma uses_redis_getFromMemory now key st :
  uses_redis (getFromMemory now key st).1 = uses_redis st.
Proof.
  destruct (CacheServiceFacts.getFromMemory_state now key st) as [-> | ->];
    reflexivity.
Qed.

Section WithCollaborators.

Variable JSON_parse : string -> option Value.
Variable default_ttl : Z.

Lemma uses_redis_get now key st :
  uses_redis (get JSON_parse now key st).1 = uses_redis st.
Proof.
  unfold get. destruct (uses_redis st) as [c |] eqn:E.
  - destruct (redis_get c key ≫= parse_reply JSON_parse); [exact E |].
    now rewrite uses_redis_getFromMemory.
  - now rewrite uses_redis_getFromMemory.
Qed.

Lemma uses_redis_searchAndAnalyzeTrack
    (search : string -> string -> State -> State * option Recording)
    artist song st :
  (forall a s st0, uses_redis (search a s st0).1 = uses_redis st0) ->
  uses_redis (searchAndAnalyzeTrack search artist song st).1 = uses_redis st.
Proof.
  intros Hsearch. unfold searchAndAnalyzeTrack.
  destruct (negb (truthy_opt artist) || negb (truthy_opt song)); [reflexivity |].
  specialize (Hsearch (default "" artist) (default "" song) st).
  destruct (search (default "" artist) (default "" song) st) as [st1 [r |]];
    exact Hsearch.
Qed.

(** X28: every track [searchAndAnalyzeTrack] returns was asked for with an
    artist and a song, has a score from 0 to 100 with the label and the
    colour of that score, a match confidence from 0 to 1, and audio
    features within their bounds. *)
Theorem searchAndAnalyzeTrack_track
    (search : string -> string -> State -> State * option Recording)
    (artist song : option string) (st st' : State) (track : Track) :
  searchAndAnalyzeTrack search artist song st = (st', Some track) ->
  truthy_opt artist = true /\ truthy_opt song = true
  /\ (0 <= feelsScore track <= 100)%Z
  /\ mood track = FeelsCalculator.getMoodLabel (inject_Z (feelsScore track))
  /\ color track = FeelsCalculator.getScoreColor (inject_Z (feelsScore track))
  /\ 0 <= matchConfidence track <= 1
  /\ GenreAudioAnalyzer.within (-4) (audioFeatures track)
  /\ genreConfidence track = GenreAudioAnalyzer.confidence (audioFeatures track).
Proof.
  unfold searchAndAnalyzeTrack.
  destruct (truthy_opt artist); [| discriminate].
  destruct (truthy_opt song); [| discriminate].
  cbn [negb orb].
  destruct (search (default "" artist) (default "" song) st) as [st1 [r |]];
    [| discriminate].
  intros H. pose proof (f_equal snd H) as Htrack.
  cbv beta iota zeta delta [snd] in Htrack.
  apply (inj Some) in Htrack. subst track.
  cbv beta iota delta
    [feelsScore mood color matchConfidence audioFeatures genreConfidence].
  split; [reflexivity |]. split; [reflexivity |].
  split; [apply FeelsCalculatorFacts.calculateFeelsScore_bounds |].
  split; [reflexivity |]. split; [reflexivity |].
  split; [apply StringMatcherFacts.calculateMatchScore_bounds_comm |].
  split; [apply GenreAudioAnalyzerFacts.inferAudioFeatures_bounds | reflexivity].
Qed.

(** X29: a result [matchVideo] has worked out is served from the cache
    afterwards.  In memory mode, when the first call misses the cache and
    the title gives an artist or a song, a second call for the same video,
    up to thirty days later for a match and one day for a failure, returns
    the properties of the first result with [cached: true] in place of
    [cached: false]; it leaves the store as it is and does not depend on
    what a search would find. *)
Theorem matchVideo_cached
    (search search' : string -> string -> State -> State * option Recording)
    (video : Video) (st : State) (now_get now_set now_get' now_set' : Z) :
  uses_redis st = None ->
  (forall a s st0, uses_redis (search a s st0).1 = uses_redis st0) ->
  truthy (get JSON_parse now_get ("music:match:" +:+ id video) st).2 = false ->
  (let parsed := TitleParser.parseVideoTitle (title video) (channelTitle video) in
   truthy_opt (TitleParser.artist parsed) || truthy_opt (TitleParser.song parsed)
   = true) ->
  let first := matchVideo JSON_parse default_ttl search now_get now_set video st in
  (now_get' <= now_set + kept_for first.2 * 1000)%Z ->
  exists result,
    first.2 = spread_with result "cached" (VBool false)
    /\ matchVideo JSON_parse default_ttl search' now_get' now_set' video first.1
       = (first.1, spread_with result "cached" (VBool true)).
Proof.
  intros Hmode Hsearch Hmiss Hparsed. cbn zeta in Hparsed.
  unfold matchVideo at 1 2.
  pose proof (uses_redis_get now_get ("music:match:" +:+ id video) st) as Hmode_a.
  destruct (get JSON_parse now_get ("music:match:" +:+ id video) st)
    as [st_a cached] eqn:Eg.
  cbn [fst snd] in Hmiss, Hmode_a. rewrite Hmiss.
  apply orb_true_iff in Hparsed.
  assert (Hcond : negb (truthy_opt (TitleParser.artist
                    (TitleParser.parseVideoTitle (title video) (channelTitle video))))
                  && negb (truthy_opt (TitleParser.song
                    (TitleParser.parseVideoTitle (title video) (channelTitle video))))
                  = false).
  { destruct Hparsed as [-> | ->]; [reflexivity | apply andb_false_r]. }
  rewrite Hcond.
  set (parsed := TitleParser.parseVideoTitle (title video) (channelTitle video)).
  pose proof (uses_redis_searchAndAnalyzeTrack search
                (TitleParser.artist parsed) (TitleParser.song parsed) st_a Hsearch)
    as Hmode_b.
  destruct (searchAndAnalyzeTrack search (TitleParser.artist parsed)
              (TitleParser.song parsed) st_a) as [st_b [track |]] eqn:Es;
    cbn [fst snd] in Hmode_b; cbn zeta; cbn [fst snd]; intros Hlive.
  - exists (matched_result video parsed track). split; [reflexivity |].
    set (result := matched_result video parsed track) in *.
    set (st1 := (set_memory default_ttl now_set ("music:match:" +:+ id video)
                   result (Some 2592000%Z) st_b).1).
    assert (Hmode1 : uses_redis st1 = None)
      by (change (uses_redis st_b = None); congruence).
    unfold matchVideo.
    rewrite (CacheServiceFacts.get_memory JSON_parse _ _ _ Hmode1).
    rewrite (CacheServiceFacts.getFromMemory_live now_get' _ st1 result
               (now_set + 2592000 * 1000)%Z);
      [reflexivity | apply lookup_insert_eq | apply lookup_insert_eq |].
    exact Hlive.
  - exists (unmatched_result video parsed). split; [reflexivity |].
    set (result := unmatched_result video parsed) in *.
    set (st1 := (set_memory default_ttl now_set ("music:match:" +:+ id video)
                   result (Some 86400%Z) st_b).1).
    assert (Hmode1 : uses_redis st1 = None)
      by (change (uses_redis st_b = None); congruence).
    unfold matchVideo.
    rewrite (CacheServiceFacts.get_memory JSON_parse _ _ _ Hmode1).
    rewrite (CacheServiceFacts.getFromMemory_live now_get' _ st1 result
               (now_set + 86400 * 1000)%Z);
      [reflexivity | apply lookup_insert_eq | apply lookup_insert_eq |].
    exact Hlive.
Qed.

End WithCollaborators.

Lemma searchAndAnalyzeTrack_track_witness :
  exists track,
    (searchAndAnalyzeTrack finds_one (Some "rick astley")
       (Some "never gonna give you up") new).2 = Some track
    /\ (0 <= feelsScore track <= 100)%Z
    /\ 0 <= matchConfidence track <= 1.
Proof.
  destruct (searchAndAnalyzeTrack finds_one (Some "rick astley")
              (Some "never gonna give you up") new) as [st' [track |]] eqn:E;
    [| vm_compute in E; discriminate E].
  exists track. split; [reflexivity |].
  destruct (searchAndAnalyzeTrack_track finds_one _ _ _ _ _ E)
    as (_ & _ & Hscore & _ & _ & Hmatch & _).
  split; [exact Hscore | exact Hmatch].
Defined.

Lemma matchVideo_cached_witness :
  let first := matchVideo (fun _ => None) 2592000 finds_one 1000 1500 rick new in
  exists result,
    first.2 = spread_with result "cached" (VBool false)
    /\ matchVideo (fun _ => None) 2592000 finds_nothing 2592001500 2592001600
         rick first.1
       = (first.1, spread_with result "cached" (VBool true)).
Proof.
  apply (matchVideo_cached (fun _ => None) 2592000 finds_one finds_nothing rick
           new 1000 1500 2592001500 2592001600).
  - reflexivity.
  - reflexivity.
  - reflexivity.
  - vm_compute. reflexivity.
  - vm_compute. discriminate.
Defined.

End MusicAnalysisFacts.
